(** * Client-side orchestration of a Milvus vector store

    A shallow embedding of the three scripts of the repository:

    - [db_insertion.py]: resilient connector, [load_data], batching of the
      id/embedding dataset, per-batch workers, the accounting of their
      results, and [main];
    - [index.py]: resilient connector, [replace_index] and [main];
    - [query.py]: resilient connector, [perform_search] and [main].

    The remote store (pymilvus) is outside the repository.  It is modelled
    as a mock: an oracle that decides which connect / disconnect calls fail,
    a fault plan for the collection calls, and a function for [search].
    The file system, numpy, pandas and the clock are parameters. *)

From stdpp Require Import base numbers list strings pretty gmap sorting.

Local Open Scope Z_scope.

(** ** Python built-ins used by the scripts *)

(** Number of items of [range(start, stop, step)] for a non-zero [step],
    computed as CPython does: with [lo, hi] the bounds in the direction of
    travel, [0] when [lo >= hi] and [(hi - lo - 1) // |step| + 1] otherwise. *)
Definition range_len (start stop step : Z) : nat :=
  if decide (0 < step)
  then if decide (start < stop)
       then Z.to_nat ((stop - start - 1) `div` step + 1) else 0%nat
  else if decide (stop < start)
       then Z.to_nat ((start - stop - 1) `div` (- step) + 1) else 0%nat.

(** [range(start, stop, step)]; [None] is the [ValueError] that Python
    raises for [step = 0]. *)
Definition py_range (start stop step : Z) : option (list Z) :=
  if decide (step = 0) then None
  else Some ((λ k : nat, start + Z.of_nat k * step) <$> seq 0 (range_len start stop step)).

(** [range(n)]. *)
Definition range (n : Z) : list Z := seqZ 0 n.

(** [l[i:j]] for the non-negative bounds the scripts produce: the slice is
    clipped to the list, and empty when [j <= i]. *)
Definition slice {A} (l : list A) (i j : Z) : list A :=
  take (Z.to_nat j - Z.to_nat i) (drop (Z.to_nat i) l).

(** [len(l)] as a Python integer. *)
Definition len {A} (l : list A) : Z := Z.of_nat (length l).

(** Exceptions: their class, as far as [except Exception] can tell, and
    [str(e)]. *)
Inductive exn_class :=
| Exception      (* [Exception] or one of its subclasses *)
| RuntimeError   (* [RuntimeError], itself a subclass of [Exception] *)
| BaseOnly.      (* [KeyboardInterrupt], [SystemExit]: not an [Exception] *)

Record exn := Exn { class_of : exn_class; str : string }.

Definition is_Exception (e : exn) : bool :=
  match class_of e with BaseOnly => false | _ => true end.

Global Instance exn_class_eq_dec : EqDecision exn_class.
Proof. solve_decision. Defined.
Global Instance exn_eq_dec : EqDecision exn.
Proof. solve_decision. Defined.

(** How a statement ends. *)
Inductive outcome :=
| Normal
| Raise (e : exn).

Global Instance outcome_eq_dec : EqDecision outcome.
Proof. solve_decision. Defined.

(** ** The world the connector acts on *)

(** What an observer of a run sees, oldest event first. *)
Inductive event :=
| EvConnect (alias : string) (ok : bool)      (* [connections.connect] returned / raised *)
| EvDisconnect (alias : string) (ok : bool)   (* [connections.disconnect] returned / raised *)
| EvSleep (seconds : Z)                       (* [time.sleep] *)
| EvPrint (line : string)                     (* [print] *)
| EvBody.                                     (* the body of the [with] statement ran *)

Global Instance event_eq_dec : EqDecision event.
Proof. solve_decision. Defined.

(** The mock store: the k-th call of [connections.connect] fails with the
    message [connect_result k], or succeeds on [None]; likewise for
    [connections.disconnect]. *)
Record store := Store {
  connect_result : nat → option string;
  disconnect_result : nat → option string
}.

Record world := World {
  n_connect : nat;        (* calls of [connections.connect] so far *)
  n_disconnect : nat;     (* calls of [connections.disconnect] so far *)
  log : list event
}.

Definition init : world := World 0 0 [].

(** A small state monad over the world. *)
Definition M (A : Type) : Type := world → A * world.

Global Instance M_ret : MRet M := λ A (a : A) w, (a, w).
Global Instance M_bind : MBind M := λ A B (f : A → M B) (m : M A) w,
  let (a, w') := m w in f a w'.

Definition emit (ev : event) : M unit :=
  λ w, (tt, World (n_connect w) (n_disconnect w) (log w ++ [ev])).

Definition print (line : string) : M unit := emit (EvPrint line).

(** [time.sleep(seconds)]: a [ValueError] for a negative length, a wait
    otherwise. *)
Definition sleep (seconds : Z) : M (option exn) := λ w,
  if decide (seconds < 0)
  then (Some (Exn Exception "sleep length must be non-negative"), w)
  else (None, (emit (EvSleep seconds) w).2).

(** ** The resilient connector

    [milvus_connection] is a generator function under [@contextmanager].
    The three scripts carry three copies of it:

    - [index.py] and [query.py]: the [try] statement inside the [for] loop
      has the [finally] clause, and nothing follows the [yield];
    - [db_insertion.py]: a [break] follows the [yield], and the [finally]
      clause is indented to the column of the [for], which Python rejects
      (line 31).  The clause can be read in two ways: as part of the [try]
      inside the loop, like its siblings ([PerAttempt]), or as closing a
      [try] around the whole loop ([WholeLoop]).  What is proved about this
      copy is proved for both readings. *)

Inductive finally_scope := PerAttempt | WholeLoop.

Global Instance finally_scope_eq_dec : EqDecision finally_scope.
Proof. solve_decision. Defined.

Record variant := Variant {
  break_after_yield : bool;
  scope : finally_scope
}.

(** Where a generator stands after it was resumed. *)
Inductive gen_result :=
| Yielded (attempt : Z) (rest : list Z)  (* suspended at [yield]; [rest] is what the [for] has left *)
| Returned                               (* ran to its end: [StopIteration] *)
| Raised (e : exn).

Section connector.
Context (st : store) (v : variant).
Context (alias : string) (retries retry_delay : Z).

(** [connections.connect(alias=alias, host=host, port=port)] *)
Definition connect : M (option exn) := λ w,
  let r := connect_result st (n_connect w) in
  (Exn Exception <$> r,
   World (S (n_connect w)) (n_disconnect w)
         (log w ++ [EvConnect alias (bool_decide (r = None))])).

(** [try: connections.disconnect(alias=alias)  except: pass] *)
Definition disconnect_quietly : M unit := λ w,
  let r := disconnect_result st (n_disconnect w) in
  (tt,
   World (n_connect w) (S (n_disconnect w))
         (log w ++ [EvDisconnect alias (bool_decide (r = None))])).

(** The [finally] clause, when control leaves the [try] of one attempt
    and when it leaves the function. *)
Definition finally_attempt : M unit :=
  match scope v with PerAttempt => disconnect_quietly | WholeLoop => mret tt end.

Definition finally_function : M unit :=
  match scope v with PerAttempt => mret tt | WholeLoop => disconnect_quietly end.

Definition failed_to_connect (e : exn) : exn :=
  Exn Exception ("Failed to connect after " +:+ pretty retries +:+ " attempts: " +:+ str e).

Definition retrying (attempt : Z) : string :=
  "Connection attempt " +:+ pretty (attempt + 1) +:+ " failed, retrying in "
    +:+ pretty retry_delay +:+ " seconds...".

(** [except Exception as e: ...] for an exception [e] that reaches the
    [try] of attempt [attempt]; [next_iteration] is the rest of the loop.
    An exception raised in the clause, by [raise] or by [time.sleep],
    leaves the function through the [finally] clause. *)
Definition except_clause (attempt : Z) (e : exn) (next_iteration : M gen_result)
  : M gen_result :=
  if is_Exception e then
    if bool_decide (attempt = retries - 1) then
      finally_attempt ;; finally_function ;; mret (Raised (failed_to_connect e))
    else
      print (retrying attempt) ;;
      slept ← sleep retry_delay ;
      match slept with
      | Some e' => finally_attempt ;; finally_function ;; mret (Raised e')
      | None => finally_attempt ;; next_iteration
      end
  else
    finally_attempt ;; finally_function ;; mret (Raised e).

(** [for attempt in todo: try: connect; yield ...], up to the next
    [yield], the end of the function or an exception. *)
Fixpoint attempts (todo : list Z) : M gen_result :=
  match todo with
  | [] => finally_function ;; mret Returned
  | attempt :: rest =>
      r ← connect ;
      match r with
      | None => mret (Yielded attempt rest)
      | Some e => except_clause attempt e (attempts rest)
      end
  end.

(** [next(gen)] on a generator suspended at the [yield]. *)
Definition resume (attempt : Z) (rest : list Z) : M gen_result :=
  if break_after_yield v then
    finally_attempt ;; finally_function ;; mret Returned
  else
    finally_attempt ;; attempts rest.

(** [gen.throw(e)] on a generator suspended at the [yield]. *)
Definition throw (attempt : Z) (rest : list Z) (e : exn) : M gen_result :=
  except_clause attempt e (attempts rest).

(** [gen.close()] on a generator suspended at the [yield]:
    [GeneratorExit] is not an [Exception], only [finally] runs. *)
Definition close : M unit := finally_attempt ;; finally_function.

(** [__exit__] of the context manager, for a generator suspended at the
    [yield] of attempt [attempt].  [body] is how the body of the [with]
    statement ended: [None] normally, [Some e] by raising [e].  [__exit__]
    calls [next(gen)] in the first case and [gen.throw(e)] in the second,
    and needs the generator to stop: a second [yield] is a [RuntimeError],
    after which the abandoned generator is closed ([__exit__] does it from
    Python 3.12 on, the finalizer of the generator before). *)
Definition cm_exit (body : option exn) (attempt : Z) (rest : list Z) : M outcome :=
  match body with
  | None =>
      r ← resume attempt rest ;
      match r with
      | Returned => mret Normal
      | Raised e => mret (Raise e)
      | Yielded _ _ =>
          close ;; mret (Raise (Exn RuntimeError "generator didn't stop"))
      end
  | Some e =>
      r ← throw attempt rest e ;
      match r with
      | Returned => mret Normal
      | Raised e' => mret (Raise e')
      | Yielded _ _ =>
          close ;; mret (Raise (Exn RuntimeError "generator didn't stop after throw()"))
      end
  end.

(** [with milvus_connection(...): body], as [contextlib] drives the
    generator: [__enter__] calls [next(gen)] and needs a [yield]; the body
    runs, once; [__exit__] follows. *)
Definition with_connection (body : option exn) : M outcome :=
  r ← attempts (range retries) ;
  match r with
  | Returned => mret (Raise (Exn RuntimeError "generator didn't yield"))
  | Raised e => mret (Raise e)
  | Yielded attempt rest => emit EvBody ;; cm_exit body attempt rest
  end.
End connector.

(** ** Queries on the log of a run *)

(** How many times the body of the [with] statement ran. *)
Fixpoint body_runs (l : list event) : nat :=
  match l with
  | [] => 0
  | EvBody :: l' => S (body_runs l')
  | _ :: l' => body_runs l'
  end.

(** The handle of [alias] is open after the events of [l], when it was
    [open] before: a [connect] that returned opens it, a failed one leaves
    it as it was, and every call of [disconnect] counts as its release. *)
Fixpoint leaked (alias : string) (open : bool) (l : list event) : bool :=
  match l with
  | [] => open
  | EvConnect a ok :: l' => leaked alias (if decide (a = alias) then ok || open else open) l'
  | EvDisconnect a _ :: l' => leaked alias (if decide (a = alias) then false else open) l'
  | _ :: l' => leaked alias open l'
  end.

(** Some [connect] on [alias] returned. *)
Fixpoint connected (alias : string) (l : list event) : bool :=
  match l with
  | [] => false
  | EvConnect a true :: l' => bool_decide (a = alias) || connected alias l'
  | _ :: l' => connected alias l'
  end.

(** The connection attempts and the waits of a run, in order. *)
Fixpoint schedule (l : list event) : list event :=
  match l with
  | [] => []
  | EvConnect a ok :: l' => EvConnect a ok :: schedule l'
  | EvSleep d :: l' => EvSleep d :: schedule l'
  | _ :: l' => schedule l'
  end.

(** [n] failed attempts with a wait of [delay] between consecutive ones. *)
Fixpoint failed_attempts (alias : string) (delay : Z) (n : nat) : list event :=
  match n with
  | O => []
  | 1%nat => [EvConnect alias false]
  | S n' => EvConnect alias false :: EvSleep delay :: failed_attempts alias delay n'
  end.

(** ** A [with] statement whose body acts on a state of its own

    [with milvus_connection(...): body], for a body that changes a state
    [s] (what it printed, what it did to the store) and ends normally
    ([None]) or by raising: the body runs when [__enter__] returns, once,
    and not otherwise; how it ended is what [__exit__] is given. *)
Definition with_connection_do {S : Type} (st : store) (v : variant) (alias : string)
    (retries retry_delay : Z) (body : S → option exn * S) (s : S) : M (outcome * S) :=
  r ← attempts st v alias retries retry_delay (range retries) ;
  match r with
  | Returned => mret (Raise (Exn RuntimeError "generator didn't yield"), s)
  | Raised e => mret (Raise e, s)
  | Yielded attempt rest =>
      emit EvBody ;;
      ended ← cm_exit st v alias retries retry_delay (body s).1 attempt rest ;
      mret (ended, (body s).2)
  end.

(** ** index.py *)
Module Index.

(** [milvus_connection(alias="default", host, port, retries=3, retry_delay=5)] *)
Definition milvus_connection (st : store) (alias : string) (retries retry_delay : Z)
    (body : option exn) : M outcome :=
  with_connection st (Variant false PerAttempt) alias retries retry_delay body.

(** The [index_params] dictionary. *)
Record IndexSpec := {
  index_type : string;
  metric_type : string;
  params : list (string * Z)
}.

Global Instance IndexSpec_eq_dec : EqDecision IndexSpec.
Proof. solve_decision. Defined.

Definition default_index_params : IndexSpec :=
  {| index_type := "IVF_FLAT"; metric_type := "COSINE"; params := [("nlist"%string, 768)] |}.

(** [repr] of the dictionary, as the f-string prints it. *)
Definition repr_params (ps : list (string * Z)) : string :=
  "{" +:+ String.concat ", " ((λ p, "'" +:+ p.1 +:+ "': " +:+ pretty p.2) <$> ps) +:+ "}".

Definition repr (spec : IndexSpec) : string :=
  "{'index_type': '" +:+ index_type spec +:+ "', 'metric_type': '" +:+ metric_type spec
    +:+ "', 'params': " +:+ repr_params (params spec) +:+ "}".

(** Modelled from the spec: the collection of the remote store, which
    pymilvus keeps and the repository only calls.  Sections 3 and 4.4: a
    collection has at most one index and is loaded into memory or not. *)
Record collection := Collection {
  loaded : bool;
  index : option IndexSpec
}.

Global Instance collection_eq_dec : EqDecision collection.
Proof. solve_decision. Defined.

(** The calls [replace_index] makes to the store. *)
Inductive call :=
| Open          (* [Collection(collection_name)] *)
| IsLoaded      (* [collection.is_loaded()], which pymilvus' [Collection] does not have *)
| Release       (* [collection.release()] *)
| HasIndex      (* [collection.has_index()] *)
| DropIndex     (* [collection.drop_index()] *)
| CreateIndex   (* [collection.create_index(field_name="vector", index_params=...)] *)
| Load.         (* [collection.load()] *)

Global Instance call_eq_dec : EqDecision call.
Proof. solve_decision. Defined.

(** The four steps of the index lifecycle (the other calls only read). *)
Definition is_step (c : call) : bool :=
  match c with Release | DropIndex | CreateIndex | Load => true | _ => false end.

(** A fault plan: the calls that fail, with the message of the
    exception. *)
Definition faults : Type := call → option string.
Definition no_faults : faults := λ _, None.

(** pymilvus' [Collection] has no method [is_loaded] (the state of a
    collection is read with [utility.load_state]): with the real client
    the call of line 38 raises [AttributeError], whatever the store does.
    [real_client plan] is the plan of a run with that client, against a
    store that fails the other calls as [plan] says. *)
Definition no_is_loaded : string := "'Collection' object has no attribute 'is_loaded'".

Definition real_client (plan : faults) : faults :=
  λ c, match c with IsLoaded => Some no_is_loaded | _ => plan c end.

Record cworld := CWorld {
  coll : collection;
  calls : list call;      (* the calls made, oldest first *)
  out : list string       (* the lines printed, oldest first *)
}.

Definition start (c : collection) : cworld := CWorld c [] [].

(** State and exceptions. *)
Inductive res (A : Type) :=
| Ok (a : A)
| Err (e : exn).
Arguments Ok {A} a.
Arguments Err {A} e.

Definition E (A : Type) : Type := cworld → res A * cworld.

Global Instance E_ret : MRet E := λ A (a : A) w, (Ok a, w).
Global Instance E_bind : MBind E := λ A B (f : A → E B) (m : E A) w,
  match m w with
  | (Ok a, w') => f a w'
  | (Err e, w') => (Err e, w')
  end.

Definition say (line : string) : E unit :=
  λ w, (Ok tt, CWorld (coll w) (calls w) (out w ++ [line])).

(** Modelled from the spec: what a call that the store accepts does to the
    collection (pymilvus, not in the repository).  Section 4.4: release
    unloads, drop removes the index, create puts the given index in place,
    load brings the collection into memory; the other calls only read. *)
Definition effect (spec : IndexSpec) (c : call) (s : collection) : collection :=
  match c with
  | Release => Collection false (index s)
  | DropIndex => Collection (loaded s) None
  | CreateIndex => Collection (loaded s) (Some spec)
  | Load => Collection true (index s)
  | Open | IsLoaded | HasIndex => s
  end.

Section replace_index.
Context (plan : faults).

(** A call to the store: it is recorded, then fails as the plan says or
    takes effect and answers with [read] of the collection. *)
Definition rpc {A} (spec : IndexSpec) (c : call) (read : collection → A) : E A := λ w,
  match plan c with
  | Some msg => (Err (Exn Exception msg), CWorld (coll w) (calls w ++ [c]) (out w))
  | None => (Ok (read (effect spec c (coll w))),
             CWorld (effect spec c (coll w)) (calls w ++ [c]) (out w))
  end.

(** The [try] block of [replace_index]. *)
Definition replace_index_try (spec : IndexSpec) : E unit :=
  rpc spec Open (λ _, tt) ;;
  is_loaded ← rpc spec IsLoaded loaded ;
  (if is_loaded : bool then
     say "Releasing collection from memory..." ;;
     rpc spec Release (λ _, tt)
   else mret tt) ;;
  has_index ← rpc spec HasIndex (λ s, bool_decide (index s ≠ None)) ;
  (if has_index : bool then
     say "Dropping existing index..." ;;
     rpc spec DropIndex (λ _, tt) ;;
     say "Existing index dropped successfully"
   else mret tt) ;;
  say ("Creating new index with parameters: " +:+ repr spec) ;;
  rpc spec CreateIndex (λ _, tt) ;;
  say "New index created successfully" ;;
  say "Loading collection into memory..." ;;
  rpc spec Load (λ _, tt) ;;
  say "Collection loaded successfully".

(** [replace_index(collection_name, index_params=None)]: [True] when
    the [try] block ends, [False] from the [except Exception] clause
    (what the store raises is an [Exception]). *)
Definition replace_index (collection_name : string) (index_params : option IndexSpec)
    (w : cworld) : bool * cworld :=
  let spec := default default_index_params index_params in
  match replace_index_try spec w with
  | (Ok _, w') => (true, w')
  | (Err e, w') =>
      (false, CWorld (coll w') (calls w')
                     (out w' ++ ["Error during index replacement: " +:+ str e]))
  end.
End replace_index.


(** [custom_index_params] of [main]. *)
Definition custom_index_params : IndexSpec :=
  {| index_type := "IVF_FLAT"; metric_type := "COSINE"; params := [("nlist"%string, 768)] |}.

Definition raise {A} (e : exn) : E A := λ w, (Err e, w).

Section main.
(** The store of the connection; what [utility.has_collection("SOICT")]
    answers or raises; the fault plan of the collection calls; and
    [f"{duration:.2f}"], as the clock has it. *)
Context (st : store) (has_collection : res bool) (plan : faults) (duration : string).

(** The body of the [with] statement of [main].  [print(f"\n...")] prints
    an empty line before the text. *)
Definition main_body : E unit :=
  found ← (λ w, (has_collection, w)) ;
  if negb found then raise (Exn Exception "Collection 'SOICT' does not exist")
  else
    say "Starting index replacement for collection 'SOICT'" ;;
    success ← (λ w, let (success, w') := replace_index plan "SOICT" (Some custom_index_params) w
                    in (Ok success, w')) ;
    if success : bool then
      say "" ;; say "Index replacement completed successfully" ;;
      say ("Time taken: " +:+ duration +:+ " seconds")
    else
      say "" ;; say "Index replacement failed".

(** [main()], for a collection in state [s]: how it ends, with the lines
    that [main] and [replace_index] printed and the calls made to the
    collection (the lines of the connector are in the log of the
    connection). *)
Definition main (s : collection) : M (outcome * cworld) :=
  let w0 := (say "Connecting to Milvus server at localhost:19530" (start s)).2 in
  r ← with_connection_do st (Variant false PerAttempt) "default" 3 5
        (λ w, match main_body w with
              | (Ok _, w') => (None, w')
              | (Err e, w') => (Some e, w')
              end) w0 ;
  match r.1 with
  | Normal => mret r
  | Raise e =>
      if is_Exception e
      then mret (Raise e, (say ("Error in main process: " +:+ str e) r.2).2)
      else mret r
  end.
End main.

End Index.

(** ** query.py *)
Module Query.

(** [milvus_connection(alias="default", host, port, retries=3, retry_delay=5)] *)
Definition milvus_connection (st : store) (alias : string) (retries retry_delay : Z)
    (body : option exn) : M outcome :=
  with_connection st (Variant false PerAttempt) alias retries retry_delay body.

(** A row of [corpus_df], with the two columns the search reads:
    ["chunk_id"] and ["cid"]. *)
Record row := Row {
  chunk_id : Z;
  row_cid : Z
}.

Section perform_search.
(** Embeddings and similarity scores are floating-point data that the
    script only passes along. *)
Context {vector score : Type}.

(** A hit of the store: [hit.id], [hit.distance]. *)
Record hit := Hit {
  id : Z;
  distance : score
}.

(** The dictionary built for one query.  ["cid"] is [list(set(...))],
    a list in the iteration order of a Python set, which the language
    leaves open: the set is kept. *)
Record search_result := SearchResult {
  qid : Z;
  cid : gset Z;
  cosine : list score
}.

(** [collection.search(data=batch, ..., limit=top_k)] of the mock store:
    the hit lists it answers for a batch of query vectors. *)
Context (search : list vector → Z → list (list hit)).

(** The body of [for j, result in enumerate(results)]. *)
Definition aggregate (corpus_df : list row) (i : Z) (j : nat) (result : list hit)
  : search_result :=
  let list_index := (λ h, (id h, distance h)) <$> result in
  let chunk_ids := fst <$> list_index in
  let corpus_cid : gset Z :=
    list_to_set (row_cid <$> filter (λ r, chunk_id r ∈ chunk_ids) corpus_df) in
  {| qid := i + Z.of_nat j;
     cid := corpus_cid;
     cosine := snd <$> list_index |}.

(** [perform_search(collection, question_embedding, corpus_df, top_k=50,
    batch_size=100)] against a store that answers every call of
    [collection.search] ([perform_search_rpc] below has the calls that
    raise); [None] is the [ValueError] of [range]. *)
Definition perform_search (question_embedding : list vector) (corpus_df : list row)
    (top_k batch_size : Z) : option (list search_result) :=
  match py_range 0 (len question_embedding) batch_size with
  | None => None
  | Some starts =>
      Some (foldl (λ qid_cid i,
                     let batch_embeddings := slice question_embedding i (i + batch_size) in
                     let results := search batch_embeddings top_k in
                     qid_cid ++ imap (aggregate corpus_df i) results)
                  [] starts)
  end.

(** The parent ids of one chunk id in the mapping table. *)
Definition parent_mapping (corpus_df : list row) (c : Z) : gset Z :=
  list_to_set (row_cid <$> filter (λ r, chunk_id r = c) corpus_df).
End perform_search.

Section perform_search_rpc.
Context {vector score : Type}.

(** [collection.search(data=batch, ..., limit=top_k)] as a call that can
    fail: the hit lists that the store answers, or the exception that the
    call raises. *)
Context (search : list vector → Z → exn + list (list (@hit score))).

(** The loop of [perform_search] over the offsets [starts], from the
    results [qid_cid] gathered and the batches [calls] submitted so far.
    The call is not guarded: an exception of [collection.search] leaves
    the loop and the function, and no later batch is submitted. *)
Fixpoint search_loop (question_embedding : list vector) (corpus_df : list row)
    (top_k batch_size : Z) (starts : list Z)
    (qid_cid : list (@search_result score)) (calls : list (list vector))
  : (exn + list (@search_result score)) * list (list vector) :=
  match starts with
  | [] => (inr qid_cid, calls)
  | i :: rest =>
      let batch_embeddings := slice question_embedding i (i + batch_size) in
      match search batch_embeddings top_k with
      | inl e => (inl e, calls ++ [batch_embeddings])
      | inr results =>
          search_loop question_embedding corpus_df top_k batch_size rest
            (qid_cid ++ imap (aggregate corpus_df i) results)
            (calls ++ [batch_embeddings])
      end
  end.

(** [perform_search(collection, question_embedding, corpus_df, top_k,
    batch_size)] against such a store: what it returns or raises, and the
    batches it has submitted to [collection.search], oldest first. *)
Definition perform_search_rpc (question_embedding : list vector) (corpus_df : list row)
    (top_k batch_size : Z)
  : (exn + list (@search_result score)) * list (list vector) :=
  match py_range 0 (len question_embedding) batch_size with
  | None => (inl (Exn Exception "range() arg 3 must not be zero"), [])
  | Some starts => search_loop question_embedding corpus_df top_k batch_size starts [] []
  end.
End perform_search_rpc.

Section main.
Context {vector score : Type}.

(** What [main] leaves behind: the lines it printed, and the list that a
    [json.dump] that returned has written to [output_file]. *)
Record qworld := QWorld {
  out : list string;
  saved : option (list (@search_result score))
}.

Definition say (line : string) (w : qworld) : qworld := QWorld (out w ++ [line]) (saved w).

(** The world outside the script: the store of the connection; what
    [collection.search] answers or raises; what [np.load] and
    [pd.read_csv] give or raise; and what [Collection(collection_name)],
    [collection.load()] and the writing of the output file ([open] and
    [json.dump]) raise, if anything. *)
Context (st : store) (search : list vector → Z → exn + list (list (@hit score))).
Context (np_load : exn + list vector) (read_csv : exn + list row).
Context (open_collection load write : option exn).

(** The body of the [with] statement of [main]. *)
Definition main_body (question_embedding : list vector) (corpus_df : list row)
    (w : qworld) : option exn * qworld :=
  let w := say "Connected to Milvus successfully" w in
  match open_collection with
  | Some e => (Some e, w)
  | None =>
      let w := say "Loading collection..." w in
      match load with
      | Some e => (Some e, w)
      | None =>
          let w := say ("Performing search for " +:+ pretty (len question_embedding)
                          +:+ " queries...") w in
          match (perform_search_rpc search question_embedding corpus_df 50 100).1 with
          | inl e => (Some e, w)
          | inr qid_cid =>
              let w := say "Saving results to ./search_results.json..." w in
              match write with
              | Some e => (Some e, w)
              | None =>
                  let w := QWorld (out w) (Some qid_cid) in
                  let w := say "" w in
                  (None, say ("Total queries processed: " +:+ pretty (len qid_cid)) w)
              end
          end
      end
  end.

(** [except Exception as e: print(f"Error: {str(e)}"); raise] *)
Definition main_except (r : outcome * qworld) : outcome * qworld :=
  match r.1 with
  | Normal => r
  | Raise e => if is_Exception e then (Raise e, say ("Error: " +:+ str e) r.2) else r
  end.

(** [main()] *)
Definition main : M (outcome * qworld) :=
  let w := say "Loading data..." (QWorld [] None) in
  match np_load with
  | inl e => mret (main_except (Raise e, w))
  | inr question_embedding =>
      match read_csv with
      | inl e => mret (main_except (Raise e, w))
      | inr corpus_df =>
          r ← with_connection_do st (Variant false PerAttempt) "default" 3 5
                (main_body question_embedding corpus_df) w ;
          mret (main_except r)
      end
  end.
End main.

End Query.

(** ** db_insertion.py *)
Module DbInsertion.

(** [milvus_connection(alias, host, port, retries=3, retry_delay=5)],
    under the reading [sc] of its [finally] clause. *)
Definition milvus_connection (st : store) (sc : finally_scope) (alias : string)
    (retries retry_delay : Z) (body : option exn) : M outcome :=
  with_connection st (Variant true sc) alias retries retry_delay body.

Section batches.
Context {vector : Type}.

(** The tuple [(name, start_idx, end_idx, batch_ids, batch_embeddings)]. *)
Record batch := Batch {
  name : string;
  start_idx : Z;
  end_idx : Z;
  batch_ids : list Z;
  batch_embeddings : list vector
}.

(** "Prepare batches" of [main], for any [batch_size] ([main] fixes
    1000); [None] is the [ValueError] of [range]. *)
Definition make_batches (name : string) (chunk_id : list Z)
    (corpus_embedding : list vector) (batch_size : Z) : option (list batch) :=
  let total_size := len chunk_id in
  match py_range 0 total_size batch_size with
  | None => None
  | Some starts =>
      Some ((λ start_idx,
               let end_idx := Z.min (start_idx + batch_size) total_size in
               Batch name start_idx end_idx
                     (slice chunk_id start_idx end_idx)
                     (slice corpus_embedding start_idx end_idx)) <$> starts)
  end.

(** What a call of a worker function comes to. *)
Inductive returned :=
| Return (success : bool) (error : option string)
| ReturnNone                  (* control fell off the end of the function *)
| Propagate (e : exn).

(** [insert_batch(args)] against the store [st] of its own connection;
    [insert] is what [Collection(name)] and [collection.insert(...)] do:
    [None] when they return, [Some e] when one of them raises [e]. *)
Definition insert_batch (st : store) (sc : finally_scope) (insert : option exn)
    (args : batch) : returned :=
  let connection_alias := "worker_" +:+ pretty (start_idx args) in
  match (milvus_connection st sc connection_alias 3 5 insert init).1 with
  | Normal =>
      match insert with
      | None => Return true None
      | Some _ => ReturnNone
      end
  | Raise e =>
      if is_Exception e then
        Return false (Some ("Error inserting batch " +:+ pretty (start_idx args) +:+ ":"
                              +:+ pretty (end_idx args) +:+ ": " +:+ str e))
      else Propagate e
  end.
End batches.

(** [success_count = sum(1 for success, _ in results if success)] *)
Definition success_count (results : list (bool * option string)) : Z :=
  len (filter (λ r, r.1 = true) results).

(** [print(error)] *)
Definition print_error (error : option string) : string := default "None"%string error.

(** The lines of the loop [for success, error in results: if not success:
    print(error)]. *)
Definition failed_lines (results : list (bool * option string)) : list string :=
  (λ r, print_error r.2) <$> filter (λ r, r.1 = false) results.

(** "Check results" of [main]: the lines printed and how the block ends,
    for the [results] of the pool and [n_batches = len(batches)]. *)
Definition check_results (results : list (bool * option string)) (n_batches : Z)
    : list string * outcome :=
  let summary := "Inserted " +:+ pretty (success_count results) +:+ "/"
                   +:+ pretty n_batches +:+ " batches successfully" in
  if decide (success_count results < n_batches) then
    ([summary; "Failed batches:"%string] ++ failed_lines results,
     Raise (Exn Exception "Some batches failed to insert"))
  else ([summary], Normal).

(** What the insertion phase of [main] comes to. *)
Inductive inserted :=
| RangeError                                  (* [range] refused [batch_size] *)
| Checked (results : list (bool * option string)) (printed : list string) (end_ : outcome).

(** From "Prepare batches" to "Check results": [pool.map(worker, batches)]
    gives the workers' answers in the order of the batches. *)
Definition insert_all {vector : Type} (worker : @batch vector → bool * option string)
    (name : string) (chunk_id : list Z) (corpus_embedding : list vector) (batch_size : Z)
    : inserted :=
  match make_batches name chunk_id corpus_embedding batch_size with
  | None => RangeError
  | Some batches =>
      let results := worker <$> batches in
      let (printed, end_) := check_results results (len batches) in
      Checked results printed end_
  end.

Section load_data.
(** The file system, the [csv] module and Python's [int] are outside the
    repository: [open_ file_path] is what [open(file_path, 'r')] and
    [csv.reader] make of a path, the message of the [OSError] or the rows
    of the file, and [int_ field] is [int(field)], the number or the
    message of the [ValueError]. *)
Context (open_ : string → string + list (list string)).
Context (int_ : string → string + Z).

(** [int(row[2])] *)
Definition third_as_int (row : list string) : string + Z :=
  match row !! 2%nat with
  | None => inl "list index out of range"%string
  | Some field => int_ field
  end.

(** [[int(row[2]) for row in reader]]: the first row that fails ends the
    comprehension. *)
Fixpoint comprehension (rows : list (list string)) : string + list Z :=
  match rows with
  | [] => inr []
  | row :: rows' =>
      match third_as_int row with
      | inl msg => inl msg
      | inr id =>
          match comprehension rows' with
          | inl msg => inl msg
          | inr ids => inr (id :: ids)
          end
      end
  end.

(** [load_data(file_path)]: the ids, or the exception of the [except]
    clause.  [next(reader)] on a file without a line raises
    [StopIteration], whose [str] is empty. *)
Definition load_data (file_path : string) : exn + list Z :=
  let tried :=
    match open_ file_path with
    | inl msg => inl msg
    | inr [] => inl ""%string
    | inr (header :: rows) => comprehension rows
    end in
  match tried with
  | inl msg =>
      inl (Exn Exception ("Error loading data from " +:+ file_path +:+ ": " +:+ msg))
  | inr ids => inr ids
  end.
End load_data.

(** *** [main]

    The calls that [main] makes to the store on its own connection. *)
Inductive call :=
| HasCollection     (* [utility.has_collection(name)] *)
| DropCollection    (* [utility.drop_collection(name)] *)
| CreateCollection  (* [Collection(name=name, schema=schema)] of [create_collection] *)
| HasIndex          (* [collection.has_index()] *)
| Release           (* [collection.release()] *)
| DropIndex         (* [collection.drop_index()] *)
| CreateIndex       (* [collection.create_index(field_name="vector", index_params=...)] *)
| Load.             (* [collection.load()] *)

Global Instance call_eq_dec : EqDecision call.
Proof. solve_decision. Defined.

(** What the main process leaves behind: the calls it made to the store,
    oldest first, and the lines it printed (the workers print theirs in
    their own processes). *)
Record mworld := MWorld {
  calls : list call;
  out : list string
}.

(** State and exceptions. *)
Definition D (A : Type) : Type := mworld → (exn + A) * mworld.

Global Instance D_ret : MRet D := λ A (a : A) w, (inr a, w).
Global Instance D_bind : MBind D := λ A B (f : A → D B) (m : D A) w,
  match m w with
  | (inr a, w') => f a w'
  | (inl e, w') => (inl e, w')
  end.

Definition say (line : string) : D unit :=
  λ w, (inr tt, MWorld (calls w) (out w ++ [line])).

Definition raise {A} (e : exn) : D A := λ w, (inl e, w).

(** What [pool.map] makes of the answer of a worker: a pair goes into the
    results; an exception of the worker is raised in the parent; and a
    [None] among the results fails the unpacking of [for success, _ in
    results], the first statement after the pool. *)
Definition answer (r : returned) : exn + bool * option string :=
  match r with
  | Return success error => inr (success, error)
  | ReturnNone => inl (Exn Exception "cannot unpack non-iterable NoneType object")
  | Propagate e => inl e
  end.

Fixpoint gather (answers : list (exn + bool * option string))
  : exn + list (bool * option string) :=
  match answers with
  | [] => inr []
  | inl e :: _ => inl e
  | inr r :: rest =>
      match gather rest with
      | inl e => inl e
      | inr results => inr (r :: results)
      end
  end.

Section main.
Context {vector : Type}.
(** The world outside the script: the store of the main connection and
    the reading of the [finally] clause of the connector; what [np.load]
    gives or raises; the file system and [int] of [load_data]; the calls
    of the main process that the store fails, with the message, and what
    it answers to [has_collection] and [has_index]; [cpu_count()]; and,
    for every batch, the store of the connection of its worker and what
    its insertion raises, if anything. *)
Context (st : store) (sc : finally_scope).
Context (np_load : exn + list vector).
Context (open_ : string → string + list (list string)) (int_ : string → string + Z).
Context (plan : call → option string) (has_collection has_index : bool).
Context (cpu_count : Z).
Context (workers : @batch vector → store * option exn).

(** A call to the store: it is recorded, then fails as the plan says or
    answers. *)
Definition rpc {A} (c : call) (answer : A) : D A := λ w,
  match plan c with
  | Some msg => (inl (Exn Exception msg), MWorld (calls w ++ [c]) (out w))
  | None => (inr answer, MWorld (calls w ++ [c]) (out w))
  end.

(** [create_collection(name)]: the fields and the schema are built in the
    client; [Collection(name=name, schema=schema)] is the call. *)
Definition create_collection : D unit := rpc CreateCollection tt.

(** [pool.map(insert_batch, batches)], in the order of the batches.
    [Pool(processes=n)] refuses [n < 1]. *)
Definition pool_map (n_processes : Z) (batches : list batch)
  : D (list (bool * option string)) :=
  if decide (n_processes < 1)
  then raise (Exn Exception "Number of processes must be at least 1")
  else λ w, (gather ((λ b, answer (insert_batch (workers b).1 sc (workers b).2 b))
                       <$> batches), w).

(** [for line in lines: print(line)] *)
Definition say_all (lines : list string) : D unit :=
  λ w, (inr tt, MWorld (calls w) (out w ++ lines)).

(** The body of the [with] statement of [main]. *)
Definition main_body (chunk_id : list Z) (corpus_embedding : list vector) : D unit :=
  found ← rpc HasCollection has_collection ;
  (if negb found then
     say "Creating new collection 'SOICT'..." ;;
     create_collection
   else
     say "Collection 'SOICT' exists, recreating for fresh start..." ;;
     rpc DropCollection tt ;;
     create_collection) ;;
  let batch_size := 1000 in
  let n_processes := 4 `min` cpu_count in
  match make_batches "SOICT" chunk_id corpus_embedding batch_size with
  | None => raise (Exn Exception "range() arg 3 must not be zero")
  | Some batches =>
      say ("Starting parallel insertion with " +:+ pretty n_processes +:+ " processes...") ;;
      results ← pool_map n_processes batches ;
      say_all (check_results results (len batches)).1 ;;
      match (check_results results (len batches)).2 with
      | Raise e => raise e
      | Normal =>
          say "Creating index..." ;;
          has ← rpc HasIndex has_index ;
          (if has : bool then
             say "Dropping existing index..." ;;
             rpc Release tt ;;
             rpc DropIndex tt
           else mret tt) ;;
          rpc CreateIndex tt ;;
          say "Index created successfully!" ;;
          rpc Load tt ;;
          say "Collection loaded successfully!"
      end
  end.

(** [except Exception as e: print(f"Error in main process: {str(e)}"); raise] *)
Definition main_except (r : outcome * mworld) : outcome * mworld :=
  match r.1 with
  | Normal => r
  | Raise e =>
      if is_Exception e
      then (Raise e, MWorld (calls r.2) (out r.2 ++ ["Error in main process: " +:+ str e]))
      else r
  end.

(** [main()] *)
Definition main : M (outcome * mworld) :=
  let w := MWorld [] ["Loading data..."%string] in
  match np_load with
  | inl e => mret (main_except (Raise e, w))
  | inr corpus_embedding =>
      match load_data open_ int_ "./data/chunked_corpus_lite.csv" with
      | inl e => mret (main_except (Raise e, w))
      | inr chunk_id =>
          r ← with_connection_do st (Variant true sc) "default" 3 5
                (λ w, match main_body chunk_id corpus_embedding w with
                      | (inr _, w') => (None, w')
                      | (inl e, w') => (Some e, w')
                      end) w ;
          mret (main_except r)
      end
  end.
End main.

End DbInsertion.

(** ** Notions used to state the facts *)

(** A generator that stopped, by returning or by raising, has released
    the handle of [alias]. *)
Definition stopped_released (alias : string) (r : gen_result * world) : Prop :=
  match r with
  | (Yielded _ _, _) => True
  | (_, w') => leaked alias false (log w') = false
  end.

(** Two runs agree on what they come to and on the calls of [connect]. *)
Definition agree {A} (r r' : A * world) : Prop :=
  r.1 = r'.1 ∧ n_connect r.2 = n_connect r'.2.

(** The body of the [with] statement ran once, right after the first
    [connect] that returned. *)
Definition ran_once_on_first_success (alias : string) (l : list event) : Prop :=
  body_runs l = 1%nat ∧
  ∃ pre post, l = pre ++ EvConnect alias true :: EvBody :: post ∧
              EvConnect alias true ∉ pre.

(** A store whose every [connect] returns, and one that rejects them all. *)
Definition accepting : store := Store (λ _, None) (λ _, None).
Definition rejecting : store := Store (λ _, Some "refused"%string) (λ _, None).

(** The k-th batch that [main] prepares. *)
Definition nth_batch {vector : Type} (name : string) (chunk_id : list Z)
    (corpus_embedding : list vector) (batch_size : Z) (k : nat)
  : @DbInsertion.batch vector :=
  let start_idx := Z.of_nat k * batch_size in
  let end_idx := (start_idx + batch_size) `min` len chunk_id in
  DbInsertion.Batch name start_idx end_idx
    (slice chunk_id start_idx end_idx) (slice corpus_embedding start_idx end_idx).

(** The worker of the scenario of the specification: the batch that starts
    at [failing] fails, the others succeed. *)
Definition fails_at (failing : Z) (b : @DbInsertion.batch string) : bool * option string :=
  if decide (DbInsertion.start_idx b = failing)
  then (false, Some ("Error inserting batch " +:+ pretty (DbInsertion.start_idx b) +:+ ":"
                       +:+ pretty (DbInsertion.end_idx b) +:+ ": boom"))
  else (true, None).

(** The calls of a run of [replace_index] that meets no fault, for a
    collection in state [s]. *)
Definition ideal_calls (s : Index.collection) : list Index.call :=
  [Index.Open; Index.IsLoaded] ++ (if Index.loaded s then [Index.Release] else [])
    ++ [Index.HasIndex]
    ++ (if bool_decide (Index.index s ≠ None) then [Index.DropIndex] else [])
    ++ [Index.CreateIndex; Index.Load].

(** A plan with a single fault. *)
Definition fails_only (c : Index.call) (msg : string) : Index.faults :=
  λ c', if decide (c' = c) then Some msg else None.

(** A store that finds nothing: one empty hit list per query vector. *)
Definition no_hits (batch : list string) (top_k : Z) : list (list (@Query.hit Z)) :=
  (λ _, []) <$> batch.

(** The calls of [collection.search] that [perform_search] makes for a
    positive batch size: the offset and the batch of each. *)
Definition submitted {vector : Type} (question_embedding : list vector) (batch_size : Z)
  : list (Z * list vector) :=
  (λ k : nat, let i := Z.of_nat k * batch_size in
              (i, slice question_embedding i (i + batch_size)))
    <$> seq 0 (range_len 0 (len question_embedding) batch_size).

(** The calls of [main] of db_insertion.py to the store before the
    insertion, for the answer [found] of [has_collection], and after it,
    for the answer [has] of [has_index]. *)
Definition setup_calls (found : bool) : list DbInsertion.call :=
  [DbInsertion.HasCollection]
    ++ (if found then [DbInsertion.DropCollection] else [])
    ++ [DbInsertion.CreateCollection].

Definition index_calls (has : bool) : list DbInsertion.call :=
  [DbInsertion.HasIndex]
    ++ (if has then [DbInsertion.Release; DbInsertion.DropIndex] else [])
    ++ [DbInsertion.CreateIndex; DbInsertion.Load].

(** The calls of [time.sleep] that returned, in a log. *)
Fixpoint waits (l : list event) : nat :=
  match l with
  | [] => 0
  | EvSleep _ :: l' => S (waits l')
  | _ :: l' => waits l'
  end.

(** * Facts *)

(** ** The connector *)

Lemma body_runs_app l l' : body_runs (l ++ l') = (body_runs l + body_runs l')%nat.
Proof. induction l as [|[] l IH]; simpl; by rewrite ?IH. Qed.

Lemma leaked_app alias o l l' :
  leaked alias o (l ++ l') = leaked alias (leaked alias o l) l'.
Proof.
  revert o. induction l as [|ev l IH]; intros o; [done|].
  destruct ev; simpl; by rewrite IH.
Qed.

Lemma schedule_app l l' : schedule (l ++ l') = schedule l ++ schedule l'.
Proof. induction l as [|[] l IH]; simpl; by rewrite ?IH. Qed.

Lemma connected_app alias l l' :
  connected alias (l ++ l') = connected alias l || connected alias l'.
Proof.
  induction l as [|[? []| | | |] l IH]; simpl; rewrite ?IH; try done.
  by rewrite orb_assoc.
Qed.

Lemma connected_elem_of alias l : connected alias l = true ↔ EvConnect alias true ∈ l.
Proof.
  induction l as [|ev l IH]; simpl.
  - rewrite elem_of_nil. split; [done|tauto].
  - rewrite elem_of_cons, <- IH. destruct ev as [a []| | | |]; simpl;
      rewrite ?orb_true_iff, ?bool_decide_eq_true; naive_solver.
Qed.

Ltac unfold_M :=
  unfold cm_exit in *;
  unfold throw, resume, close in *;
  unfold except_clause in *;
  unfold finally_attempt, finally_function in *;
  unfold disconnect_quietly, connect, print, sleep in *;
  unfold emit, mbind, M_bind, mret, M_ret in *.

Ltac unfold_exit := unfold cm_exit, mbind, M_bind in *.

Section connector_facts.
Context (st : store) (v : variant) (alias : string) (retries retry_delay : Z).

Local Abbreviation attempts := (attempts st v alias retries retry_delay).
Local Abbreviation except_clause := (except_clause st v alias retries retry_delay).
Local Abbreviation resume := (resume st v alias retries retry_delay).
Local Abbreviation throw := (throw st v alias retries retry_delay).
Local Abbreviation close := (close st v alias).
Local Abbreviation cm_exit := (cm_exit st v alias retries retry_delay).
Local Abbreviation with_connection := (with_connection st v alias retries retry_delay).

Lemma seqZ_S a (n : nat) : seqZ a (Z.of_nat (S n)) = a :: seqZ (a + 1) (Z.of_nat n).
Proof.
  rewrite seqZ_cons by lia. f_equal. f_equal; lia.
Qed.

(** The generator never runs the body of the [with] statement. *)
Lemma attempts_body_runs todo w :
  body_runs (log (attempts todo w).2) = body_runs (log w).
Proof.
  revert w. induction todo as [|a rest IH]; intros w; simpl; unfold_M.
  - destruct (scope v); simpl; [done|]. by rewrite body_runs_app, Nat.add_0_r.
  - destruct (connect_result st (n_connect w)) as [msg|]; simpl.
    + case_bool_decide; [|destruct (decide (retry_delay < 0))];
        destruct (scope v); simpl;
        rewrite ?IH; simpl; rewrite ?body_runs_app; simpl; lia.
    + by rewrite body_runs_app, Nat.add_0_r.
Qed.

(** One failed attempt that is not the last: message, wait, and the
    [finally] clause of the attempt; the loop goes on. *)
Lemma attempts_retry a (n : nat) w :
  0 ≤ retry_delay →
  a ≠ retries - 1 →
  connect_result st (n_connect w) ≠ None →
  ∃ w' pre,
    attempts (seqZ a (Z.of_nat (S n))) w = attempts (seqZ (a + 1) (Z.of_nat n)) w' ∧
    n_connect w' = S (n_connect w) ∧
    log w' = log w ++ pre ∧
    body_runs pre = 0%nat ∧
    schedule pre = [EvConnect alias false; EvSleep retry_delay] ∧
    (∀ o, leaked alias o pre = if decide (scope v = PerAttempt) then false else o).
Proof.
  intros Hdelay Hlast Hfail. rewrite seqZ_S. simpl. unfold_M.
  destruct (connect_result st (n_connect w)) as [msg|] eqn:Hc; [|done]. simpl.
  rewrite bool_decide_eq_false_2 by done. rewrite decide_False by lia.
  destruct (scope v) eqn:Hs; simpl.
  - eexists _, _. split; [reflexivity|]. simpl. split; [done|].
    split; [by rewrite <- !(assoc_L (++)) |]. simpl.
    repeat split; try done. intros o. by repeat case_decide.
  - eexists _, _. split; [reflexivity|]. simpl. split; [done|].
    split; [by rewrite <- !(assoc_L (++)) |]. simpl.
    repeat split; try done. intros o. by repeat case_decide.
Qed.

(** [k] failed attempts, none of them the last. *)
Lemma attempts_failed_prefix (k : nat) : ∀ (a : Z) (n : nat) w,
  0 ≤ retry_delay →
  a + Z.of_nat n = retries →
  (k < n)%nat →
  (∀ j, (j < k)%nat → connect_result st (n_connect w + j) ≠ None) →
  ∃ w' pre,
    attempts (seqZ a (Z.of_nat n)) w
      = attempts (seqZ (a + Z.of_nat k) (Z.of_nat (n - k))) w' ∧
    n_connect w' = (n_connect w + k)%nat ∧
    log w' = log w ++ pre ∧
    body_runs pre = 0%nat ∧
    schedule pre = mjoin (replicate k [EvConnect alias false; EvSleep retry_delay]) ∧
    (∀ o, leaked alias o pre
          = if decide (scope v = PerAttempt ∧ k ≠ 0%nat) then false else o).
Proof.
  induction k as [|k IH]; intros a n w Hdelay Hn Hk Hfail.
  - exists w, []. rewrite Z.add_0_r, Nat.sub_0_r, Nat.add_0_r, app_nil_r.
    repeat split; try done. intros o. case_decide; naive_solver.
  - destruct n as [|n]; [lia|].
    destruct (attempts_retry a n w)
      as (w1 & pre1 & Hrun1 & Hn1 & Hlog1 & Hb1 & Hs1 & Hl1); [done|lia| |].
    { specialize (Hfail 0%nat). rewrite Nat.add_0_r in Hfail. apply Hfail. lia. }
    destruct (IH (a + 1) n w1)
      as (w2 & pre2 & Hrun2 & Hn2 & Hlog2 & Hb2 & Hs2 & Hl2); [done|lia|lia| |].
    { intros j Hj. rewrite Hn1.
      replace (S (n_connect w) + j)%nat with (n_connect w + S j)%nat by lia.
      apply Hfail. lia. }
    exists w2, (pre1 ++ pre2). split.
    { rewrite Hrun1, Hrun2. simpl. do 2 f_equal. lia. }
    split; [lia|]. split; [by rewrite Hlog2, Hlog1, (assoc_L (++))|].
    split; [rewrite body_runs_app; lia|].
    split; [by rewrite schedule_app, Hs1, Hs2|].
    intros o. rewrite leaked_app, Hl1, Hl2. repeat case_decide; naive_solver.
Qed.

(** The generator reaches its [yield] at the first attempt that connects. *)
Lemma attempts_first_success (k : nat) (a : Z) (n : nat) w :
  0 ≤ retry_delay ∨ k = 0%nat →
  a + Z.of_nat n = retries →
  (k < n)%nat →
  (∀ j, (j < k)%nat → connect_result st (n_connect w + j) ≠ None) →
  connect_result st (n_connect w + k) = None →
  ∃ w' pre,
    attempts (seqZ a (Z.of_nat n)) w
      = (Yielded (a + Z.of_nat k) (seqZ (a + Z.of_nat k + 1) (Z.of_nat (n - S k))), w') ∧
    n_connect w' = (n_connect w + S k)%nat ∧
    log w' = log w ++ pre ++ [EvConnect alias true] ∧
    body_runs pre = 0%nat ∧
    schedule pre = mjoin (replicate k [EvConnect alias false; EvSleep retry_delay]) ∧
    EvConnect alias true ∉ pre.
Proof.
  intros Hdelay Hn Hk Hfail Hok.
  assert (∃ w1 pre,
            attempts (seqZ a (Z.of_nat n)) w
              = attempts (seqZ (a + Z.of_nat k) (Z.of_nat (n - k))) w1 ∧
            n_connect w1 = (n_connect w + k)%nat ∧
            log w1 = log w ++ pre ∧
            body_runs pre = 0%nat ∧
            schedule pre = mjoin (replicate k [EvConnect alias false; EvSleep retry_delay]))
    as (w1 & pre & Hrun & Hn1 & Hlog & Hb & Hs).
  { destruct Hdelay as [Hdelay| ->].
    - destruct (attempts_failed_prefix k a n w)
        as (w1 & pre & Hrun & Hn1 & Hlog & Hb & Hs & Hl); [done..|]. eauto 10.
    - exists w, []. rewrite Z.add_0_r, Nat.sub_0_r, Nat.add_0_r, app_nil_r. done. }
  exists (World (S (n_connect w1)) (n_disconnect w1) (log w1 ++ [EvConnect alias true])), pre.
  split.
  { rewrite Hrun. replace (n - k)%nat with (S (n - S k)) by lia.
    rewrite seqZ_S. simpl. unfold_M. by rewrite Hn1, Hok. }
  simpl. split; [lia|]. split; [by rewrite Hlog, (assoc_L (++))|].
  repeat split; try done.
  intros Hin. apply (f_equal schedule) in Hlog as _.
  assert (EvConnect alias true ∈ schedule pre) as Hin'.
  { clear -Hin. induction pre as [|ev pre IH]; [by apply elem_of_nil in Hin|].
    apply elem_of_cons in Hin as [<-|Hin]; simpl; [left|].
    destruct ev; simpl; try right; auto. }
  rewrite Hs in Hin'. clear -Hin'.
  induction k as [|k IH]; simpl in Hin'; [by apply elem_of_nil in Hin'|].
  apply elem_of_cons in Hin' as [?|Hin']; [done|].
  apply elem_of_cons in Hin' as [?|Hin']; [done|]. auto.
Qed.

Lemma failed_attempts_snoc d (n : nat) :
  mjoin (replicate n [EvConnect alias false; EvSleep d]) ++ [EvConnect alias false]
  = failed_attempts alias d (S n).
Proof.
  induction n as [|n IH]; [done|].
  change (failed_attempts alias d (S (S n)))
    with (EvConnect alias false :: EvSleep d :: failed_attempts alias d (S n)).
  rewrite <- IH. done.
Qed.

(** Against a store that rejects every attempt, the last attempt raises. *)
Lemma attempts_all_fail (a : Z) (n : nat) w :
  0 ≤ retry_delay →
  a + Z.of_nat (S n) = retries →
  (∀ j, (j ≤ n)%nat → connect_result st (n_connect w + j) ≠ None) →
  ∃ w' evs msg,
    connect_result st (n_connect w + n) = Some msg ∧
    attempts (seqZ a (Z.of_nat (S n))) w
      = (Raised (failed_to_connect retries (Exn Exception msg)), w') ∧
    n_connect w' = (n_connect w + S n)%nat ∧
    log w' = log w ++ evs ∧
    body_runs evs = 0%nat ∧
    schedule evs = failed_attempts alias retry_delay (S n) ∧
    (∀ o, leaked alias o evs = false).
Proof.
  intros Hdelay Hn Hfail.
  destruct (attempts_failed_prefix n a (S n) w)
    as (w1 & pre & Hrun & Hn1 & Hlog & Hb & Hs & Hl); [done|done|lia| |].
  { intros j Hj. apply Hfail. lia. }
  destruct (connect_result st (n_connect w + n)) as [msg|] eqn:Hc;
    [|by destruct (Hfail n)].
  rewrite Hrun. replace (S n - n)%nat with 1%nat by lia.
  rewrite seqZ_S. simpl. unfold_M. rewrite Hn1, Hc. simpl.
  rewrite bool_decide_eq_true_2 by lia.
  destruct (scope v) eqn:Hsc; simpl.
  - eexists _, _, msg. split; [done|]. split; [reflexivity|]. simpl.
    split; [lia|]. rewrite Hlog, <- !(assoc_L (++)). split; [done|].
    rewrite body_runs_app, !schedule_app, Hb, Hs. simpl.
    split; [done|]. split; [by rewrite failed_attempts_snoc|].
    intros o. rewrite leaked_app. simpl. by repeat case_decide.
  - eexists _, _, msg. split; [done|]. split; [reflexivity|]. simpl.
    split; [lia|]. rewrite Hlog, <- !(assoc_L (++)). split; [done|].
    rewrite body_runs_app, !schedule_app, Hb, Hs. simpl.
    split; [done|]. split; [by rewrite failed_attempts_snoc|].
    intros o. rewrite leaked_app. simpl. by repeat case_decide.
Qed.

(** *** No handle is left open *)

Lemma attempts_released todo w :
  (scope v = PerAttempt → leaked alias false (log w) = false) →
  stopped_released alias (attempts todo w).
Proof.
  unfold stopped_released.
  revert w. induction todo as [|a rest IH]; intros w Hw; simpl; unfold_M.
  - destruct (scope v); simpl; [by apply Hw|].
    rewrite leaked_app. simpl. by case_decide.
  - destruct (connect_result st (n_connect w)) as [msg|]; simpl; [|done].
    case_bool_decide; [|destruct (decide (retry_delay < 0))].
    + destruct (scope v); simpl; rewrite !leaked_app; simpl; by case_decide.
    + destruct (scope v); simpl; rewrite !leaked_app; simpl; by case_decide.
    + destruct (scope v) eqn:Hs; simpl; apply IH; simpl; rewrite ?Hs; [|done].
      intros _. rewrite !leaked_app. simpl. by case_decide.
Qed.

Lemma throw_released a rest e w : stopped_released alias (throw a rest e w).
Proof.
  unfold stopped_released. unfold_M.
  destruct (is_Exception e); [case_bool_decide; [|destruct (decide (retry_delay < 0))]|].
  - destruct (scope v); simpl; rewrite !leaked_app; simpl; by case_decide.
  - destruct (scope v); simpl; rewrite !leaked_app; simpl; by case_decide.
  - destruct (scope v) eqn:Hs; simpl; apply attempts_released; simpl; rewrite ?Hs; [|done].
    intros _. rewrite !leaked_app. simpl. by case_decide.
  - destruct (scope v); simpl; rewrite !leaked_app; simpl; by case_decide.
Qed.

Lemma resume_released a rest w : stopped_released alias (resume a rest w).
Proof.
  unfold stopped_released. unfold_M. destruct (break_after_yield v).
  - destruct (scope v); simpl; rewrite !leaked_app; simpl; by case_decide.
  - destruct (scope v) eqn:Hs; simpl; apply attempts_released; simpl; rewrite ?Hs; [|done].
    intros _. rewrite !leaked_app. simpl. by case_decide.
Qed.

Lemma close_released w : leaked alias false (log (close w).2) = false.
Proof.
  unfold_M. destruct (scope v); simpl; rewrite !leaked_app; simpl; by case_decide.
Qed.

(** Whatever way the [with] statement ends, the handle is released. *)
Lemma with_connection_released body :
  leaked alias false (log (with_connection body init).2) = false.
Proof.
  unfold with_connection, mbind, M_bind.
  pose proof (attempts_released (range retries) init (λ _, eq_refl)) as Henter.
  destruct (attempts (range retries) init) as [[a rest| |e] w1]; simpl in *; try done.
  unfold_exit.
  set (w2 := World _ _ _). destruct body as [e|].
  - pose proof (throw_released a rest e w2) as Hexit.
    destruct (throw a rest e w2) as [[a' rest'| |e'] w3]; simpl in *; try done.
    pose proof (close_released w3) as Hclose.
    by destruct (close w3).
  - pose proof (resume_released a rest w2) as Hexit.
    destruct (resume a rest w2) as [[a' rest'| |e'] w3]; simpl in *; try done.
    pose proof (close_released w3) as Hclose.
    by destruct (close w3).
Qed.

(** The generator never runs the body, whichever way it is resumed. *)
Lemma except_clause_body_runs a e rest w :
  body_runs (log (except_clause a e (attempts rest) w).2) = body_runs (log w).
Proof.
  unfold_M.
  destruct (is_Exception e); [case_bool_decide; [|destruct (decide (retry_delay < 0))]|];
    destruct (scope v); simpl; rewrite ?attempts_body_runs; simpl;
    rewrite ?body_runs_app; simpl; lia.
Qed.

Lemma resume_body_runs a rest w :
  body_runs (log (resume a rest w).2) = body_runs (log w).
Proof.
  unfold_M. destruct (break_after_yield v);
    destruct (scope v); simpl; rewrite ?attempts_body_runs; simpl;
    rewrite ?body_runs_app; simpl; lia.
Qed.

Lemma close_body_runs w : body_runs (log (close w).2) = body_runs (log w).
Proof.
  unfold_M. destruct (scope v); simpl; rewrite ?body_runs_app; simpl; lia.
Qed.

(** What the generator appends to the log. *)
Lemma attempts_log todo w : ∃ evs, log (attempts todo w).2 = log w ++ evs.
Proof.
  revert w. induction todo as [|a rest IH]; intros w; simpl; unfold_M.
  - destruct (scope v); simpl; [exists []; by rewrite app_nil_r|eauto].
  - destruct (connect_result st (n_connect w)) as [msg|]; simpl; [|eauto].
    case_bool_decide; [|destruct (decide (retry_delay < 0))].
    + destruct (scope v); simpl; rewrite <- ?(assoc_L (++)); eauto.
    + destruct (scope v); simpl; rewrite <- ?(assoc_L (++)); eauto.
    + destruct (scope v); simpl;
        match goal with |- context [attempts rest ?w'] =>
          destruct (IH w') as [evs ->] end; simpl;
        rewrite <- ?(assoc_L (++)); eauto.
Qed.

Lemma throw_log a rest e w : ∃ evs, log (throw a rest e w).2 = log w ++ evs.
Proof.
  unfold_M.
  destruct (is_Exception e); [case_bool_decide; [|destruct (decide (retry_delay < 0))]|].
  - destruct (scope v); simpl; rewrite <- ?(assoc_L (++)); eauto.
  - destruct (scope v); simpl; rewrite <- ?(assoc_L (++)); eauto.
  - destruct (scope v); simpl;
      match goal with |- context [attempts rest ?w'] =>
        destruct (attempts_log rest w') as [evs ->] end; simpl;
      rewrite <- ?(assoc_L (++)); eauto.
  - destruct (scope v); simpl; rewrite <- ?(assoc_L (++)); eauto.
Qed.

Lemma resume_log a rest w : ∃ evs, log (resume a rest w).2 = log w ++ evs.
Proof.
  unfold_M. destruct (break_after_yield v).
  - destruct (scope v); simpl; rewrite <- ?(assoc_L (++)); eauto.
  - destruct (scope v); simpl;
      match goal with |- context [attempts rest ?w'] =>
        destruct (attempts_log rest w') as [evs ->] end; simpl;
      rewrite <- ?(assoc_L (++)); eauto.
Qed.

Lemma close_log w : ∃ evs, log (close w).2 = log w ++ evs.
Proof.
  unfold_M. destruct (scope v); simpl; rewrite <- ?(assoc_L (++)); eauto.
Qed.

(** Up to its [yield] the generator has seen no [connect] return but the
    last one; a generator that stopped has seen none. *)
Lemma attempts_connects todo w :
  match attempts todo w with
  | (Yielded _ _, w') =>
      ∃ pre, log w' = log w ++ pre ++ [EvConnect alias true] ∧
             body_runs pre = 0%nat ∧ connected alias pre = false
  | (_, w') => ∃ evs, log w' = log w ++ evs ∧ connected alias evs = false
  end.
Proof.
  revert w. induction todo as [|a rest IH]; intros w; simpl; unfold_M.
  - destruct (scope v); simpl; [exists []; by rewrite app_nil_r|by eexists [_]].
  - destruct (connect_result st (n_connect w)) as [msg|]; simpl; [|by exists []].
    case_bool_decide; [|destruct (decide (retry_delay < 0))].
    + destruct (scope v); simpl; rewrite <- !(assoc_L (++)); by eexists.
    + destruct (scope v); simpl; rewrite <- !(assoc_L (++)); by eexists.
    + destruct (scope v); simpl;
        match goal with |- context [attempts rest ?w'] =>
          specialize (IH w'); destruct (attempts rest w') as [[a' rest'| |e'] w3] end;
        simpl in *.
      * destruct IH as (pre & -> & Hb & Hnot).
        eexists ([EvConnect alias false] ++ [EvPrint (retrying retry_delay a)]
                  ++ [EvSleep retry_delay] ++ [EvDisconnect alias _] ++ pre).
        split; [by rewrite <- !(assoc_L (++))|]. by simpl.
      * destruct IH as (evs & -> & Hnot).
        eexists ([EvConnect alias false] ++ [EvPrint (retrying retry_delay a)]
                  ++ [EvSleep retry_delay] ++ [EvDisconnect alias _] ++ evs).
        split; [by rewrite <- !(assoc_L (++))|]. by simpl.
      * destruct IH as (evs & -> & Hnot).
        eexists ([EvConnect alias false] ++ [EvPrint (retrying retry_delay a)]
                  ++ [EvSleep retry_delay] ++ [EvDisconnect alias _] ++ evs).
        split; [by rewrite <- !(assoc_L (++))|]. by simpl.
      * destruct IH as (pre & -> & Hb & Hnot).
        eexists ([EvConnect alias false] ++ [EvPrint (retrying retry_delay a)]
                  ++ [EvSleep retry_delay] ++ pre).
        split; [by rewrite <- !(assoc_L (++))|]. by simpl.
      * destruct IH as (evs & -> & Hnot).
        eexists ([EvConnect alias false] ++ [EvPrint (retrying retry_delay a)]
                  ++ [EvSleep retry_delay] ++ evs).
        split; [by rewrite <- !(assoc_L (++))|]. by simpl.
      * destruct IH as (evs & -> & Hnot).
        eexists ([EvConnect alias false] ++ [EvPrint (retrying retry_delay a)]
                  ++ [EvSleep retry_delay] ++ evs).
        split; [by rewrite <- !(assoc_L (++))|]. by simpl.
Qed.

Lemma cm_exit_body_runs body a rest w :
  body_runs (log (cm_exit body a rest w).2) = body_runs (log w).
Proof.
  unfold_exit. destruct body as [e|].
  - pose proof (except_clause_body_runs a e rest w) as Hexit. fold (throw a rest e) in Hexit.
    destruct (throw a rest e w) as [[a' rest'| |e'] w3]; simpl in *; try done.
    pose proof (close_body_runs w3) as Hclose.
    destruct (close w3). simpl in *. lia.
  - pose proof (resume_body_runs a rest w) as Hexit.
    destruct (resume a rest w) as [[a' rest'| |e'] w3]; simpl in *; try done.
    pose proof (close_body_runs w3) as Hclose.
    destruct (close w3). simpl in *. lia.
Qed.

Lemma cm_exit_log body a rest w :
  ∃ evs, log (cm_exit body a rest w).2 = log w ++ evs.
Proof.
  unfold_exit. destruct body as [e|].
  - destruct (throw_log a rest e w) as [evs Hexit].
    destruct (throw a rest e w) as [[a' rest'| |e'] w3]; simpl in *; eauto.
    destruct (close_log w3) as [evs' Hclose].
    destruct (close w3). simpl in *. rewrite Hclose, Hexit, <- (assoc_L (++)). eauto.
  - destruct (resume_log a rest w) as [evs Hexit].
    destruct (resume a rest w) as [[a' rest'| |e'] w3]; simpl in *; eauto.
    destruct (close_log w3) as [evs' Hclose].
    destruct (close w3). simpl in *. rewrite Hclose, Hexit, <- (assoc_L (++)). eauto.
Qed.

(** What the generator can come to from the start of an attempt. *)
Lemma attempts_cases (n : nat) : ∀ a w,
  0 ≤ retry_delay →
  a + Z.of_nat n = retries →
  match (attempts (seqZ a (Z.of_nat n)) w).1 with
  | Yielded _ _ => True
  | Returned => n = 0%nat
  | Raised e' => ∃ msg, e' = failed_to_connect retries (Exn Exception msg)
  end.
Proof.
  induction n as [|n IH]; intros a w Hdelay Hn.
  - simpl. unfold_M. by destruct (scope v).
  - rewrite seqZ_S. simpl. unfold_M.
    destruct (connect_result st (n_connect w)) as [msg|]; simpl; [|done].
    case_bool_decide.
    + destruct (scope v); simpl; eauto.
    + rewrite decide_False by lia. destruct (scope v); simpl;
        match goal with |- context [attempts _ ?w'] =>
          specialize (IH (a + 1) w' Hdelay ltac:(lia)); destruct (attempts (seqZ (a + 1) (Z.of_nat n)) w')
            as [[| |] ?] end; simpl in *; try done; lia.
Qed.

(** [__enter__] returns at the first attempt that connects, and the body
    runs. *)
Lemma with_connection_first_success (k : nat) body :
  0 ≤ retry_delay ∨ k = 0%nat →
  Z.of_nat k < retries →
  (∀ j, (j < k)%nat → connect_result st j ≠ None) →
  connect_result st k = None →
  ∃ w1 pre,
    with_connection body init
      = cm_exit body (Z.of_nat k) (seqZ (Z.of_nat k + 1) (retries - Z.of_nat k - 1)) w1 ∧
    n_connect w1 = S k ∧
    log w1 = pre ++ [EvConnect alias true; EvBody] ∧
    body_runs pre = 0%nat ∧
    schedule pre = mjoin (replicate k [EvConnect alias false; EvSleep retry_delay]) ∧
    EvConnect alias true ∉ pre.
Proof.
  intros Hdelay Hk Hfail Hok.
  destruct (attempts_first_success k 0 (Z.to_nat retries) init)
    as (w1 & pre & Hrun & Hn1 & Hlog & Hb & Hs & Hnot); [done|lia|lia|done..|].
  unfold with_connection, range, mbind, M_bind.
  rewrite Z2Nat.id in Hrun by lia. rewrite Hrun. simpl in *.
  eexists _, pre. split.
  { unfold emit. simpl. do 2 f_equal. lia. }
  simpl. rewrite Hlog, <- (assoc_L (++)). repeat split; try done.
Qed.
End connector_facts.

Lemma first_success (f : nat → option string) (k : nat) :
  f k = None →
  ∃ k', (k' ≤ k)%nat ∧ f k' = None ∧ ∀ j, (j < k')%nat → f j ≠ None.
Proof.
  intros Hk.
  assert (∀ n, (∀ j, (j < n)%nat → f j ≠ None) ∨
               (∃ k', (k' < n)%nat ∧ f k' = None ∧ ∀ j, (j < k')%nat → f j ≠ None))
    as Hsearch.
  { induction n as [|n [IH|(k' & ? & ? & ?)]].
    - left. lia.
    - destruct (f n) eqn:Hn.
      + left. intros j Hj. destruct (decide (j = n)) as [->|]; [by rewrite Hn|].
        apply IH. lia.
      + right. exists n. auto.
    - right. exists k'. auto. }
  destruct (Hsearch (S k)) as [Hnone|(k' & ? & ? & ?)].
  - destruct (Hnone k); [lia|done].
  - exists k'. split; [lia|done].
Qed.

(** The body runs once, right after the first [connect] that returned,
    whenever a [connect] returned at all. *)
Lemma with_connection_runs_body_once st v alias retries retry_delay body :
  EvConnect alias true ∈ log (with_connection st v alias retries retry_delay body init).2 →
  ran_once_on_first_success alias
    (log (with_connection st v alias retries retry_delay body init).2).
Proof.
  unfold with_connection, mbind, M_bind.
  pose proof (attempts_connects st v alias retries retry_delay (range retries) init)
    as Henter.
  destruct (attempts st v alias retries retry_delay (range retries) init)
    as [[a rest| |e] w1]; simpl in *.
  - intros _. destruct Henter as (pre & Hlog & Hb & Hnot).
    set (w2 := World _ _ _).
    pose proof (cm_exit_body_runs st v alias retries retry_delay body a rest w2) as Hruns.
    destruct (cm_exit_log st v alias retries retry_delay body a rest w2) as [post Hpost].
    split.
    + rewrite Hruns. simpl. rewrite Hlog, !body_runs_app, Hb. done.
    + exists pre, post. split.
      * rewrite Hpost. simpl. rewrite Hlog, <- !(assoc_L (++)). done.
      * rewrite <- connected_elem_of, Hnot. done.
  - destruct Henter as (evs & -> & Hnot). rewrite <- connected_elem_of, Hnot. done.
  - destruct Henter as (evs & -> & Hnot). rewrite <- connected_elem_of, Hnot. done.
Qed.

(** When attempt [k] is the first that the store accepts and the waits
    before it are possible, a [connect] does return. *)
Lemma with_connection_connects st v alias retries retry_delay body (k : nat) :
  0 ≤ retry_delay ∨ k = 0%nat →
  Z.of_nat k < retries →
  (∀ j, (j < k)%nat → connect_result st j ≠ None) →
  connect_result st k = None →
  EvConnect alias true ∈ log (with_connection st v alias retries retry_delay body init).2.
Proof.
  intros Hdelay Hk Hfail Hok.
  destruct (with_connection_first_success st v alias retries retry_delay k body)
    as (w1 & pre & -> & Hn1 & Hlog & _); [done..|].
  destruct (cm_exit_log st v alias retries retry_delay body (Z.of_nat k)
              (seqZ (Z.of_nat k + 1) (retries - Z.of_nat k - 1)) w1) as [post ->].
  rewrite Hlog. set_solver.
Qed.

(** *** A body that raises *)

Section body_raises.
Context (st : store) (v : variant) (alias : string) (retries retry_delay : Z).

Local Abbreviation attempts := (attempts st v alias retries retry_delay).
Local Abbreviation cm_exit := (cm_exit st v alias retries retry_delay).

(** The first event of an attempt is its [connect]. *)
Lemma attempts_cons_log a rest w :
  ∃ evs, log (attempts (a :: rest) w).2
         = log w ++ EvConnect alias (bool_decide (connect_result st (n_connect w) = None)) :: evs.
Proof.
  simpl. unfold_M. destruct (connect_result st (n_connect w)) as [msg|] eqn:Hc; simpl; [|eauto].
  case_bool_decide; [|destruct (decide (retry_delay < 0))].
  - destruct (scope v); simpl; rewrite <- ?(assoc_L (++)); simpl; eauto.
  - destruct (scope v); simpl; rewrite <- ?(assoc_L (++)); simpl; eauto.
  - destruct (scope v); simpl;
      match goal with |- context [attempts rest ?w'] =>
        destruct (attempts_log st v alias retries retry_delay rest w') as [evs ->] end;
      simpl; rewrite <- ?(assoc_L (++)); simpl; eauto.
Qed.

(** The body raised an [Exception] at the last attempt: the handler
    replaces it. *)
Lemma cm_exit_raise_last a rest e w :
  is_Exception e = true →
  a = retries - 1 →
  (cm_exit (Some e) a rest w).1 = Raise (failed_to_connect retries e).
Proof.
  intros He Ha. unfold_M. rewrite He, bool_decide_eq_true_2 by done.
  by destruct (scope v).
Qed.

(** The handler at an earlier attempt, when the wait is possible. *)
Lemma throw_retry a rest e w :
  0 ≤ retry_delay →
  is_Exception e = true →
  a ≠ retries - 1 →
  ∃ w3 d,
    throw st v alias retries retry_delay a rest e w = attempts rest w3 ∧
    n_connect w3 = n_connect w ∧
    log w3 = log w ++ [EvPrint (retrying retry_delay a); EvSleep retry_delay] ++ d ∧
    schedule d = [].
Proof.
  intros Hdelay He Ha. unfold_M. rewrite He, bool_decide_eq_false_2 by done.
  rewrite decide_False by lia.
  destruct (scope v); simpl.
  - eexists _, [_]. split; [reflexivity|]. simpl.
    by rewrite <- !(assoc_L (++)).
  - eexists _, []. split; [reflexivity|]. simpl.
    by rewrite <- !(assoc_L (++)).
Qed.

(** The body raised an [Exception] at an earlier attempt and the wait is
    impossible: the [ValueError] of [time.sleep] leaves the function. *)
Lemma cm_exit_raise_no_wait a rest e w :
  retry_delay < 0 →
  is_Exception e = true →
  a ≠ retries - 1 →
  (cm_exit (Some e) a rest w).1
  = Raise (Exn Exception "sleep length must be non-negative").
Proof.
  intros Hdelay He Ha. unfold_M. rewrite He, bool_decide_eq_false_2 by done.
  rewrite decide_True by done. by destruct (scope v).
Qed.

(** The body raised an [Exception] at an earlier attempt: the handler
    prints, waits and lets the loop go on to a new [connect]; the generator
    then either raises from its last attempt or yields again, which
    [__exit__] turns into a [RuntimeError]. *)
Lemma cm_exit_raise_retry a (m : nat) e w :
  0 ≤ retry_delay →
  is_Exception e = true →
  a + Z.of_nat (S (S m)) = retries →
  let run := cm_exit (Some e) a (seqZ (a + 1) (Z.of_nat (S m))) w in
  (∃ post ok later,
     log run.2 = log w ++ [EvPrint (retrying retry_delay a); EvSleep retry_delay] ++ post ∧
     schedule post = EvConnect alias ok :: later) ∧
  (connect_result st (n_connect w) = None →
     run.1 = Raise (Exn RuntimeError "generator didn't stop after throw()")) ∧
  (run.1 = Raise (Exn RuntimeError "generator didn't stop after throw()") ∨
   ∃ msg, run.1 = Raise (failed_to_connect retries (Exn Exception msg))).
Proof.
  intros Hdelay He Ha run.
  destruct (throw_retry a (seqZ (a + 1) (Z.of_nat (S m))) e w)
    as (w3 & d & Hthrow & Hn3 & Hlog3 & Hd); [done|done|lia|].
  assert (run = cm_exit (Some e) a (seqZ (a + 1) (Z.of_nat (S m))) w) as Hrun by done.
  clearbody run. unfold_exit. rewrite Hthrow in Hrun.
  pose proof (attempts_cases st v alias retries retry_delay (S m) (a + 1) w3 Hdelay
                ltac:(lia)) as Hcases.
  assert (connect_result st (n_connect w) = None →
          ∃ a' rest' w', attempts (seqZ (a + 1) (Z.of_nat (S m))) w3 = (Yielded a' rest', w'))
    as Hyield.
  { intros Hok. rewrite seqZ_S. simpl. unfold_M. rewrite Hn3, Hok. simpl. eauto. }
  rewrite seqZ_S in Hrun, Hcases, Hyield.
  destruct (attempts_cons_log (a + 1) (seqZ (a + 1 + 1) (Z.of_nat m)) w3) as [evs Hlog].
  destruct (attempts (a + 1 :: seqZ (a + 1 + 1) (Z.of_nat m)) w3)
    as [[a' rest'| |e'] w4]; simpl in *.
  - destruct (close_log st v alias w4) as [evs' Hclose].
    destruct (close st v alias w4) as [[] w5]. simpl in *. rewrite Hrun. simpl.
    split; [|by auto].
    eexists (d ++ _ :: evs ++ evs'), _, _. split.
    + rewrite Hclose, Hlog, Hlog3, <- !(assoc_L (++)). simpl. reflexivity.
    + rewrite schedule_app, Hd. simpl. reflexivity.
  - done.
  - rewrite Hrun. simpl. split; [|split].
    + eexists (d ++ _ :: evs), _, _. split.
      * rewrite Hlog, Hlog3, <- !(assoc_L (++)). simpl. reflexivity.
      * rewrite schedule_app, Hd. simpl. reflexivity.
    + intros Hok. by destruct (Hyield Hok) as (? & ? & ? & ?).
    + right. destruct Hcases as [msg ->]. eauto.
Qed.

(** Without a [break] after the [yield], a body that ended normally at an
    attempt that is not the last is followed by a further attempt: the
    [with] statement cannot end normally. *)
Lemma cm_exit_no_break a (m : nat) w :
  0 ≤ retry_delay →
  break_after_yield v = false →
  a + Z.of_nat (S (S m)) = retries →
  let run := cm_exit None a (seqZ (a + 1) (Z.of_nat (S m))) w in
  run.1 = Raise (Exn RuntimeError "generator didn't stop") ∨
  ∃ msg, run.1 = Raise (failed_to_connect retries (Exn Exception msg)).
Proof.
  intros Hdelay Hbreak Ha run. subst run. unfold_M. rewrite Hbreak.
  destruct (scope v); simpl;
    match goal with |- context [attempts ?todo ?w'] =>
      pose proof (attempts_cases st v alias retries retry_delay (S m) (a + 1) w'
                    Hdelay ltac:(lia)) as Hcases;
      destruct (attempts todo w') as [[a' rest'| |e'] w4] end;
    simpl in *; try done;
    try (right; destruct Hcases as [msg ->]; by eauto);
    left; by destruct (scope v).
Qed.
End body_raises.

(** *** Failures of [disconnect] are swallowed *)

Section disconnect_failures.
Context (st st' : store) (v : variant) (alias : string) (retries retry_delay : Z).
Hypothesis same_connect : ∀ k, connect_result st' k = connect_result st k.

Lemma attempts_agree todo : ∀ w w',
  n_connect w = n_connect w' →
  agree (attempts st v alias retries retry_delay todo w)
        (attempts st' v alias retries retry_delay todo w').
Proof.
  unfold agree.
  induction todo as [|a rest IH]; intros w w' Hn; simpl; unfold_M.
  - by destruct (scope v).
  - rewrite same_connect, <- Hn.
    destruct (connect_result st (n_connect w)) as [msg|]; simpl; [|by rewrite Hn].
    case_bool_decide; [|destruct (decide (retry_delay < 0))];
      destruct (scope v); simpl; try done; apply IH; simpl; lia.
Qed.

Lemma throw_agree a rest e w w' :
  n_connect w = n_connect w' →
  agree (throw st v alias retries retry_delay a rest e w)
        (throw st' v alias retries retry_delay a rest e w').
Proof.
  intros Hn. unfold_M.
  destruct (is_Exception e); [case_bool_decide; [|destruct (decide (retry_delay < 0))]|];
    destruct (scope v); simpl; try done; apply attempts_agree; simpl; lia.
Qed.

Lemma resume_agree a rest w w' :
  n_connect w = n_connect w' →
  agree (resume st v alias retries retry_delay a rest w)
        (resume st' v alias retries retry_delay a rest w').
Proof.
  intros Hn. unfold_M. destruct (break_after_yield v);
    destruct (scope v); simpl; try done; apply attempts_agree; simpl; lia.
Qed.

Lemma cm_exit_agree body a rest w w' :
  n_connect w = n_connect w' →
  (cm_exit st v alias retries retry_delay body a rest w).1
  = (cm_exit st' v alias retries retry_delay body a rest w').1.
Proof.
  intros Hn. unfold_exit. destruct body as [e|].
  - destruct (throw_agree a rest e w w' Hn) as [Hr _].
    destruct (throw st v alias retries retry_delay a rest e w) as [r w1],
             (throw st' v alias retries retry_delay a rest e w') as [r' w1'].
    simpl in Hr. subst r'. destruct r; simpl; try done.
    by destruct (close st v alias w1), (close st' v alias w1').
  - destruct (resume_agree a rest w w' Hn) as [Hr _].
    destruct (resume st v alias retries retry_delay a rest w) as [r w1],
             (resume st' v alias retries retry_delay a rest w') as [r' w1'].
    simpl in Hr. subst r'. destruct r; simpl; try done.
    by destruct (close st v alias w1), (close st' v alias w1').
Qed.

(** The [with] statement ends the same way whatever [disconnect] does. *)
Lemma with_connection_agree body :
  (with_connection st v alias retries retry_delay body init).1
  = (with_connection st' v alias retries retry_delay body init).1.
Proof.
  unfold with_connection, mbind, M_bind.
  destruct (attempts_agree (range retries) init init eq_refl) as [Hr Hn].
  destruct (attempts st v alias retries retry_delay (range retries) init) as [r w1],
           (attempts st' v alias retries retry_delay (range retries) init) as [r' w1'].
  simpl in Hr, Hn. subst r'. destruct r; simpl; try done.
  by apply cm_exit_agree.
Qed.
End disconnect_failures.

(** A [connect] returns as soon as the store accepts some attempt below
    [retries], provided the waits before it are possible. *)
Lemma with_connection_connects_some st v alias retries retry_delay body (k : nat) :
  0 ≤ retry_delay ∨ connect_result st 0%nat = None →
  Z.of_nat k < retries →
  connect_result st k = None →
  EvConnect alias true ∈ log (with_connection st v alias retries retry_delay body init).2.
Proof.
  intros Hdelay Hk Hok.
  destruct (first_success (connect_result st) k Hok) as (k' & Hk' & Hok' & Hfail).
  apply (with_connection_connects _ _ _ _ _ _ k'); [|lia|done..].
  destruct Hdelay as [?|Hzero]; [by left|right].
  destruct k' as [|k']; [done|]. destruct (Hfail 0%nat); [lia|done].
Qed.

(** ** The claims about the connector *)

(** C3.  In every run of the [with] statement in which some connection
    attempt succeeds, the body runs exactly once, right after the first
    successful attempt, and is never entered again on a later iteration of
    the retry loop.  An attempt does succeed when the store accepts one of
    the first [retries] calls of [connect] and the waits before it are
    possible.  (In [index.py] and [query.py] the generator does go on
    to a further attempt and a second [yield] once the body is over;
    [contextlib] answers that with a [RuntimeError] and does not run the
    body again, see [second_yield_is_an_error].) *)
Theorem body_runs_once_on_first_success st alias retries retry_delay body :
  let index_run := Index.milvus_connection st alias retries retry_delay body init in
  let query_run := Query.milvus_connection st alias retries retry_delay body init in
  (EvConnect alias true ∈ log index_run.2 →
   ran_once_on_first_success alias (log index_run.2)) ∧
  (EvConnect alias true ∈ log query_run.2 →
   ran_once_on_first_success alias (log query_run.2)) ∧
  (∀ k : nat,
     0 ≤ retry_delay ∨ connect_result st 0%nat = None →
     Z.of_nat k < retries →
     connect_result st k = None →
     EvConnect alias true ∈ log index_run.2 ∧ EvConnect alias true ∈ log query_run.2).
Proof.
  split; [|split].
  - apply with_connection_runs_body_once.
  - apply with_connection_runs_body_once.
  - intros k Hdelay Hk Hok. split; by eapply with_connection_connects_some.
Qed.

Lemma body_runs_once_on_first_success_witness :
  ran_once_on_first_success "default"
    (log (Index.milvus_connection accepting "default" 3 5 None init).2).
Proof.
  apply (body_runs_once_on_first_success accepting "default" 3 5 None).
  vm_compute. left.
Defined.

(** What the copies of [index.py] and [query.py] do after a body that ended
    normally, against a store that accepts every connection: the loop
    connects and yields again, and the [with] statement ends in a
    [RuntimeError]; the body ran once. *)
Example second_yield_is_an_error :
  let run := Index.milvus_connection accepting "default" 3 5 None init in
  run.1 = Raise (Exn RuntimeError "generator didn't stop") ∧
  log run.2 = [EvConnect "default" true; EvBody; EvDisconnect "default" true;
               EvConnect "default" true; EvDisconnect "default" true].
Proof. split; reflexivity. Qed.

(** The same for every store and every number of retries: when the first
    attempt that connects is not the last, the [with] statement of
    [index.py] and [query.py] does not end normally after a body that did. *)
Lemma no_break_no_normal_end st alias retries retry_delay (k : nat) :
  0 ≤ retry_delay →
  Z.of_nat k < retries - 1 →
  (∀ j, (j < k)%nat → connect_result st j ≠ None) →
  connect_result st k = None →
  (Index.milvus_connection st alias retries retry_delay None init).1 ≠ Normal ∧
  (Query.milvus_connection st alias retries retry_delay None init).1 ≠ Normal.
Proof.
  intros Hdelay Hk Hfail Hok.
  assert ((with_connection st (Variant false PerAttempt) alias retries retry_delay
             None init).1 ≠ Normal); [|done].
  destruct (with_connection_first_success st (Variant false PerAttempt) alias retries
              retry_delay k None)
    as (w1 & pre & -> & _); [by left|lia|done..|].
  replace (retries - Z.of_nat k - 1) with (Z.of_nat (S (Z.to_nat (retries - Z.of_nat k - 2))))
    by lia.
  destruct (cm_exit_no_break st (Variant false PerAttempt) alias retries retry_delay
              (Z.of_nat k) (Z.to_nat (retries - Z.of_nat k - 2)) w1)
    as [->|[msg ->]]; [done|done|lia|done..].
Qed.

(** The copy of [db_insertion.py], under both readings: the body runs
    between one [connect] and one [disconnect]. *)
Example break_ends_the_loop sc :
  let run := DbInsertion.milvus_connection accepting sc "default" 3 5 None init in
  run.1 = Normal ∧
  log run.2 = [EvConnect "default" true; EvBody; EvDisconnect "default" true].
Proof. by destruct sc. Qed.

(** Three attempts against a store that rejects them all, with the
    [finally] clause around the whole loop. *)
Example three_rejected_attempts :
  DbInsertion.milvus_connection rejecting WholeLoop "default" 3 5 None init
  = (Raise (Exn Exception "Failed to connect after 3 attempts: refused"),
     World 3 1
       [EvConnect "default" false;
        EvPrint "Connection attempt 1 failed, retrying in 5 seconds...";
        EvSleep 5;
        EvConnect "default" false;
        EvPrint "Connection attempt 2 failed, retrying in 5 seconds...";
        EvSleep 5;
        EvConnect "default" false;
        EvDisconnect "default" true]).
Proof. reflexivity. Qed.

(** C4, as stated, fails for [retries = 0] and for a negative
    [retry_delay].  With no retry no attempt is made and the [with]
    statement ends in the [RuntimeError] of a generator that did not yield,
    not in the connector's own error with a cause and a count.  With a
    negative delay [time.sleep] raises after the first failed attempt: one
    attempt is made, not three, and the error is the [ValueError]. *)
Lemma no_attempt_no_connection_error :
  let no_retry := DbInsertion.milvus_connection rejecting PerAttempt "default" 0 5 None init in
  let no_wait := DbInsertion.milvus_connection rejecting PerAttempt "default" 3 (-1) None init in
  (no_retry.1 = Raise (Exn RuntimeError "generator didn't yield") ∧
   ¬ ∃ e, no_retry.1 = Raise (failed_to_connect 0 e)) ∧
  (no_wait.1 = Raise (Exn Exception "sleep length must be non-negative") ∧
   n_connect no_wait.2 = 1%nat ∧
   ¬ ∃ e, no_wait.1 = Raise (failed_to_connect 3 e)).
Proof.
  split; (split; [reflexivity|]); [|split; [reflexivity|]];
    intros [e He]; vm_compute in He; discriminate.
Qed.

(** C4, amended.  For [retries >= 1], a [retry_delay] that is not negative
    and a store that rejects every connection attempt, the connector of
    [db_insertion.py] makes exactly [retries] attempts, waits [retry_delay]
    between consecutive attempts, never runs the body, and fails with an
    exception whose message carries the number of attempts and the cause of
    the last one.  For every store, every number of retries, every delay
    and every way the body ends, no handle is left open after the [with]
    statement, and what [disconnect] does has no influence on how the
    statement ends. *)
Theorem connector_retries_then_releases st sc alias retries retry_delay body :
  let run st := DbInsertion.milvus_connection st sc alias retries retry_delay body init in
  (1 ≤ retries →
   0 ≤ retry_delay →
   (∀ k, connect_result st k ≠ None) →
   ∃ cause,
     connect_result st (Z.to_nat retries - 1) = Some cause ∧
     (run st).1 = Raise (Exn Exception ("Failed to connect after " +:+ pretty retries
                                          +:+ " attempts: " +:+ cause)) ∧
     n_connect (run st).2 = Z.to_nat retries ∧
     schedule (log (run st).2) = failed_attempts alias retry_delay (Z.to_nat retries) ∧
     body_runs (log (run st).2) = 0%nat) ∧
  leaked alias false (log (run st).2) = false ∧
  (∀ st', (∀ k, connect_result st' k = connect_result st k) → (run st').1 = (run st).1).
Proof.
  intros run. split; [|split].
  - intros Hretries Hdelay Hreject.
    destruct (attempts_all_fail st (Variant true sc) alias retries retry_delay
                0 (Z.to_nat retries - 1) init)
      as (w' & evs & msg & Hmsg & Hrun & Hn & Hlog & Hb & Hs & _); [done|lia|by auto|].
    exists msg. simpl in Hmsg. split; [done|].
    unfold run, DbInsertion.milvus_connection, with_connection, range, mbind, M_bind.
    replace (Z.of_nat (S (Z.to_nat retries - 1))) with retries in Hrun by lia.
    rewrite Hrun. simpl. split; [done|]. split; [simpl in Hn; lia|].
    rewrite Hlog. simpl. replace (Z.to_nat retries) with (S (Z.to_nat retries - 1)) by lia.
    done.
  - apply with_connection_released.
  - intros st' Hsame. symmetry. by apply with_connection_agree.
Qed.

Lemma connector_retries_then_releases_witness :
  ∃ cause,
    connect_result rejecting (Z.to_nat 3 - 1) = Some cause ∧
    (DbInsertion.milvus_connection rejecting WholeLoop "worker_0" 3 5 None init).1
      = Raise (Exn Exception ("Failed to connect after " +:+ pretty 3
                                +:+ " attempts: " +:+ cause)) ∧
    n_connect (DbInsertion.milvus_connection rejecting WholeLoop "worker_0" 3 5 None init).2
      = Z.to_nat 3 ∧
    schedule (log (DbInsertion.milvus_connection rejecting WholeLoop "worker_0" 3 5 None init).2)
      = failed_attempts "worker_0" 5 (Z.to_nat 3) ∧
    body_runs (log (DbInsertion.milvus_connection rejecting WholeLoop "worker_0" 3 5 None init).2)
      = 0%nat.
Proof.
  apply (connector_retries_then_releases rejecting WholeLoop "worker_0" 3 5 None);
    [lia|lia|done].
Defined.

(** C10, as stated, fails.  After a body that raised, the connector of
    [db_insertion.py] reconnects and yields a second time, but the body is
    not executed again: [__exit__] ends the [with] statement with a
    [RuntimeError].  With a negative [retry_delay] there is no wait and no
    reconnection either: [time.sleep] raises. *)
Lemma body_is_not_run_again :
  let run := DbInsertion.milvus_connection accepting PerAttempt "worker_0" 3 5
               (Some (Exn Exception "boom")) init in
  let no_wait := DbInsertion.milvus_connection accepting PerAttempt "worker_0" 3 (-1)
                   (Some (Exn Exception "boom")) init in
  (¬ (2 ≤ body_runs (log run.2))%nat ∧
   run.1 = Raise (Exn RuntimeError "generator didn't stop after throw()") ∧
   log run.2 = [EvConnect "worker_0" true; EvBody;
                EvPrint "Connection attempt 1 failed, retrying in 5 seconds...";
                EvSleep 5; EvDisconnect "worker_0" true;
                EvConnect "worker_0" true; EvDisconnect "worker_0" true]) ∧
  (no_wait.1 = Raise (Exn Exception "sleep length must be non-negative") ∧
   log no_wait.2 = [EvConnect "worker_0" true; EvBody;
                    EvPrint "Connection attempt 1 failed, retrying in -1 seconds...";
                    EvDisconnect "worker_0" true]).
Proof.
  split; [split; [|split]|split]; [|reflexivity..]. vm_compute. lia.
Qed.

(** C10, amended.  In the connector of [db_insertion.py], under both
    readings of its [finally] clause, an [Exception] raised by the body is
    caught by the retry handler and the body runs once, never again.  At the
    last attempt the exception is replaced by the generic one that says the
    connection failed after [retries] attempts.  At an earlier attempt, and
    for a [retry_delay] that is not negative, the connector prints, waits
    [retry_delay] and reconnects; when that [connect] returns, the generator
    yields a second time and the [with] statement ends in the [RuntimeError]
    of [__exit__]; otherwise it ends in the generic exception of a later
    failed attempt.  For a negative [retry_delay] it ends in the
    [ValueError] of [time.sleep].  The caller never sees the exception of
    the body as it was raised. *)
Theorem body_exception_is_replaced st sc alias retries retry_delay (k : nat) e :
  0 ≤ retry_delay ∨ k = 0%nat →
  Z.of_nat k < retries →
  (∀ j, (j < k)%nat → connect_result st j ≠ None) →
  connect_result st k = None →
  is_Exception e = true →
  let run := DbInsertion.milvus_connection st sc alias retries retry_delay (Some e) init in
  body_runs (log run.2) = 1%nat ∧
  (Z.of_nat k = retries - 1 → run.1 = Raise (failed_to_connect retries e)) ∧
  (Z.of_nat k < retries - 1 →
   0 ≤ retry_delay →
   (∃ pre post ok later,
      log run.2 = pre ++ [EvBody; EvPrint (retrying retry_delay (Z.of_nat k));
                          EvSleep retry_delay] ++ post ∧
      schedule post = EvConnect alias ok :: later) ∧
   (connect_result st (S k) = None →
      run.1 = Raise (Exn RuntimeError "generator didn't stop after throw()")) ∧
   (run.1 = Raise (Exn RuntimeError "generator didn't stop after throw()") ∨
    ∃ msg, run.1 = Raise (failed_to_connect retries (Exn Exception msg)))) ∧
  (Z.of_nat k < retries - 1 →
   retry_delay < 0 →
   run.1 = Raise (Exn Exception "sleep length must be non-negative")).
Proof.
  intros Hwaits Hk Hfail Hok He run.
  split.
  { apply with_connection_runs_body_once.
    by apply (with_connection_connects _ _ _ _ _ _ k). }
  unfold run, DbInsertion.milvus_connection.
  destruct (with_connection_first_success st (Variant true sc) alias retries retry_delay
              k (Some e))
    as (w1 & pre & -> & Hn1 & Hlog & Hb & Hs & Hnot); [done..|].
  split; [|split].
  - intros Hlast. by apply cm_exit_raise_last.
  - intros Hearlier Hdelay.
    replace (retries - Z.of_nat k - 1) with (Z.of_nat (S (Z.to_nat (retries - Z.of_nat k - 2))))
      by lia.
    destruct (cm_exit_raise_retry st (Variant true sc) alias retries retry_delay
                (Z.of_nat k) (Z.to_nat (retries - Z.of_nat k - 2)) e w1)
      as ((post & ok & later & Hlog' & Hpost) & Hyield & Hforms); [done|done|lia|].
    split; [|split]; [|by rewrite <- Hn1|done].
    exists (pre ++ [EvConnect alias true]), post, ok, later. split; [|done].
    rewrite Hlog', Hlog, <- !(assoc_L (++)). done.
  - intros Hearlier Hdelay. apply cm_exit_raise_no_wait; [done|done|lia].
Qed.

Lemma body_exception_is_replaced_witness :
  let run := DbInsertion.milvus_connection accepting WholeLoop "worker_0" 3 5
               (Some (Exn Exception "boom")) init in
  body_runs (log run.2) = 1%nat ∧
  (Z.of_nat 0 = 3 - 1 → run.1 = Raise (failed_to_connect 3 (Exn Exception "boom"))) ∧
  (Z.of_nat 0 < 3 - 1 →
   0 ≤ 5 →
   (∃ pre post ok later,
      log run.2 = pre ++ [EvBody; EvPrint (retrying 5 (Z.of_nat 0)); EvSleep 5] ++ post ∧
      schedule post = EvConnect "worker_0" ok :: later) ∧
   (connect_result accepting 1 = None →
      run.1 = Raise (Exn RuntimeError "generator didn't stop after throw()")) ∧
   (run.1 = Raise (Exn RuntimeError "generator didn't stop after throw()") ∨
    ∃ msg, run.1 = Raise (failed_to_connect 3 (Exn Exception msg)))) ∧
  (Z.of_nat 0 < 3 - 1 →
   5 < 0 →
   run.1 = Raise (Exn Exception "sleep length must be non-negative")).
Proof.
  apply (body_exception_is_replaced accepting WholeLoop "worker_0" 3 5 0 (Exn Exception "boom"));
    [left; lia|lia|lia|reflexivity|reflexivity].
Defined.

(** The exception that "Check results" raises is raised in the body of
    the [with] statement of [main]: what leaves [main] when the store still
    accepts connections is the [RuntimeError], under both readings. *)
Example failed_insertion_leaves_main_as_protocol_error sc :
  (DbInsertion.milvus_connection accepting sc "default" 3 5
     (Some (Exn Exception "Some batches failed to insert")) init).1
  = Raise (Exn RuntimeError "generator didn't stop after throw()").
Proof. by destruct sc. Qed.

(** What the worker of [db_insertion.py] reports when its insert raises,
    against a store that accepts every connection: the message of the
    [RuntimeError], not the one of the insert. *)
Example insert_batch_reports_the_protocol_error :
  DbInsertion.insert_batch accepting PerAttempt (Some (Exn Exception "boom"))
    (DbInsertion.Batch "SOICT" 2 4 [3; 4] ["c"; "d"]%string)
  = DbInsertion.Return false
      (Some "Error inserting batch 2:4: generator didn't stop after throw()"%string).
Proof. reflexivity. Qed.

(** ** Ranges and slices *)

(** The items of [range(0, stop, step)] for a positive [step] are the
    multiples of [step] below [stop]. *)
Lemma range_len_lt (stop step : Z) (k : nat) :
  0 < step →
  (k < range_len 0 stop step)%nat ↔ Z.of_nat k * step < stop.
Proof.
  intros Hstep. unfold range_len.
  rewrite decide_True by done. case_decide; [|nia].
  rewrite Z.sub_0_r.
  pose proof (Z.div_mod (stop - 1) step ltac:(lia)) as Hdiv.
  pose proof (Z.mod_pos_bound (stop - 1) step Hstep) as Hmod.
  assert (0 ≤ (stop - 1) `div` step) by (apply Z.div_pos; lia).
  split; intros Hk; nia.
Qed.

Lemma range_is_py_range (n : Z) : py_range 0 n 1 = Some (range n).
Proof.
  unfold py_range, range, seqZ, range_len. simpl. f_equal.
  case_decide.
  - rewrite Z.div_1_r. replace (n - 0 - 1 + 1) with n by lia.
    apply list_fmap_ext. intros _ k _. lia.
  - by replace (Z.to_nat n) with 0%nat by lia.
Qed.

Lemma py_range_lookup (stop step : Z) :
  0 < step →
  ∃ starts, py_range 0 stop step = Some starts ∧
            length starts = range_len 0 stop step ∧
            ∀ k s, starts !! k = Some s ↔ s = Z.of_nat k * step ∧ s < stop.
Proof.
  intros Hstep. unfold py_range. rewrite decide_False by lia.
  eexists. split; [done|]. split; [by rewrite length_fmap, length_seq|].
  intros j s. rewrite list_lookup_fmap. split.
  - intros Hj. destruct (seq 0 _ !! j) as [i|] eqn:Hi; [|done].
    apply lookup_seq in Hi as [-> Hi]. simpl in Hj. injection Hj as <-.
    apply range_len_lt in Hi; [|done]. lia.
  - intros [-> Hs]. apply range_len_lt in Hs; [|done].
    rewrite (lookup_seq_lt _ _ _ Hs). simpl. f_equal; lia.
Qed.

Lemma take_min_length {A} (n : nat) (l : list A) :
  take (n `min` length l) l = take n l.
Proof.
  destruct (decide (n ≤ length l)%nat).
  - by rewrite Nat.min_l.
  - rewrite Nat.min_r by lia. by rewrite !take_ge by lia.
Qed.

(** A slice that starts at a multiple of the batch size and is clipped to
    the list of the ids, as a [take] after a [drop]. *)
Lemma slice_batch {A} (l : list A) (n step : Z) (k : nat) :
  0 < step →
  Z.of_nat k * step < n →
  (Z.to_nat n ≤ length l)%nat →
  slice l (Z.of_nat k * step) ((Z.of_nat k * step + step) `min` n)
  = take (Z.to_nat step `min` (Z.to_nat n - k * Z.to_nat step))
         (drop (k * Z.to_nat step) l).
Proof.
  intros Hstep Hk Hn. unfold slice. f_equal; [|f_equal]; nia.
Qed.

(** Cutting a list into consecutive pieces of [step] items and joining the
    pieces gives the list back. *)
Lemma join_pieces {A} (step : nat) (count : nat) : ∀ l : list A,
  (length l ≤ count * step)%nat →
  mjoin ((λ k, take step (drop (k * step) l)) <$> seq 0 count) = l.
Proof.
  induction count as [|count IH]; intros l Hl.
  - simpl in *. by destruct l; [|simpl in Hl; lia].
  - rewrite <- cons_seq, <- fmap_S_seq. simpl. rewrite drop_0.
    rewrite <- list_fmap_compose.
    transitivity (take step l ++ drop step l); [|apply take_drop]. f_equal.
    etransitivity; [|apply (IH (drop step l)); rewrite length_drop; lia].
    f_equal. apply list_fmap_ext. intros _ k _. simpl.
    rewrite drop_drop. do 2 f_equal; lia.
Qed.

(** ** The ingestion pipeline of db_insertion.py *)

Section ingestion.
Context {vector : Type}.
Implicit Types (chunk_id : list Z) (corpus_embedding : list vector).

Import DbInsertion.

Lemma make_batches_lookup name chunk_id corpus_embedding batch_size :
  0 < batch_size →
  ∃ batches,
    make_batches name chunk_id corpus_embedding batch_size = Some batches ∧
    length batches = range_len 0 (len chunk_id) batch_size ∧
    ∀ k b, batches !! k = Some b ↔
           Z.of_nat k * batch_size < len chunk_id ∧
           b = nth_batch name chunk_id corpus_embedding batch_size k.
Proof.
  intros Hsize. unfold make_batches.
  destruct (py_range_lookup (len chunk_id) batch_size Hsize) as (starts & -> & Hlen & Hstarts).
  eexists. split; [done|]. split; [by rewrite length_fmap|].
  intros k b. rewrite list_lookup_fmap. split.
  - destruct (starts !! k) as [s|] eqn:Hs; [|done].
    apply Hstarts in Hs as [-> Hs]. simpl. by intros [= <-].
  - intros [Hk ->]. by rewrite (proj2 (Hstarts k _) (conj eq_refl Hk)).
Qed.

Lemma join_batch_ids name chunk_id corpus_embedding batch_size batches :
  0 < batch_size →
  make_batches name chunk_id corpus_embedding batch_size = Some batches →
  mjoin (batch_ids <$> batches) = chunk_id.
Proof.
  intros Hsize. unfold make_batches, py_range. rewrite decide_False by lia.
  intros [= <-]. rewrite <- !list_fmap_compose.
  set (count := range_len 0 (len chunk_id) batch_size).
  etransitivity; [|apply (join_pieces (Z.to_nat batch_size) count chunk_id)].
  - f_equal. apply list_fmap_ext. intros k ? Hk. apply lookup_seq in Hk as [-> Hk].
    simpl. apply range_len_lt in Hk; [|done].
    rewrite Z.add_0_l.
    rewrite (slice_batch chunk_id (len chunk_id) batch_size k); [|done|done|unfold len; lia].
    rewrite <- (take_min_length (Z.to_nat batch_size)), length_drop.
    unfold len. by rewrite Nat2Z.id.
  - unfold len in *. destruct (decide (length chunk_id = 0)%nat) as [->|]; [lia|].
    destruct (decide (length chunk_id ≤ count * Z.to_nat batch_size)%nat); [done|].
    assert (count < range_len 0 (Z.of_nat (length chunk_id)) batch_size)%nat; [|unfold count in *; lia].
    apply range_len_lt; [done|]. nia.
Qed.

(** C2.  For every positive batch size, [main] cuts [0, N) into the
    consecutive ranges [k * batch_size, min((k + 1) * batch_size, N)):
    all of them non-empty, all but the last of size [batch_size], each
    batch carrying the ids of its range; every position of the dataset lies
    in exactly one range, no range leaves [0, N), and the ids of the
    batches, joined, are the dataset.  For N = 4 and a batch size of 2 the
    ranges are [0, 2) and [2, 4). *)
Theorem batches_partition_the_ids name chunk_id corpus_embedding batch_size :
  0 < batch_size →
  ∃ batches,
    make_batches name chunk_id corpus_embedding batch_size = Some batches ∧
    (∀ (k : nat) b, batches !! k = Some b →
       start_idx b = Z.of_nat k * batch_size ∧
       end_idx b = (start_idx b + batch_size) `min` len chunk_id ∧
       0 ≤ start_idx b < end_idx b ∧ end_idx b ≤ len chunk_id ∧
       ((S k < length batches)%nat → end_idx b = start_idx b + batch_size) ∧
       (∀ b', batches !! S k = Some b' → start_idx b' = end_idx b) ∧
       batch_ids b = slice chunk_id (start_idx b) (end_idx b)) ∧
    (∀ i, 0 ≤ i < len chunk_id →
       ∃ k b, batches !! k = Some b ∧ start_idx b ≤ i < end_idx b ∧
              ∀ k' b', batches !! k' = Some b' → start_idx b' ≤ i < end_idx b' → k' = k) ∧
    mjoin (batch_ids <$> batches) = chunk_id ∧
    (len chunk_id = 4 → batch_size = 2 →
       (λ b, (start_idx b, end_idx b)) <$> batches = [(0, 2); (2, 4)]).
Proof.
  intros Hsize.
  destruct (make_batches_lookup name chunk_id corpus_embedding batch_size Hsize)
    as (batches & Hmk & Hlen & Hlookup).
  exists batches. split; [done|]. split; [|split; [|split]].
  - intros k b Hb. pose proof Hb as Hb'. apply Hlookup in Hb' as [Hk ->]. simpl.
    split; [done|]. split; [done|]. split; [lia|]. split; [lia|]. split; [|split; [|done]].
    + intros Hnext. rewrite Hlen in Hnext. apply range_len_lt in Hnext; lia.
    + intros b' Hb'. apply Hlookup in Hb' as [Hk' ->]. simpl. lia.
  - intros i Hi.
    pose proof (Z.div_mod i batch_size ltac:(lia)) as Hdiv.
    pose proof (Z.mod_pos_bound i batch_size Hsize) as Hmod.
    assert (0 ≤ i `div` batch_size) by (apply Z.div_pos; lia).
    exists (Z.to_nat (i `div` batch_size)), (nth_batch name chunk_id corpus_embedding batch_size
                                              (Z.to_nat (i `div` batch_size))).
    split; [apply Hlookup; split; [nia|done]|]. simpl. split; [nia|].
    intros k' b' Hb' Hi'. apply Hlookup in Hb' as [Hk' ->]. simpl in Hi'. nia.
  - by eapply join_batch_ids.
  - intros HN ->. unfold len in HN.
    destruct chunk_id as [|a [|b [|c [|d [|]]]]]; simpl in HN; try lia.
    vm_compute in Hmk. by injection Hmk as <-.
Qed.

End ingestion.

Lemma batches_partition_the_ids_witness :
  ∃ batches,
    DbInsertion.make_batches "SOICT" [1; 2; 3; 4] ["a"; "b"; "c"; "d"]%string 2
      = Some batches ∧
    (∀ (k : nat) b, batches !! k = Some b →
       DbInsertion.start_idx b = Z.of_nat k * 2 ∧
       DbInsertion.end_idx b = (DbInsertion.start_idx b + 2) `min` len [1; 2; 3; 4] ∧
       0 ≤ DbInsertion.start_idx b < DbInsertion.end_idx b ∧
       DbInsertion.end_idx b ≤ len [1; 2; 3; 4] ∧
       ((S k < length batches)%nat →
          DbInsertion.end_idx b = DbInsertion.start_idx b + 2) ∧
       (∀ b', batches !! S k = Some b' → DbInsertion.start_idx b' = DbInsertion.end_idx b) ∧
       DbInsertion.batch_ids b
         = slice [1; 2; 3; 4] (DbInsertion.start_idx b) (DbInsertion.end_idx b)) ∧
    (∀ i, 0 ≤ i < len [1; 2; 3; 4] →
       ∃ k b, batches !! k = Some b ∧
              DbInsertion.start_idx b ≤ i < DbInsertion.end_idx b ∧
              ∀ k' b', batches !! k' = Some b' →
                       DbInsertion.start_idx b' ≤ i < DbInsertion.end_idx b' → k' = k) ∧
    mjoin (DbInsertion.batch_ids <$> batches) = [1; 2; 3; 4] ∧
    (len [1; 2; 3; 4] = 4 → 2 = 2 →
       (λ b, (DbInsertion.start_idx b, DbInsertion.end_idx b)) <$> batches
       = [(0, 2); (2, 4)]).
Proof.
  apply (batches_partition_the_ids "SOICT" [1; 2; 3; 4] ["a"; "b"; "c"; "d"]%string 2).
  lia.
Defined.

Lemma filter_length_lt_iff {A} (P : A → Prop) `{∀ x, Decision (P x)} (l : list A) :
  (length (filter P l) < length l)%nat ↔ ∃ x, x ∈ l ∧ ¬ P x.
Proof.
  induction l as [|x l IH].
  - simpl. split; [lia|]. intros (x & Hx & _). by apply elem_of_nil in Hx.
  - pose proof (length_filter P l) as Hle.
    rewrite filter_cons. destruct (decide (P x)) as [HP|HP]; simpl.
    + rewrite <- Nat.succ_lt_mono, IH. split.
      * intros (y & Hy & HPy). exists y. split; [by right|done].
      * intros (y & Hy & HPy). apply elem_of_cons in Hy as [->|Hy]; [done|eauto].
    + split; [|lia]. intros _. exists x. split; [left|done].
Qed.

Lemma filter_fmap_length {A B} (f : A → B) (P : B → Prop) `{∀ y, Decision (P y)} (l : list A) :
  length (filter P (f <$> l)) = length (filter (λ x, P (f x)) l).
Proof.
  induction l as [|x l IH]; [done|].
  rewrite fmap_cons, !filter_cons. destruct (decide (P (f x))); simpl; by rewrite IH.
Qed.

Lemma filter_fmap_comm {A B} (f : A → B) (P : B → Prop) `{∀ y, Decision (P y)} (l : list A) :
  filter P (f <$> l) = f <$> filter (λ x, P (f x)) l.
Proof.
  induction l as [|x l IH]; [done|].
  rewrite fmap_cons, !filter_cons. destruct (decide (P (f x))); simpl; by rewrite IH.
Qed.

Section accounting.
Context {vector : Type}.
Implicit Types (chunk_id : list Z) (corpus_embedding : list vector).
Implicit Types (worker : @DbInsertion.batch vector → bool * option string).

Import DbInsertion.

(** C8, amended.  [main] makes no check of the two lengths.  For every
    positive batch size and whatever the lengths of the ids and of the
    vectors, the batches are cut along the ids alone, each batch takes the
    slice of the vectors with the bounds of its range (clipped to the
    vectors there are), and every batch is handed to a worker. *)
Theorem lengths_are_not_checked worker name chunk_id corpus_embedding batch_size :
  0 < batch_size →
  ∃ batches printed end_,
    make_batches name chunk_id corpus_embedding batch_size = Some batches ∧
    length batches = range_len 0 (len chunk_id) batch_size ∧
    (∀ b, b ∈ batches →
       batch_ids b = slice chunk_id (start_idx b) (end_idx b) ∧
       batch_embeddings b = slice corpus_embedding (start_idx b) (end_idx b)) ∧
    insert_all worker name chunk_id corpus_embedding batch_size
      = Checked (worker <$> batches) printed end_.
Proof.
  intros Hsize.
  destruct (make_batches_lookup name chunk_id corpus_embedding batch_size Hsize)
    as (batches & Hmk & Hlen & Hlookup).
  unfold insert_all. rewrite Hmk.
  destruct (check_results (worker <$> batches) (len batches)) as [printed end_].
  exists batches, printed, end_. split; [done|]. split; [done|]. split; [|done].
  intros b Hb. apply list_elem_of_lookup in Hb as [k Hk].
  by apply Hlookup in Hk as [_ ->].
Qed.

(** C1, amended.  The count of successes is the number of batches whose
    worker reported success, and it is printed with the number of batches
    whether or not a batch failed.  The insertion phase ends by raising if
    and only if some batch failed.  The exception is a generic one with a
    fixed message; every failed batch is reported on a line of its own,
    printed before the exception is raised, in the order of the batches.
    Nothing is undone: the results of the workers stand as they were
    reported. *)
Theorem failures_are_counted_and_printed worker name chunk_id corpus_embedding batch_size :
  0 < batch_size →
  ∃ batches printed end_,
    make_batches name chunk_id corpus_embedding batch_size = Some batches ∧
    insert_all worker name chunk_id corpus_embedding batch_size
      = Checked (worker <$> batches) printed end_ ∧
    success_count (worker <$> batches)
      = len (filter (λ b, (worker b).1 = true) batches) ∧
    (end_ = Raise (Exn Exception "Some batches failed to insert") ↔
       ∃ b, b ∈ batches ∧ (worker b).1 = false) ∧
    (end_ = Normal ↔ ∀ b, b ∈ batches → (worker b).1 = true) ∧
    head printed
      = Some ("Inserted " +:+ pretty (success_count (worker <$> batches)) +:+ "/"
                +:+ pretty (len batches) +:+ " batches successfully") ∧
    (end_ ≠ Normal →
       tail printed
       = "Failed batches:"%string
           :: ((λ b, print_error (worker b).2) <$> filter (λ b, (worker b).1 = false) batches)).
Proof.
  intros Hsize.
  destruct (make_batches_lookup name chunk_id corpus_embedding batch_size Hsize)
    as (batches & Hmk & _ & _).
  assert (success_count (worker <$> batches)
          = len (filter (λ b, (worker b).1 = true) batches)) as Hcount.
  { unfold success_count, len. by rewrite filter_fmap_length. }
  assert (success_count (worker <$> batches) < len batches ↔
          ∃ b, b ∈ batches ∧ (worker b).1 = false) as Hfailed.
  { rewrite Hcount. unfold len. rewrite <- Nat2Z.inj_lt, filter_length_lt_iff.
    split; intros (b & Hb & Hw); exists b; (split; [done|]); by destruct (worker b).1. }
  unfold insert_all, check_results. rewrite Hmk.
  destruct (decide (success_count (worker <$> batches) < len batches)) as [Hlt|Hge].
  - eexists batches, _, _. split; [done|]. split; [done|]. split; [done|].
    split; [by rewrite <- Hfailed|]. split; [|split; [done|]].
    + split; [done|]. intros Hall. apply Hfailed in Hlt as (b & Hb & Hw).
      rewrite (Hall b Hb) in Hw. done.
    + intros _. simpl. f_equal. unfold failed_lines.
      by rewrite filter_fmap_comm, <- list_fmap_compose.
  - eexists batches, _, _. split; [done|]. split; [done|]. split; [done|].
    split; [|split; [|split; [done|done]]].
    + split; [done|]. by rewrite <- Hfailed.
    + split; [|done]. intros _ b Hb. destruct (worker b).1 eqn:Hw; [done|].
      destruct Hge. apply Hfailed. eauto.
Qed.
End accounting.

(** C8, as stated, fails: two ids and one vector pass without a
    precondition error; the one batch, with its two ids and its single
    vector, goes to the worker and the phase ends normally when the worker
    reports success. *)
Lemma mismatched_lengths_are_dispatched :
  DbInsertion.make_batches "SOICT" [1; 2] ["v"]%string 1000
    = Some [DbInsertion.Batch "SOICT" 0 2 [1; 2] ["v"]%string] ∧
  DbInsertion.insert_all (λ _, (true, None)) "SOICT" [1; 2] ["v"]%string 1000
    = DbInsertion.Checked [(true, None)] ["Inserted 1/1 batches successfully"%string] Normal.
Proof. split; reflexivity. Qed.

Lemma lengths_are_not_checked_witness :
  ∃ batches printed end_,
    DbInsertion.make_batches "SOICT" [1; 2; 3] ["v"]%string 2 = Some batches ∧
    length batches = range_len 0 (len [1; 2; 3]) 2 ∧
    (∀ b, b ∈ batches →
       DbInsertion.batch_ids b
         = slice [1; 2; 3] (DbInsertion.start_idx b) (DbInsertion.end_idx b) ∧
       DbInsertion.batch_embeddings b
         = slice ["v"]%string (DbInsertion.start_idx b) (DbInsertion.end_idx b)) ∧
    DbInsertion.insert_all (λ _, (true, None)) "SOICT" [1; 2; 3] ["v"]%string 2
      = DbInsertion.Checked ((λ _, (true, None)) <$> batches) printed end_.
Proof.
  apply (lengths_are_not_checked (λ _, (true, None)) "SOICT" [1; 2; 3] ["v"]%string 2).
  lia.
Defined.

(** C1, as stated, fails: whichever batch failed, the exception raised is
    the same and names no range; the failed range and its message are in
    the lines printed before. *)
Lemma exception_names_no_range :
  DbInsertion.insert_all (fails_at 2) "SOICT" [1; 2; 3; 4] ["a"; "b"; "c"; "d"]%string 2
    = DbInsertion.Checked
        [(true, None); (false, Some "Error inserting batch 2:4: boom"%string)]
        ["Inserted 1/2 batches successfully"; "Failed batches:";
         "Error inserting batch 2:4: boom"]%string
        (Raise (Exn Exception "Some batches failed to insert")) ∧
  DbInsertion.insert_all (fails_at 0) "SOICT" [1; 2; 3; 4] ["a"; "b"; "c"; "d"]%string 2
    = DbInsertion.Checked
        [(false, Some "Error inserting batch 0:2: boom"%string); (true, None)]
        ["Inserted 1/2 batches successfully"; "Failed batches:";
         "Error inserting batch 0:2: boom"]%string
        (Raise (Exn Exception "Some batches failed to insert")).
Proof. split; reflexivity. Qed.

Lemma failures_are_counted_and_printed_witness :
  ∃ batches printed end_,
    DbInsertion.make_batches "SOICT" [1; 2; 3; 4] ["a"; "b"; "c"; "d"]%string 2
      = Some batches ∧
    DbInsertion.insert_all (fails_at 2) "SOICT" [1; 2; 3; 4] ["a"; "b"; "c"; "d"]%string 2
      = DbInsertion.Checked (fails_at 2 <$> batches) printed end_ ∧
    DbInsertion.success_count (fails_at 2 <$> batches)
      = len (filter (λ b, (fails_at 2 b).1 = true) batches) ∧
    (end_ = Raise (Exn Exception "Some batches failed to insert") ↔
       ∃ b, b ∈ batches ∧ (fails_at 2 b).1 = false) ∧
    (end_ = Normal ↔ ∀ b, b ∈ batches → (fails_at 2 b).1 = true) ∧
    head printed
      = Some ("Inserted " +:+ pretty (DbInsertion.success_count (fails_at 2 <$> batches))
                +:+ "/" +:+ pretty (len batches) +:+ " batches successfully") ∧
    (end_ ≠ Normal →
       tail printed
       = "Failed batches:"%string
           :: ((λ b, DbInsertion.print_error (fails_at 2 b).2)
                 <$> filter (λ b, (fails_at 2 b).1 = false) batches)).
Proof.
  apply (failures_are_counted_and_printed (fails_at 2) "SOICT" [1; 2; 3; 4]
           ["a"; "b"; "c"; "d"]%string 2).
  lia.
Defined.

(** ** replace_index of index.py *)

Section replace_index_facts.
Import Index.

Ltac unfold_E :=
  unfold replace_index, replace_index_try, rpc, say, start, mbind, E_bind, mret, E_ret in *.

(** C5, a defect of the code.  [replace_index] cannot be run twice to the
    same end, because with the real client it is never run to its end:
    line 38 calls [collection.is_loaded()], a method that pymilvus'
    [Collection] does not have.  Whatever the state of the collection and
    whatever else the store does, the first call raises at that line at
    the latest, prints the error and returns [False]; it makes no
    lifecycle call (release, drop, create, load) and leaves the collection
    as it was, and so does a second call.  Unless the collection was
    already loaded with the given index, neither call ends in the state
    that the claim promises. *)
Theorem replace_index_stops_at_is_loaded plan name index_params s :
  let spec := default default_index_params index_params in
  let once := replace_index (real_client plan) name index_params (start s) in
  let twice := replace_index (real_client plan) name index_params (start (coll once.2)) in
  once.1 = false ∧ coll once.2 = s ∧
  twice.1 = false ∧ coll twice.2 = s ∧
  Forall (λ c, is_step c = false) (calls once.2) ∧
  (plan Open = None →
   calls once.2 = [Open; IsLoaded] ∧
   out once.2 = ["Error during index replacement: " +:+ no_is_loaded]) ∧
  (s ≠ Collection true (Some spec) → coll twice.2 ≠ Collection true (Some spec)).
Proof.
  intros spec once twice. subst once twice. unfold_E. unfold real_client. simpl.
  destruct (plan Open) as [msg|] eqn:Hopen; simpl; rewrite ?Hopen; simpl;
    split_and!; try reflexivity; try (intros [=]); try (intros Hs; exact Hs);
    try (split; reflexivity);
    repeat (apply Forall_cons; split; [reflexivity|]); apply Forall_nil_2.
Qed.

End replace_index_facts.



(** ** perform_search of query.py *)

Section search_facts.
Context {vector score : Type}.
Implicit Types (result : list (@Query.hit score)) (corpus_df : list Query.row).

Import Query.

Lemma elem_of_aggregate_cid corpus_df i j result x :
  x ∈ cid (aggregate corpus_df i j result) ↔
  ∃ r, r ∈ corpus_df ∧ chunk_id r ∈ (id <$> result) ∧ row_cid r = x.
Proof.
  unfold aggregate. simpl. rewrite <- list_fmap_compose.
  rewrite elem_of_list_to_set, list_elem_of_fmap. split.
  - intros (r & -> & Hr). apply list_elem_of_filter in Hr as [Hid Hr]. eauto.
  - intros (r & Hr & Hid & <-). exists r. split; [done|].
    by apply list_elem_of_filter.
Qed.

Lemma elem_of_parent_mapping corpus_df c x :
  x ∈ parent_mapping corpus_df c ↔ ∃ r, r ∈ corpus_df ∧ chunk_id r = c ∧ row_cid r = x.
Proof.
  unfold parent_mapping. rewrite elem_of_list_to_set, list_elem_of_fmap. split.
  - intros (r & -> & Hr). apply list_elem_of_filter in Hr as [Hid Hr]. eauto.
  - intros (r & Hr & Hid & <-). exists r. split; [done|].
    by apply list_elem_of_filter.
Qed.

Lemma cid_three_hits i j (d1 d2 d3 : score) :
  cid (aggregate [Row 10 100; Row 11 100; Row 12 200] i j
         [Hit 10 d1; Hit 11 d2; Hit 12 d3])
  = {[100; 200]}.
Proof.
  apply set_eq. intros x. rewrite elem_of_aggregate_cid. simpl. split.
  - intros (r & Hr & _ & <-). set_solver.
  - intros Hx. apply elem_of_union in Hx as [Hx|Hx]; apply elem_of_singleton in Hx as ->.
    + exists (Row 10 100). set_solver.
    + exists (Row 12 200). set_solver.
Qed.

(** C6.  The parent ids of a query are the union of the parent ids that
    the mapping table gives for its hit ids, as a set: the same for every
    permutation of the hits.  The similarities are the scores of the hits
    in the order of the hits, one per hit.  The list of the similarities
    can be longer than the set of the parent ids: three hits of two parents
    give three scores.  A query without hits has no parent id and no
    similarity. *)
Theorem parent_ids_are_a_set_and_scores_a_sequence corpus_df i j result :
  cid (aggregate corpus_df i j result) = ⋃ (parent_mapping corpus_df <$> (id <$> result)) ∧
  (∀ result', result' ≡ₚ result →
     cid (aggregate corpus_df i j result') = cid (aggregate corpus_df i j result)) ∧
  cosine (aggregate corpus_df i j result) = distance <$> result ∧
  length (cosine (aggregate corpus_df i j result)) = length result ∧
  (∀ d1 d2 d3 : score,
     let three := aggregate [Row 10 100; Row 11 100; Row 12 200] i j
                    [Hit 10 d1; Hit 11 d2; Hit 12 d3] in
     cid three = {[100; 200]} ∧ cosine three = [d1; d2; d3] ∧
     (size (cid three) < length (cosine three))%nat) ∧
  cid (aggregate corpus_df i j (@nil (@hit score))) = ∅ ∧
  cosine (aggregate corpus_df i j (@nil (@hit score))) = [].
Proof.
  split; [|split; [|split; [|split; [|split; [|split]]]]].
  - apply set_eq. intros x.
    rewrite elem_of_aggregate_cid, elem_of_union_list. split.
    + intros (r & Hr & Hid & <-). exists (parent_mapping corpus_df (chunk_id r)).
      split; [by apply list_elem_of_fmap_2|]. apply elem_of_parent_mapping. eauto.
    + intros (X & HX & Hx). apply list_elem_of_fmap in HX as (c & -> & Hc).
      apply elem_of_parent_mapping in Hx as (r & Hr & <- & <-). eauto.
  - intros result' Hperm. apply set_eq. intros x.
    rewrite !elem_of_aggregate_cid. by setoid_rewrite Hperm.
  - unfold aggregate. simpl. by rewrite <- list_fmap_compose.
  - unfold aggregate. simpl. by rewrite !length_fmap.
  - intros d1 d2 d3 three.
    pose proof (cid_three_hits i j d1 d2 d3) as Hcid. fold three in Hcid.
    split; [done|]. split; [done|]. rewrite Hcid.
    change (cosine three) with [d1; d2; d3].
    rewrite size_union by set_solver. rewrite !size_singleton. simpl. lia.
  - apply set_eq. intros x. rewrite elem_of_aggregate_cid. simpl. set_solver.
  - done.
Qed.
End search_facts.

Lemma foldl_app_join {A B} (f : A → list B) (l : list A) (acc : list B) :
  foldl (λ acc x, acc ++ f x) acc l = acc ++ mjoin (f <$> l).
Proof.
  revert acc. induction l as [|x l IH]; intros acc; simpl.
  - by rewrite app_nil_r.
  - by rewrite IH, (assoc_L (++)).
Qed.

Lemma fmap_join {A B} (f : A → B) (ls : list (list A)) :
  f <$> mjoin ls = mjoin (fmap f <$> ls).
Proof.
  induction ls as [|l ls IH]; [done|]. simpl. by rewrite fmap_app, IH.
Qed.

Lemma length_slice {A} (l : list A) (i step : Z) :
  0 < step → 0 ≤ i ≤ len l →
  len (slice l i (i + step)) = step `min` (len l - i).
Proof.
  intros Hstep Hi. unfold slice, len in *. rewrite length_take, length_drop. lia.
Qed.

Section search_loop.
Context {vector score : Type}.
Context (search : list vector → Z → list (list (@Query.hit score))).
Implicit Types (question_embedding : list vector) (corpus_df : list Query.row).

Import Query.

Lemma qid_imap_aggregate corpus_df i (results : list (list (@hit score))) :
  qid <$> imap (aggregate corpus_df i) results = seqZ i (len results).
Proof.
  rewrite fmap_imap. unfold seqZ, len. rewrite Nat2Z.id, <- imap_seq_0.
  apply imap_ext. intros j r _. simpl. lia.
Qed.

(** The query indices of the first [m] batches. *)
Lemma qids_of_batches question_embedding corpus_df top_k batch_size (m : nat) :
  0 < batch_size →
  (∀ batch, length (search batch top_k) = length batch) →
  (m ≤ range_len 0 (len question_embedding) batch_size)%nat →
  mjoin ((λ k : nat,
            qid <$> imap (aggregate corpus_df (0 + Z.of_nat k * batch_size))
                      (search (slice question_embedding (0 + Z.of_nat k * batch_size)
                                 (0 + Z.of_nat k * batch_size + batch_size)) top_k))
           <$> seq 0 m)
  = seqZ 0 ((Z.of_nat m * batch_size) `min` len question_embedding).
Proof.
  intros Hsize Hsearch. induction m as [|m IH]; intros Hm.
  - simpl. rewrite Z.min_l by (unfold len; lia). done.
  - rewrite seq_S, fmap_app, join_app, IH by lia. simpl. rewrite app_nil_r.
    assert (Z.of_nat m * batch_size < len question_embedding) as Hlt
      by (apply range_len_lt; [done|lia]).
    rewrite qid_imap_aggregate. unfold len at 2. rewrite Hsearch, Z.add_0_l.
    pose proof (length_slice question_embedding (Z.of_nat m * batch_size) batch_size
                  Hsize ltac:(lia)) as Hslice.
    unfold len at 1 in Hslice. rewrite Hslice.
    rewrite Z.min_l by lia.
    rewrite <- seqZ_app by lia. f_equal. lia.
Qed.

(** C7, amended.  For every positive batch size and a store that answers
    one hit list per query vector of a batch, [perform_search] gives the
    j-th query of the batch that starts at offset [i] the query index
    [i + j], returns one result per query vector, and the query indices of
    the results are 0, 1, 2, ... in this order: the k-th result is the one
    of the k-th query vector. *)
Theorem query_indices_count_up question_embedding corpus_df top_k batch_size :
  0 < batch_size →
  (∀ batch, length (search batch top_k) = length batch) →
  ∃ results,
    perform_search search question_embedding corpus_df top_k batch_size = Some results ∧
    results
      = mjoin ((λ k : nat,
                  let i := Z.of_nat k * batch_size in
                  imap (aggregate corpus_df i)
                       (search (slice question_embedding i (i + batch_size)) top_k))
                 <$> seq 0 (range_len 0 (len question_embedding) batch_size)) ∧
    (∀ i j (result : list (@hit score)),
       qid (aggregate corpus_df i j result) = i + Z.of_nat j) ∧
    qid <$> results = seqZ 0 (len question_embedding) ∧
    length results = length question_embedding ∧
    (∀ (k : nat) r, results !! k = Some r → qid r = Z.of_nat k).
Proof.
  intros Hsize Hsearch.
  unfold perform_search, py_range. rewrite decide_False by lia.
  eexists. split; [done|].
  rewrite foldl_app_join. simpl. rewrite <- list_fmap_compose.
  set (results := mjoin _).
  assert (qid <$> results = seqZ 0 (len question_embedding)) as Hqids.
  { unfold results. rewrite fmap_join, <- list_fmap_compose.
    etransitivity; [apply (qids_of_batches question_embedding corpus_df top_k batch_size
                             (range_len 0 (len question_embedding) batch_size)); done|].
    f_equal. unfold len.
    destruct (decide (length question_embedding = 0)%nat) as [->|]; [simpl; lia|].
    apply Z.min_r.
    destruct (decide (Z.of_nat (length question_embedding)
                      ≤ Z.of_nat (range_len 0 (Z.of_nat (length question_embedding)) batch_size)
                        * batch_size)); [done|].
    assert (range_len 0 (Z.of_nat (length question_embedding)) batch_size
            < range_len 0 (Z.of_nat (length question_embedding)) batch_size)%nat; [|lia].
    apply range_len_lt; [done|]. lia. }
  split; [done|]. split; [done|]. split; [done|].
  assert (length results = length question_embedding) as Hlen.
  { rewrite <- (length_fmap qid), Hqids, length_seqZ. unfold len. lia. }
  split; [done|].
  intros k r Hr.
  assert ((qid <$> results) !! k = Some (qid r)) as Hk by (by rewrite list_lookup_fmap, Hr).
  rewrite Hqids in Hk. apply lookup_seqZ in Hk as [-> _]. lia.
Qed.
End search_loop.

Lemma query_indices_count_up_witness :
  ∃ results,
    Query.perform_search no_hits ["q0"; "q1"; "q2"]%string [] 50 2 = Some results ∧
    results
      = mjoin ((λ k : nat,
                  let i := Z.of_nat k * 2 in
                  imap (Query.aggregate [] i)
                       (no_hits (slice ["q0"; "q1"; "q2"]%string i (i + 2)) 50))
                 <$> seq 0 (range_len 0 (len ["q0"; "q1"; "q2"]%string) 2)) ∧
    (∀ i j (result : list (@Query.hit Z)),
       Query.qid (Query.aggregate [] i j result) = i + Z.of_nat j) ∧
    Query.qid <$> results = seqZ 0 (len ["q0"; "q1"; "q2"]%string) ∧
    length results = length ["q0"; "q1"; "q2"]%string ∧
    (∀ (k : nat) r, results !! k = Some r → Query.qid r = Z.of_nat k).
Proof.
  apply (query_indices_count_up no_hits ["q0"; "q1"; "q2"]%string [] 50 2); [lia|].
  intros batch. unfold no_hits. by rewrite length_fmap.
Defined.

(** C7, as stated, fails for batch sizes that are not positive: with a
    batch size of 0 [range] raises and there is no result at all, and with
    a negative one the loop does not run and a query gets no result. *)
Lemma nonpositive_batch_size_loses_queries :
  Query.perform_search no_hits ["q0"]%string [] 50 0 = None ∧
  Query.perform_search no_hits ["q0"]%string [] 50 (-1) = Some [] ∧
  (¬ ∃ results,
       Query.perform_search no_hits ["q0"]%string [] 50 0 = Some results ∧
       length results = length ["q0"]%string) ∧
  (¬ ∃ results,
       Query.perform_search no_hits ["q0"]%string [] 50 (-1) = Some results ∧
       length results = length ["q0"]%string).
Proof.
  split; [reflexivity|]. split; [reflexivity|].
  split; intros (results & Hrun & Hlen); vm_compute in Hrun; [done|].
  injection Hrun as <-. done.
Qed.

Lemma parent_ids_are_a_set_and_scores_a_sequence_witness :
  Query.cid (Query.aggregate [Query.Row 10 100; Query.Row 12 200] 0 0
               [Query.Hit 12 7; Query.Hit 10 9])
  = Query.cid (Query.aggregate [Query.Row 10 100; Query.Row 12 200] 0 0
                 [Query.Hit 10 9; Query.Hit 12 7]).
Proof.
  apply (parent_ids_are_a_set_and_scores_a_sequence
           [Query.Row 10 100; Query.Row 12 200] 0 0 [Query.Hit 10 9; Query.Hit 12 7]).
  apply Permutation_swap.
Defined.

(** ** The scenarios of the specification *)

(** Five ids in batches of two: the last batch is shorter. *)
Example five_ids_in_batches_of_two :
  DbInsertion.make_batches "SOICT" [1; 2; 3; 4; 5] ["a"; "b"; "c"; "d"; "e"]%string 2
  = Some [DbInsertion.Batch "SOICT" 0 2 [1; 2] ["a"; "b"]%string;
          DbInsertion.Batch "SOICT" 2 4 [3; 4] ["c"; "d"]%string;
          DbInsertion.Batch "SOICT" 4 5 [5] ["e"]%string].
Proof. reflexivity. Qed.

(** Three hits, two of them chunks of the same parent. *)
Example three_hits_two_parents :
  let r := Query.aggregate [Query.Row 10 100; Query.Row 11 100; Query.Row 12 200] 0 0
             [Query.Hit 10 "0.9"; Query.Hit 11 "0.8"; Query.Hit 12 "0.7"]%string in
  Query.qid r = 0 ∧ elements (Query.cid r) ≡ₚ [100; 200] ∧
  Query.cosine r = ["0.9"; "0.8"; "0.7"]%string.
Proof.
  split; [done|]. split; [|done].
  apply NoDup_Permutation; [apply NoDup_elements| |].
  - repeat constructor; set_solver.
  - intros x. rewrite elem_of_elements, cid_three_hits. set_solver.
Qed.

(** No query vector, no result. *)
Example no_query_no_result :
  Query.perform_search no_hits [] [Query.Row 10 100] 50 100 = Some [].
Proof. reflexivity. Qed.

(** * More of the code *)

(** ** The connector, whatever the body and the store *)

Section connector_more.
Context (st : store) (v : variant) (alias : string) (retries retry_delay : Z).

Local Abbreviation attempts := (attempts st v alias retries retry_delay).
Local Abbreviation cm_exit := (cm_exit st v alias retries retry_delay).
Local Abbreviation with_connection := (with_connection st v alias retries retry_delay).

(** A loop that has attempts left does not run to its end without a
    [yield] or an exception. *)
Lemma attempts_not_returned (n : nat) : ∀ a w,
  a + Z.of_nat (S n) = retries →
  (attempts (seqZ a (Z.of_nat (S n))) w).1 ≠ Returned.
Proof.
  induction n as [|n IH]; intros a w Hn; rewrite seqZ_S; simpl; unfold_M;
    (destruct (connect_result st (n_connect w)) as [msg|]; simpl; [|done]);
    case_bool_decide; try lia.
  - by destruct (scope v).
  - destruct (decide (retry_delay < 0)); [by destruct (scope v)|].
    destruct (scope v); simpl; apply IH; lia.
Qed.

(** Where the generator yields: at an attempt below [retries], with the
    later attempts left. *)
Lemma attempts_yielded (n : nat) : ∀ a w a' rest w',
  a + Z.of_nat n = retries →
  attempts (seqZ a (Z.of_nat n)) w = (Yielded a' rest, w') →
  a ≤ a' < retries ∧ rest = seqZ (a' + 1) (retries - a' - 1).
Proof.
  induction n as [|n IH]; intros a w a' rest w' Hn.
  - simpl. unfold_M. by destruct (scope v).
  - rewrite seqZ_S. simpl. unfold_M.
    destruct (connect_result st (n_connect w)) as [msg|]; simpl.
    + case_bool_decide; [by destruct (scope v)|].
      destruct (decide (retry_delay < 0)); [by destruct (scope v)|].
      destruct (scope v); simpl; intros Hrun; apply IH in Hrun; (lia || naive_solver lia).
    + intros [= <- <- <-]. split; [lia|]. f_equal; lia.
Qed.

(** An exception thrown into the generator is never swallowed: the
    generator raises or yields again. *)
Lemma throw_not_returned a e w :
  0 ≤ a < retries →
  (throw st v alias retries retry_delay a (seqZ (a + 1) (retries - a - 1)) e w).1 ≠ Returned.
Proof.
  intros Ha. unfold_M. destruct (is_Exception e); [|by destruct (scope v)].
  case_bool_decide; [by destruct (scope v)|].
  destruct (decide (retry_delay < 0)); [by destruct (scope v)|].
  replace (retries - a - 1) with (Z.of_nat (S (Z.to_nat (retries - a - 2)))) by lia.
  destruct (scope v); simpl; apply attempts_not_returned; lia.
Qed.

Lemma with_connection_normal body :
  (with_connection body init).1 = Normal →
  body = None ∧
  body_runs (log (with_connection body init).2) = 1%nat ∧
  leaked alias false (log (with_connection body init).2) = false.
Proof.
  intros Hnormal.
  split; [|split; [|apply with_connection_released]].
  - revert Hnormal. unfold with_connection, range, mbind, M_bind.
    destruct (attempts (seqZ 0 retries) init) as [[a rest| |e] w1] eqn:Henter;
      simpl; try done.
    destruct body as [e|]; [|done]. intros Hnormal. exfalso.
    assert (0 ≤ a < retries ∧ rest = seqZ (a + 1) (retries - a - 1)) as [Ha ->].
    { destruct (decide (0 ≤ retries)).
      - apply (attempts_yielded (Z.to_nat retries) 0 init a rest w1); [lia|].
        by rewrite Z2Nat.id.
      - revert Henter. rewrite seqZ_nil by lia. simpl. unfold_M. by destruct (scope v). }
    revert Hnormal. unfold_exit. set (w2 := World _ _ _).
    pose proof (throw_not_returned a e w2 Ha) as Hthrow.
    destruct (throw st v alias retries retry_delay a (seqZ (a + 1) (retries - a - 1)) e w2)
      as [[a' rest'| |e'] w3]; simpl in *; try done.
    by destruct (close st v alias w3).
  - revert Hnormal. unfold with_connection, mbind, M_bind.
    pose proof (attempts_body_runs st v alias retries retry_delay (range retries) init)
      as Henter.
    destruct (attempts (range retries) init) as [[a rest| |e] w1]; simpl in *; try done.
    intros _. rewrite cm_exit_body_runs. simpl. rewrite body_runs_app, Henter. done.
Qed.

(** With the [break] of db_insertion.py the generator stops when it is
    resumed after the body: one call of [disconnect], under either
    reading of the [finally] clause. *)
Lemma cm_exit_break a rest w :
  break_after_yield v = true →
  ∃ b, cm_exit None a rest w
       = (Normal, World (n_connect w) (S (n_disconnect w))
                        (log w ++ [EvDisconnect alias b])).
Proof.
  intros Hbreak. unfold_M. rewrite Hbreak. destruct (scope v); simpl; eauto.
Qed.

(** Without the [break], the generator that is resumed after the body
    of the last attempt stops ... *)
Lemma cm_exit_no_break_last a w :
  break_after_yield v = false →
  (cm_exit None a [] w).1 = Normal.
Proof.
  intros Hbreak. unfold_M. rewrite Hbreak. simpl. unfold_M. by destruct (scope v).
Qed.

(** ... and after the body of an earlier attempt it does not. *)
Lemma cm_exit_no_break_earlier a (m : nat) w :
  break_after_yield v = false →
  a + 1 + Z.of_nat (S m) = retries →
  (cm_exit None a (seqZ (a + 1) (Z.of_nat (S m))) w).1 ≠ Normal.
Proof.
  intros Hbreak Ha. unfold_exit. unfold resume. rewrite Hbreak. unfold mbind, M_bind.
  destruct (finally_attempt st v alias w) as [[] w2].
  pose proof (attempts_not_returned m (a + 1) w2 ltac:(lia)) as Hnext.
  destruct (attempts (seqZ (a + 1) (Z.of_nat (S m))) w2) as [[a' rest'| |e'] w3];
    simpl in *; try done.
  by destruct (close st v alias w3).
Qed.

(** The generator calls [connect] once per attempt it starts. *)
Lemma attempts_connect_bound todo : ∀ w,
  match (attempts todo w).1 with
  | Yielded _ rest => (n_connect (attempts todo w).2 + length rest ≤ n_connect w + length todo)%nat
  | _ => (n_connect (attempts todo w).2 ≤ n_connect w + length todo)%nat
  end.
Proof.
  induction todo as [|a rest IH]; intros w; simpl; unfold_M.
  - destruct (scope v); simpl; lia.
  - destruct (connect_result st (n_connect w)) as [msg|]; simpl; [|lia].
    case_bool_decide; [destruct (scope v); simpl; lia|].
    destruct (decide (retry_delay < 0)); [destruct (scope v); simpl; lia|].
    destruct (scope v); simpl;
      match goal with |- context [attempts rest ?w'] =>
        specialize (IH w'); destruct (attempts rest w') as [[| |] ?] end;
      simpl in *; lia.
Qed.

Lemma cm_exit_connect_bound body a rest w :
  (n_connect (cm_exit body a rest w).2 ≤ n_connect w + length rest)%nat.
Proof.
  unfold_exit. destruct body as [e|].
  - unfold throw, except_clause, mbind, M_bind.
    destruct (is_Exception e); [case_bool_decide|]; unfold_M;
      [destruct (scope v); simpl; lia| |destruct (scope v); simpl; lia].
    destruct (decide (retry_delay < 0)); [destruct (scope v); simpl; lia|].
    destruct (scope v); simpl;
      match goal with |- context [attempts rest ?w'] =>
        pose proof (attempts_connect_bound rest w') as Hnext;
        destruct (attempts rest w') as [[| |] ?] end;
      simpl in *; lia.
  - unfold resume. destruct (break_after_yield v); unfold_M.
    + destruct (scope v); simpl; lia.
    + destruct (scope v); simpl;
        match goal with |- context [attempts rest ?w'] =>
          pose proof (attempts_connect_bound rest w') as Hnext;
          destruct (attempts rest w') as [[| |] ?] end;
        simpl in *; lia.
Qed.

Lemma with_connection_connect_bound body :
  (n_connect (with_connection body init).2 ≤ Z.to_nat retries)%nat.
Proof.
  unfold with_connection, mbind, M_bind.
  pose proof (attempts_connect_bound (range retries) init) as Henter.
  unfold range in *. rewrite length_seqZ in Henter.
  destruct (attempts (seqZ 0 retries) init) as [[a rest| |e] w1]; simpl in *; try lia.
  etransitivity; [apply cm_exit_connect_bound|]. simpl. lia.
Qed.

Lemma waits_app l l' : waits (l ++ l') = (waits l + waits l')%nat.
Proof. induction l as [|[] l IH]; simpl; by rewrite ?IH. Qed.

(** The generator waits only between two attempts. *)
Lemma attempts_waits (n : nat) : ∀ a w,
  a + Z.of_nat n = retries →
  match (attempts (seqZ a (Z.of_nat n)) w).1 with
  | Yielded a' _ =>
      a' < retries ∧
      Z.of_nat (waits (log (attempts (seqZ a (Z.of_nat n)) w).2))
        ≤ Z.of_nat (waits (log w)) + (a' - a)
  | _ =>
      Z.of_nat (waits (log (attempts (seqZ a (Z.of_nat n)) w).2))
        ≤ Z.of_nat (waits (log w)) + Z.max 0 (Z.of_nat n - 1)
  end.
Proof.
  induction n as [|n IH]; intros a w Hn.
  - simpl. unfold_M. destruct (scope v); simpl; rewrite ?waits_app; simpl; lia.
  - rewrite seqZ_S. simpl. unfold_M.
    destruct (connect_result st (n_connect w)) as [msg|]; simpl;
      [|rewrite waits_app; simpl; lia].
    case_bool_decide; [destruct (scope v); simpl; rewrite ?waits_app; simpl; lia|].
    destruct (decide (retry_delay < 0));
      [destruct (scope v); simpl; rewrite ?waits_app; simpl; lia|].
    destruct (scope v); simpl;
      match goal with |- context [attempts _ ?w'] =>
        specialize (IH (a + 1) w' ltac:(lia));
        destruct (attempts (seqZ (a + 1) (Z.of_nat n)) w') as [[| |] ?] end;
      simpl in *; rewrite ?waits_app in IH; simpl in IH; rewrite ?waits_app in IH;
      simpl in IH; lia.
Qed.

Lemma cm_exit_waits body a w :
  0 ≤ a < retries →
  Z.of_nat (waits (log (cm_exit body a (seqZ (a + 1) (retries - a - 1)) w).2))
    ≤ Z.of_nat (waits (log w)) + (retries - 1 - a).
Proof.
  intros Ha.
  replace (retries - a - 1) with (Z.of_nat (Z.to_nat (retries - a - 1))) by lia.
  unfold_exit. destruct body as [e|].
  - unfold throw, except_clause, mbind, M_bind.
    destruct (is_Exception e); [case_bool_decide|]; unfold_M;
      [destruct (scope v); simpl; rewrite ?waits_app; simpl; lia|
       |destruct (scope v); simpl; rewrite ?waits_app; simpl; lia].
    destruct (decide (retry_delay < 0));
      [destruct (scope v); simpl; rewrite ?waits_app; simpl; lia|].
    destruct (scope v); simpl;
      match goal with |- context [attempts ?todo ?w'] =>
        pose proof (attempts_waits (Z.to_nat (retries - a - 1)) (a + 1) w' ltac:(lia))
          as Hnext;
        destruct (attempts todo w') as [[| |] ?] end;
      simpl in *; rewrite ?waits_app in *; simpl in *; rewrite ?waits_app in *;
      simpl in *; lia.
  - unfold resume. destruct (break_after_yield v); unfold_M.
    + destruct (scope v); simpl; rewrite ?waits_app; simpl; lia.
    + destruct (scope v); simpl;
        match goal with |- context [attempts ?todo ?w'] =>
          pose proof (attempts_waits (Z.to_nat (retries - a - 1)) (a + 1) w' ltac:(lia))
            as Hnext;
          destruct (attempts todo w') as [[| |] ?] end;
        simpl in *; rewrite ?waits_app in *; simpl in *; rewrite ?waits_app in *;
        simpl in *; lia.
Qed.

Lemma with_connection_waits body :
  Z.of_nat (waits (log (with_connection body init).2)) ≤ Z.max 0 (retries - 1).
Proof.
  unfold with_connection, range, mbind, M_bind.
  destruct (decide (0 ≤ retries)) as [Hretries|Hretries].
  - pose proof (attempts_waits (Z.to_nat retries) 0 init ltac:(lia)) as Henter.
    rewrite Z2Nat.id in Henter by done.
    destruct (attempts (seqZ 0 retries) init) as [[a rest| |e] w1] eqn:Hrun;
      simpl in *; try lia.
    destruct (attempts_yielded (Z.to_nat retries) 0 init a rest w1) as [Ha ->];
      [lia|by rewrite Z2Nat.id|].
    etransitivity; [apply cm_exit_waits; lia|]. simpl. rewrite waits_app. simpl. lia.
  - rewrite seqZ_nil by lia. simpl. unfold_M.
    destruct (scope v); simpl; lia.
Qed.

(** What the generator raises is an [Exception]: the connector has no
    other [raise], and the store raises nothing else. *)
Lemma attempts_raised_class todo : ∀ w e,
  (attempts todo w).1 = Raised e → is_Exception e = true.
Proof.
  induction todo as [|a rest IH]; intros w e; simpl; unfold_M.
  - by destruct (scope v).
  - destruct (connect_result st (n_connect w)) as [msg|]; simpl; [|done].
    case_bool_decide; [destruct (scope v); simpl; by intros [= <-]|].
    destruct (decide (retry_delay < 0)); [destruct (scope v); simpl; by intros [= <-]|].
    destruct (scope v); simpl; apply IH.
Qed.

Lemma with_connection_raised_class body e :
  (∀ e', body = Some e' → is_Exception e' = true) →
  (with_connection body init).1 = Raise e → is_Exception e = true.
Proof.
  intros Hbody. unfold with_connection, mbind, M_bind.
  pose proof (attempts_raised_class (range retries) init) as Henter.
  destruct (attempts (range retries) init) as [[a rest| |e1] w1]; simpl in *;
    [|by intros [= <-]|intros [= <-]; by apply Henter].
  unfold_exit. set (w2 := World _ _ _). destruct body as [e1|].
  - unfold throw, except_clause, mbind, M_bind. rewrite (Hbody e1 eq_refl).
    case_bool_decide; unfold_M; [destruct (scope v); simpl; by intros [= <-]|].
    destruct (decide (retry_delay < 0)); [destruct (scope v); simpl; by intros [= <-]|].
    destruct (scope v); simpl;
      match goal with |- context [attempts rest ?w'] =>
        pose proof (attempts_raised_class rest w') as Hnext;
        destruct (attempts rest w') as [[| |e2] ?] end;
      simpl in *; try done; intros [= <-]; auto.
  - unfold resume. destruct (break_after_yield v); unfold_M;
      [by destruct (scope v)|].
    destruct (scope v); simpl;
      match goal with |- context [attempts rest ?w'] =>
        pose proof (attempts_raised_class rest w') as Hnext;
        destruct (attempts rest w') as [[| |e2] ?] end;
      simpl in *; try done; intros [= <-]; auto.
Qed.

(** How a [with] statement can end when the body raises nothing but
    [Exception]s and the waits are possible. *)
Lemma with_connection_cases body :
  0 ≤ retry_delay →
  (∀ e, body = Some e → is_Exception e = true) →
  let ended := (with_connection body init).1 in
  ended = Normal ∨
  (∃ line, ended = Raise (Exn RuntimeError line)) ∨
  (∃ e, ended = Raise (failed_to_connect retries e)).
Proof.
  intros Hdelay Hbody ended. subst ended. unfold with_connection, range, mbind, M_bind.
  destruct (decide (0 ≤ retries)) as [Hretries|Hretries];
    [|rewrite seqZ_nil by lia; simpl; unfold_M; destruct (scope v); simpl; eauto].
  pose proof (attempts_cases st v alias retries retry_delay (Z.to_nat retries) 0 init
                Hdelay ltac:(lia)) as Henter.
  rewrite Z2Nat.id in Henter by done.
  destruct (attempts (seqZ 0 retries) init) as [[a rest| |e] w1] eqn:Hrun; simpl in *;
    [|eauto|destruct Henter as [msg ->]; eauto].
  destruct (attempts_yielded (Z.to_nat retries) 0 init a rest w1) as [Ha ->];
    [lia|by rewrite Z2Nat.id|].
  unfold_exit. set (w2 := World _ _ _).
  assert (∀ w', match (attempts (seqZ (a + 1) (retries - a - 1)) w').1 with
                | Raised e' => ∃ msg, e' = failed_to_connect retries (Exn Exception msg)
                | _ => True
                end) as Hnext.
  { intros w'.
    pose proof (attempts_cases st v alias retries retry_delay (Z.to_nat (retries - a - 1))
                  (a + 1) w' Hdelay ltac:(lia)) as Hcases.
    rewrite Z2Nat.id in Hcases by lia.
    by destruct (attempts (seqZ (a + 1) (retries - a - 1)) w') as [[| |] ?]. }
  destruct body as [e|].
  - unfold throw, except_clause, mbind, M_bind. rewrite (Hbody e eq_refl).
    case_bool_decide; unfold_M; [destruct (scope v); simpl; eauto|].
    rewrite decide_False by lia.
    destruct (scope v); simpl;
      match goal with |- context [attempts ?todo ?w'] =>
        specialize (Hnext w'); destruct (attempts todo w') as [[| |e2] ?] end;
      simpl in *; eauto; destruct Hnext as [msg ->]; eauto.
  - unfold resume. destruct (break_after_yield v); unfold_M;
      [destruct (scope v); simpl; eauto|].
    destruct (scope v); simpl;
      match goal with |- context [attempts ?todo ?w'] =>
        specialize (Hnext w'); destruct (attempts todo w') as [[| |e2] ?] end;
      simpl in *; eauto; destruct Hnext as [msg ->]; eauto.
Qed.

(** When every attempt is rejected, the statement does not end normally. *)
Lemma with_connection_rejected body :
  0 ≤ retry_delay →
  (∀ k, Z.of_nat k < retries → connect_result st k ≠ None) →
  (with_connection body init).1 ≠ Normal ∧
  body_runs (log (with_connection body init).2) = 0%nat.
Proof.
  intros Hdelay Hfail. unfold with_connection, range, mbind, M_bind.
  destruct (decide (0 < retries)) as [Hretries|Hretries];
    [|rewrite seqZ_nil by lia; simpl; unfold_M; by destruct (scope v)].
  destruct (attempts_all_fail st v alias retries retry_delay 0 (Z.to_nat (retries - 1)) init)
    as (w' & evs & msg & _ & Hrun & _ & Hlog & Hbody & _);
    [lia|lia|intros j Hj; apply Hfail; simpl; lia|].
  replace (Z.of_nat (S (Z.to_nat (retries - 1)))) with retries in Hrun by lia.
  rewrite Hrun. simpl. by rewrite Hlog.
Qed.

(** The statement with a body that acts on a state, in terms of the
    statement for the way the body ended. *)
Lemma with_connection_do_spec {S : Type} (body : S → option exn * S) (s : S) :
  let r := with_connection_do st v alias retries retry_delay body s init in
  let r' := with_connection (body s).1 init in
  r.1.1 = r'.1 ∧ r.2 = r'.2 ∧
  ((body_runs (log r.2) = 1%nat ∧ r.1.2 = (body s).2) ∨
   (body_runs (log r.2) = 0%nat ∧ r.1.2 = s ∧ r.1.1 ≠ Normal)).
Proof.
  unfold with_connection_do, with_connection, mbind, M_bind, mret, M_ret.
  pose proof (attempts_body_runs st v alias retries retry_delay (range retries) init)
    as Henter.
  destruct (attempts (range retries) init) as [[a rest| |e] w1]; simpl in *;
    [|by repeat split; try right|by repeat split; try right].
  unfold emit. set (w2 := World _ _ _).
  pose proof (cm_exit_body_runs st v alias retries retry_delay (body s).1 a rest w2) as Hexit.
  destruct (cm_exit (body s).1 a rest w2) as [ended w3]. simpl in *.
  split; [done|]. split; [done|]. left. split; [|done].
  rewrite Hexit, body_runs_app, Henter. done.
Qed.
End connector_more.

(** X1.  If a [with milvus_connection(...)] statement of any of the three
    scripts ends normally, its body ran, exactly once, and ended normally,
    and the handle is released: the connector neither swallows an
    exception of the body nor skips the body. *)
Theorem normal_end_means_the_body_ran_and_returned
    st sc alias retries retry_delay body run :
  run ∈ [Index.milvus_connection st alias retries retry_delay body init;
         Query.milvus_connection st alias retries retry_delay body init;
         DbInsertion.milvus_connection st sc alias retries retry_delay body init] →
  run.1 = Normal →
  body = None ∧ body_runs (log run.2) = 1%nat ∧ leaked alias false (log run.2) = false.
Proof.
  rewrite !elem_of_cons, elem_of_nil.
  intros [->|[->|[->|[]]]]; apply with_connection_normal.
Qed.

Lemma normal_end_means_the_body_ran_and_returned_witness :
  let run := DbInsertion.milvus_connection accepting WholeLoop "default" 3 5 None init in
  body_runs (log run.2) = 1%nat.
Proof.
  intros run.
  refine (proj1 (proj2 (normal_end_means_the_body_ran_and_returned
            accepting WholeLoop "default" 3 5 None run _ _))).
  - unfold run. do 2 apply list_elem_of_further. apply list_elem_of_here.
  - reflexivity.
Defined.

Lemma db_connection_success_path_aux (k : nat) st sc alias retries retry_delay :
  0 ≤ retry_delay ∨ k = 0%nat →
  Z.of_nat k < retries →
  (∀ j, (j < k)%nat → connect_result st j ≠ None) →
  connect_result st k = None →
  (DbInsertion.milvus_connection st sc alias retries retry_delay None init).1 = Normal.
Proof.
  intros Hdelay Hk Hfail Hok. unfold DbInsertion.milvus_connection.
  destruct (with_connection_first_success st (Variant true sc) alias retries retry_delay
              k None Hdelay Hk Hfail Hok) as (w1 & pre & -> & _).
  by destruct (cm_exit_break st (Variant true sc) alias retries retry_delay (Z.of_nat k)
                 (seqZ (Z.of_nat k + 1) (retries - Z.of_nat k - 1)) w1 eq_refl) as [b ->].
Qed.

(** X2.  The success path of the connector of db_insertion.py, under
    either reading of its [finally] clause: when the store accepts attempt
    [k] (counted from 0) after rejecting the earlier ones, a body that
    ends normally is followed by one [disconnect] and nothing else: the
    statement ends normally after [k + 1] calls of [connect], [k] waits
    and one run of the body. *)
Theorem db_connection_success_path st sc alias retries retry_delay (k : nat) :
  0 ≤ retry_delay ∨ k = 0%nat →
  Z.of_nat k < retries →
  (∀ j, (j < k)%nat → connect_result st j ≠ None) →
  connect_result st k = None →
  let run := DbInsertion.milvus_connection st sc alias retries retry_delay None init in
  run.1 = Normal ∧
  n_connect run.2 = S k ∧
  ∃ pre b,
    log run.2 = pre ++ [EvConnect alias true; EvBody; EvDisconnect alias b] ∧
    body_runs pre = 0%nat ∧
    (EvConnect alias true ∉ pre) ∧
    schedule pre = mjoin (replicate k [EvConnect alias false; EvSleep retry_delay]).
Proof.
  intros Hdelay Hk Hfail Hok run. subst run. unfold DbInsertion.milvus_connection.
  destruct (with_connection_first_success st (Variant true sc) alias retries retry_delay
              k None Hdelay Hk Hfail Hok) as (w1 & pre & -> & Hn & Hlog & Hbody & Hsched & Hpre).
  destruct (cm_exit_break st (Variant true sc) alias retries retry_delay (Z.of_nat k)
              (seqZ (Z.of_nat k + 1) (retries - Z.of_nat k - 1)) w1 eq_refl) as [b ->].
  simpl. repeat split; [done|]. exists pre, b.
  rewrite Hlog, <- (assoc_L (++)). done.
Qed.

Lemma db_connection_success_path_witness :
  let st := Store (λ k, if decide (k = 0%nat) then Some "refused"%string else None)
                  (λ _, None) in
  (DbInsertion.milvus_connection st PerAttempt "default" 3 5 None init).1 = Normal.
Proof.
  intros st.
  refine (proj1 (db_connection_success_path st PerAttempt "default" 3 5 1 _ _ _ _)).
  - left. lia.
  - lia.
  - intros j Hj. assert (j = 0%nat) as -> by lia. done.
  - reflexivity.
Defined.

Lemma no_break_normal_iff st sc alias retries retry_delay (k : nat) :
  0 ≤ retry_delay ∨ k = 0%nat →
  Z.of_nat k < retries →
  (∀ j, (j < k)%nat → connect_result st j ≠ None) →
  connect_result st k = None →
  (with_connection st (Variant false sc) alias retries retry_delay None init).1 = Normal
  ↔ Z.of_nat k = retries - 1.
Proof.
  intros Hdelay Hk Hfail Hok.
  destruct (with_connection_first_success st (Variant false sc) alias retries
              retry_delay k None Hdelay Hk Hfail Hok) as (w1 & pre & -> & _).
  destruct (decide (Z.of_nat k = retries - 1)) as [Hlast|Hearlier].
  - split; [done|intros _].
    replace (retries - Z.of_nat k - 1) with 0 by lia.
    by apply cm_exit_no_break_last.
  - split; [|done]. intros Hnormal. exfalso. revert Hnormal.
    replace (retries - Z.of_nat k - 1)
      with (Z.of_nat (S (Z.to_nat (retries - Z.of_nat k - 2)))) by lia.
    apply cm_exit_no_break_earlier; [done|lia].
Qed.

(** The [with] statements of the two [main]s without [break]: three
    attempts, five seconds. *)
Lemma three_attempts_normal_iff st alias body :
  (with_connection st (Variant false PerAttempt) alias 3 5 body init).1 = Normal
  ↔ body = None ∧ connect_result st 0 ≠ None ∧ connect_result st 1 ≠ None ∧
    connect_result st 2 = None.
Proof.
  split.
  - intros Hnormal.
    destruct (with_connection_normal _ _ _ _ _ _ Hnormal) as [-> _]. split; [done|].
    destruct (connect_result st 0) as [m0|] eqn:H0.
    + destruct (connect_result st 1) as [m1|] eqn:H1.
      * destruct (connect_result st 2) as [m2|] eqn:H2; [|done]. exfalso.
        assert (∀ k, Z.of_nat k < 3 → connect_result st k ≠ None) as Hfail.
        { clear Hnormal. intros [|[|[|]]] Hk Hno; [congruence|congruence|congruence|lia]. }
        by destruct (with_connection_rejected st (Variant false PerAttempt) alias 3 5 None
                       ltac:(lia) Hfail).
      * exfalso.
        apply (no_break_normal_iff st PerAttempt alias 3 5 1) in Hnormal;
          [lia|left; lia|lia| |done].
        intros j Hj. assert (j = 0%nat) as -> by lia. by rewrite H0.
    + exfalso.
      apply (no_break_normal_iff st PerAttempt alias 3 5 0) in Hnormal;
        [lia|left; lia|lia| |done].
      intros j Hj. lia.
  - intros (-> & H0 & H1 & H2).
    apply (no_break_normal_iff st PerAttempt alias 3 5 2); [left; lia|lia| |done|done].
    intros [|[|]] Hj; [done|done|lia].
Qed.

(** A store that accepts the first two calls of [connect]: the body runs
    at the first attempt, and the second attempt makes the generator
    yield again. *)
Lemma three_attempts_store_up st alias body :
  connect_result st 0 = None → connect_result st 1 = None →
  (∀ e, body = Some e → is_Exception e = true) →
  let run := with_connection st (Variant false PerAttempt) alias 3 5 body init in
  run.1 = Raise (Exn RuntimeError
                   (match body with
                    | Some _ => "generator didn't stop after throw()"
                    | None => "generator didn't stop"
                    end)) ∧
  body_runs (log run.2) = 1%nat.
Proof.
  intros H0 H1 Hbody run. subst run.
  unfold with_connection, range. simpl. unfold_M. simpl. rewrite H0. simpl.
  destruct body as [e|].
  - rewrite (Hbody e eq_refl). simpl. unfold_M. simpl. rewrite H1. simpl. done.
  - simpl. unfold_M. simpl. rewrite H1. simpl. done.
Qed.

(** X3.  The connectors of index.py and query.py have no [break] after the
    [yield]: when the store accepts attempt [k] after rejecting the
    earlier ones and the body ends normally, the [with] statement ends
    normally if and only if [k] is the last attempt, [retries - 1]. *)
Theorem no_break_ends_normally_only_at_the_last_attempt
    st alias retries retry_delay (k : nat) :
  0 ≤ retry_delay ∨ k = 0%nat →
  Z.of_nat k < retries →
  (∀ j, (j < k)%nat → connect_result st j ≠ None) →
  connect_result st k = None →
  ((Index.milvus_connection st alias retries retry_delay None init).1 = Normal
     ↔ Z.of_nat k = retries - 1) ∧
  ((Query.milvus_connection st alias retries retry_delay None init).1 = Normal
     ↔ Z.of_nat k = retries - 1).
Proof.
  intros Hdelay Hk Hfail Hok.
  assert ((with_connection st (Variant false PerAttempt) alias retries retry_delay
             None init).1 = Normal ↔ Z.of_nat k = retries - 1); [|done].
  destruct (with_connection_first_success st (Variant false PerAttempt) alias retries
              retry_delay k None Hdelay Hk Hfail Hok) as (w1 & pre & -> & _).
  destruct (decide (Z.of_nat k = retries - 1)) as [Hlast|Hearlier].
  - split; [done|intros _].
    replace (retries - Z.of_nat k - 1) with 0 by lia.
    by apply cm_exit_no_break_last.
  - split; [|done]. intros Hnormal. exfalso. revert Hnormal.
    replace (retries - Z.of_nat k - 1)
      with (Z.of_nat (S (Z.to_nat (retries - Z.of_nat k - 2)))) by lia.
    apply cm_exit_no_break_earlier; [done|lia].
Qed.

Lemma no_break_ends_normally_only_at_the_last_attempt_witness :
  (Index.milvus_connection accepting "default" 3 5 None init).1 = Normal
    ↔ Z.of_nat 0 = 3 - 1.
Proof.
  refine (proj1 (no_break_ends_normally_only_at_the_last_attempt
            accepting "default" 3 5 0 _ _ _ _)).
  - right. reflexivity.
  - lia.
  - intros j Hj. lia.
  - reflexivity.
Defined.

(** X4.  Whatever the store does and however the body ends, a [with
    milvus_connection(...)] statement of any of the three scripts calls
    [connect] at most [retries] times and waits at most [retries - 1]
    times. *)
Theorem attempts_and_waits_are_bounded st sc alias retries retry_delay body run :
  run ∈ [Index.milvus_connection st alias retries retry_delay body init;
         Query.milvus_connection st alias retries retry_delay body init;
         DbInsertion.milvus_connection st sc alias retries retry_delay body init] →
  (n_connect run.2 ≤ Z.to_nat retries)%nat ∧
  Z.of_nat (waits (log run.2)) ≤ Z.max 0 (retries - 1).
Proof.
  rewrite !elem_of_cons, elem_of_nil.
  intros [->|[->|[->|[]]]];
    (split; [apply with_connection_connect_bound|apply with_connection_waits]).
Qed.

Lemma attempts_and_waits_are_bounded_witness :
  (n_connect (Index.milvus_connection rejecting "default" 3 5 None init).2 ≤ 3)%nat.
Proof.
  refine (proj1 (attempts_and_waits_are_bounded rejecting PerAttempt "default" 3 5 None
                   _ _)).
  apply list_elem_of_here.
Defined.

(** ** The worker of db_insertion.py *)

Section insert_batch_facts.
Context {vector : Type}.
Context (st : store) (sc : finally_scope) (insert : option exn).
Context (args : @DbInsertion.batch vector).

Lemma insert_batch_connects (k : nat) :
  (k < 3)%nat → connect_result st k = None →
  (DbInsertion.milvus_connection st sc ("worker_" +:+ pretty (DbInsertion.start_idx args))
     3 5 None init).1 = Normal.
Proof.
  intros Hk Hok.
  destruct (first_success (connect_result st) k Hok) as (k' & Hk' & Hok' & Hfail).
  apply (db_connection_success_path_aux k'); try done; lia.
Qed.

Lemma insert_batch_rejected :
  (∀ k, (k < 3)%nat → connect_result st k ≠ None) →
  ∀ alias body, (DbInsertion.milvus_connection st sc alias 3 5 body init).1 ≠ Normal.
Proof.
  intros Hfail alias body. unfold DbInsertion.milvus_connection, with_connection, range.
  destruct (attempts_all_fail st (Variant true sc) alias 3 5 0 2 init)
    as (w' & evs & msg & _ & Hrun & _); [lia|lia|intros j Hj; apply Hfail; simpl; lia|].
  change (Z.of_nat 3) with 3 in Hrun. unfold mbind, M_bind. by rewrite Hrun.
Qed.

(** X5.  A worker answers [(True, None)] exactly when the insertion
    returned and one of its three connection attempts was accepted. *)
Theorem insert_batch_succeeds_iff :
  DbInsertion.insert_batch st sc insert args = DbInsertion.Return true None
  ↔ insert = None ∧ ∃ k, (k < 3)%nat ∧ connect_result st k = None.
Proof.
  unfold DbInsertion.insert_batch. split.
  - intros Hrun.
    assert (insert = None) as ->.
    { destruct insert as [e|]; [|done]. exfalso. revert Hrun.
      by repeat case_match. }
    split; [done|].
    destruct (connect_result st 0) eqn:H0; [|exists 0%nat; split; [lia|done]].
    destruct (connect_result st 1) eqn:H1; [|exists 1%nat; split; [lia|done]].
    destruct (connect_result st 2) eqn:H2; [|exists 2%nat; split; [lia|done]].
    exfalso.
    assert (∀ k, (k < 3)%nat → connect_result st k ≠ None) as Hfail.
    { intros k Hk. destruct k as [|[|[|]]]; [by rewrite H0|by rewrite H1|by rewrite H2|lia]. }
    pose proof (insert_batch_rejected Hfail
                  ("worker_" +:+ pretty (DbInsertion.start_idx args)) None) as Hno.
    revert Hrun. by repeat case_match.
  - intros [-> (k & Hk & Hok)]. by rewrite (insert_batch_connects k Hk Hok).
Qed.

(** A worker whose insertion raises nothing but [Exception]s returns a
    pair. *)
Lemma insert_batch_returns :
  (∀ e, insert = Some e → is_Exception e = true) →
  DbInsertion.insert_batch st sc insert args = DbInsertion.Return true None ∨
  ∃ cause,
    DbInsertion.insert_batch st sc insert args
      = DbInsertion.Return false
          (Some ("Error inserting batch " +:+ pretty (DbInsertion.start_idx args) +:+ ":"
                   +:+ pretty (DbInsertion.end_idx args) +:+ ": " +:+ cause)).
Proof.
  intros Hclass. unfold DbInsertion.insert_batch.
  set (alias := "worker_" +:+ pretty (DbInsertion.start_idx args)).
  pose proof (with_connection_normal st (Variant true sc) alias 3 5 insert) as Hnormal.
  pose proof (with_connection_raised_class st (Variant true sc) alias 3 5 insert) as Hraise.
  unfold DbInsertion.milvus_connection.
  destruct (with_connection st (Variant true sc) alias 3 5 insert init).1 as [|e].
  - destruct (Hnormal eq_refl) as [-> _]. by left.
  - right. rewrite (Hraise e Hclass eq_refl). eauto.
Qed.

(** X6.  Whatever the store does, a worker whose insertion raises nothing
    but [Exception]s returns a pair: [(True, None)], or [False] with a
    message that starts with the range of the batch.  No exception leaves
    the worker and it never falls off its end. *)
Theorem insert_batch_always_answers :
  (∀ e, insert = Some e → is_Exception e = true) →
  DbInsertion.insert_batch st sc insert args = DbInsertion.Return true None ∨
  ∃ cause,
    DbInsertion.insert_batch st sc insert args
      = DbInsertion.Return false
          (Some ("Error inserting batch " +:+ pretty (DbInsertion.start_idx args) +:+ ":"
                   +:+ pretty (DbInsertion.end_idx args) +:+ ": " +:+ cause)).
Proof. exact insert_batch_returns. Qed.

End insert_batch_facts.

Lemma insert_batch_always_answers_witness :
  DbInsertion.insert_batch rejecting PerAttempt (Some (Exn Exception "boom"))
      (DbInsertion.Batch "SOICT" 0 2 [7; 8] ["a"; "b"]%string)
    = DbInsertion.Return true None ∨
  ∃ cause,
    DbInsertion.insert_batch rejecting PerAttempt (Some (Exn Exception "boom"))
        (DbInsertion.Batch "SOICT" 0 2 [7; 8] ["a"; "b"]%string)
      = DbInsertion.Return false
          (Some ("Error inserting batch " +:+ pretty 0 +:+ ":" +:+ pretty 2 +:+ ": "
                   +:+ cause)).
Proof.
  apply (insert_batch_always_answers rejecting PerAttempt (Some (Exn Exception "boom"))
           (DbInsertion.Batch "SOICT" 0 2 [7; 8] ["a"; "b"]%string)).
  intros e [= <-]. reflexivity.
Defined.

(** ** [replace_index] under any fault plan *)

Section replace_index_more.
Import Index.
Context (plan : faults) (name : string) (index_params : option IndexSpec).
Context (s : collection).

Local Ltac unfold_E :=
  unfold replace_index, replace_index_try, rpc, say, start, mbind, E_bind, mret, E_ret in *.

(** One call of the run: the branch in which the store fails it is closed
    by [tac], the other goes on. *)
Local Ltac call c tac :=
  destruct (plan c) eqn:?; simpl; [solve [tac]|].

Local Ltac run_through tac :=
  destruct s as [[] [i|]]; unfold ideal_calls; unfold_E; simpl;
    call Open tac; call IsLoaded tac;
    try (call Release tac; call HasIndex tac);
    try call HasIndex tac;
    try (call DropIndex tac; call CreateIndex tac);
    try call CreateIndex tac;
    call Load tac.

(** X7.  [replace_index] returns [True] exactly when the store fails none
    of the calls that the state of the collection asks for; a fault on a
    call that is not made (a release of a collection that is not loaded, a
    drop where there is no index) does no harm.  When it returns [True]
    the given index is in place and the collection is loaded. *)
Theorem replace_index_succeeds_iff :
  let spec := default default_index_params index_params in
  let run := replace_index plan name index_params (start s) in
  (run.1 = true ↔ Forall (λ c, plan c = None) (ideal_calls s)) ∧
  (run.1 = true → coll run.2 = Collection true (Some spec) ∧ calls run.2 = ideal_calls s).
Proof.
  intros spec run. subst spec run.
  run_through ltac:(split; [split; [discriminate|]|discriminate];
                    rewrite ?Forall_cons; intros; destruct_and?; congruence).
  all: split; [split; [intros _|reflexivity]|intros _; split; reflexivity].
  all: repeat (apply Forall_cons; split; [assumption|]); apply Forall_nil_2.
Qed.

(** X8.  What a failed [replace_index] leaves behind: either the collection
    as it was, or a collection that is not loaded.  The old index is gone
    only if the store accepted the drop, and the last call made is one
    that the store failed. *)
Theorem failed_replace_index_leaves_unloaded :
  let run := replace_index plan name index_params (start s) in
  run.1 = false →
  (coll run.2 = s ∨ loaded (coll run.2) = false) ∧
  (index (coll run.2) = index s ∨ plan DropIndex = None ∨ index s = None) ∧
  ∃ c, last (calls run.2) = Some c ∧ plan c ≠ None.
Proof.
  intros run. subst run.
  run_through ltac:(intros _; split_and!;
                    [first [by left|by right]
                    |first [by left|by right; left|by right; right]
                    |eexists; split; [reflexivity|congruence]]).
  all: intros [=].
Qed.
End replace_index_more.

Lemma failed_replace_index_leaves_unloaded_witness :
  let run := Index.replace_index (fails_only Index.Load "out of memory") "SOICT" None
               (Index.start (Index.Collection true None)) in
  Index.loaded (Index.coll run.2) = false.
Proof.
  intros run.
  destruct (failed_replace_index_leaves_unloaded (fails_only Index.Load "out of memory")
              "SOICT" None (Index.Collection true None) eq_refl) as [[Hsame|Hunloaded] _].
  - exfalso. revert Hsame. vm_compute. discriminate.
  - exact Hunloaded.
Defined.
(** ** [main] of index.py *)

Section index_main_facts.
Import Index.
Context (st : store) (plan : faults) (duration : string) (s : collection).

Local Ltac unfold_E :=
  unfold replace_index, replace_index_try, rpc, say, start, raise,
    mbind, E_bind, mret, E_ret in *.

Local Ltac call c :=
  destruct (plan c) eqn:?; simpl;
    [solve [rewrite <- ?(assoc_L (++)); repeat split; reflexivity]|].

(** [replace_index] adds to the calls and the lines of the world it
    starts in, and reads the collection only. *)
Lemma replace_index_frame name index_params (w : cworld) :
  let run := replace_index plan name index_params w in
  let alone := replace_index plan name index_params (start (coll w)) in
  run.1 = alone.1 ∧ coll run.2 = coll alone.2 ∧
  calls run.2 = calls w ++ calls alone.2 ∧ out run.2 = out w ++ out alone.2.
Proof.
  destruct w as [[[] [i|]] cs o]; unfold_E; simpl;
    call Open; call IsLoaded;
    try (call Release; call HasIndex);
    try call HasIndex;
    try (call DropIndex; call CreateIndex);
    try call CreateIndex;
    call Load;
    rewrite <- ?(assoc_L (++)); repeat split; reflexivity.
Qed.

(** How the body of the [with] statement ends, and what it leaves. *)
Lemma main_body_found (w : cworld) :
  let replaced := replace_index plan "SOICT" (Some custom_index_params) (start (coll w)) in
  ∃ w', main_body (Ok true) plan duration w = (Ok tt, w') ∧
        coll w' = coll replaced.2 ∧
        calls w' = calls w ++ calls replaced.2 ∧
        ∃ lines,
          out w' = out w ++ lines ++
                   [if replaced.1 then "Time taken: " +:+ duration +:+ " seconds"
                    else "Index replacement failed"].
Proof.
  intros replaced. unfold main_body.
  unfold mbind at 1. unfold E_bind at 1. simpl.
  unfold mbind at 1. unfold E_bind at 1. unfold say at 1.
  unfold mbind at 1. unfold E_bind at 1.
  set (w1 := CWorld _ _ _).
  destruct (replace_index_frame "SOICT" (Some custom_index_params) w1)
    as (Hret & Hcoll & Hcalls & Hout).
  change (coll w1) with (coll w) in Hret, Hcoll, Hcalls, Hout.
  fold replaced in Hret, Hcoll, Hcalls, Hout. clearbody replaced.
  destruct (replace_index plan "SOICT" (Some custom_index_params) w1) as [b w2].
  destruct replaced as [b' wr]. destruct w2 as [c2 cs2 o2]. simpl in Hret, Hcoll, Hcalls, Hout.
  subst b c2 cs2 o2. subst w1. cbn [fst snd coll calls out].
  destruct b'.
  - eexists. split; [reflexivity|]. cbn [coll calls out].
    split; [reflexivity|]. split; [reflexivity|].
    eexists (_ :: out wr ++ [_; _]). rewrite <- !(assoc_L (++)). simpl.
    rewrite <- !(assoc_L (++)). reflexivity.
  - eexists. split; [reflexivity|]. cbn [coll calls out].
    split; [reflexivity|]. split; [reflexivity|].
    eexists (_ :: out wr ++ [_]). rewrite <- !(assoc_L (++)). simpl.
    rewrite <- !(assoc_L (++)). reflexivity.
Qed.

Lemma main_body_missing (w : cworld) :
  main_body (Ok false) plan duration w
  = (Err (Exn Exception "Collection 'SOICT' does not exist"), w).
Proof. reflexivity. Qed.

Lemma main_body_unknown e (w : cworld) :
  main_body (Err e) plan duration w = (Err e, w).
Proof. reflexivity. Qed.

(** [main] ends as its [with] statement does, with a body that ends
    normally when the collection is found and by raising otherwise. *)
Lemma index_main_run has_collection :
  let body_end := match has_collection with
                  | Ok true => None
                  | Ok false => Some (Exn Exception "Collection 'SOICT' does not exist")
                  | Err e => Some e
                  end in
  let run := with_connection st (Variant false PerAttempt) "default" 3 5 body_end init in
  let r := main st has_collection plan duration s init in
  let w0 := CWorld s [] ["Connecting to Milvus server at localhost:19530"%string] in
  r.1.1 = run.1 ∧ r.2 = run.2 ∧
  ∃ w',
    ((body_runs (log run.2) = 1%nat ∧
      w' = (main_body has_collection plan duration w0).2) ∨
     (body_runs (log run.2) = 0%nat ∧ w' = w0 ∧ run.1 ≠ Normal)) ∧
    r.1.2 = match run.1 with
            | Normal => w'
            | Raise e =>
                if is_Exception e
                then CWorld (coll w') (calls w') (out w' ++ ["Error in main process: " +:+ str e])
                else w'
            end.
Proof.
  intros body_end run r w0. subst r. unfold main.
  set (body := λ w : cworld, match main_body has_collection plan duration w with
                             | (Ok _, w') => (None, w')
                             | (Err e, w') => (Some e, w')
                             end).
  assert ((body w0).1 = body_end ∧ (body w0).2 = (main_body has_collection plan duration w0).2)
    as [Hend Hstate].
  { unfold body, body_end. destruct has_collection as [[]|e].
    - destruct (main_body_found w0) as (w' & -> & _). split; reflexivity.
    - rewrite main_body_missing. split; reflexivity.
    - rewrite main_body_unknown. split; reflexivity. }
  destruct (with_connection_do_spec st (Variant false PerAttempt) "default" 3 5 body w0)
    as (Hout & Hworld & Hbody).
  change (say "Connecting to Milvus server at localhost:19530" (start s)).2 with w0.
  unfold mbind, M_bind, mret, M_ret.
  destruct (with_connection_do st (Variant false PerAttempt) "default" 3 5 body w0 init)
    as [[ended w'] world']. simpl in Hout, Hworld, Hbody.
  rewrite Hend in Hout, Hworld. fold run in Hout, Hworld. subst ended world'.
  rewrite Hstate in Hbody. cbn [fst snd].
  destruct run.1 as [|e]; [|destruct (is_Exception e)]; cbn [fst snd];
    (split; [reflexivity|]); (split; [reflexivity|]); exists w';
    (split; [exact Hbody|reflexivity]).
Qed.

(** X9.  [main] of index.py ends normally in one case only: the collection
    exists, the store rejects the first two connection attempts and
    accepts the third.  Whether [replace_index] succeeded plays no part. *)
Theorem index_main_ends_normally_iff has_collection :
  (main st has_collection plan duration s init).1.1 = Normal
  ↔ has_collection = Ok true ∧
    connect_result st 0 ≠ None ∧ connect_result st 1 ≠ None ∧ connect_result st 2 = None.
Proof.
  destruct (index_main_run has_collection) as (Hend & _).
  rewrite Hend, three_attempts_normal_iff. clear Hend.
  destruct has_collection as [[]|e]; split; intros (H & ? & ? & ?);
    first [discriminate H | split_and!; (assumption || reflexivity)].
Qed.

(** X10.  Against a store that accepts connections (the first two calls of
    [connect] return) and has the collection, [main] of index.py runs
    [replace_index] once and then fails: the generator of the connector
    yields a second time and the [with] statement raises [RuntimeError],
    which [main] prints and re-raises, also when the index was replaced. *)
Theorem index_main_fails_after_the_replacement :
  connect_result st 0 = None → connect_result st 1 = None →
  let replaced := replace_index plan "SOICT" (Some custom_index_params) (start s) in
  let r := main st (Ok true) plan duration s init in
  r.1.1 = Raise (Exn RuntimeError "generator didn't stop") ∧
  coll r.1.2 = coll replaced.2 ∧
  calls r.1.2 = calls replaced.2 ∧
  (if replaced.1 then "Time taken: " +:+ duration +:+ " seconds"
   else "Index replacement failed"%string) ∈ out r.1.2 ∧
  last (out r.1.2) = Some "Error in main process: generator didn't stop"%string.
Proof.
  intros H0 H1 replaced r.
  destruct (index_main_run (Ok true)) as (Hend & _ & w' & Hbody & Hstate).
  destruct (three_attempts_store_up st "default" None H0 H1) as [Hrun Hruns];
    [intros ? [=]|].
  fold r in Hend, Hstate. rewrite Hrun in Hend, Hstate. cbn [is_Exception class_of str] in Hstate.
  rewrite Hruns in Hbody.
  destruct Hbody as [[_ ->]|[Hno _]]; [|discriminate Hno].
  destruct (main_body_found (CWorld s [] ["Connecting to Milvus server at localhost:19530"%string]))
    as (w1 & Hmain & Hcoll & Hcalls & lines & Hout).
  rewrite Hmain in Hstate. cbn [fst snd] in Hstate.
  rewrite Hstate, Hend. cbn [coll calls out].
  split; [reflexivity|]. split; [exact Hcoll|]. split; [exact Hcalls|]. split.
  - rewrite Hout. cbn [coll]. fold replaced.
    rewrite !elem_of_app. left. right. right. apply list_elem_of_here.
  - apply last_snoc.
Qed.

(** X11.  When the collection does not exist, [main] of index.py makes no
    call to the collection and fails, but never with the exception of its
    guard: the connector takes "Collection 'SOICT' does not exist" for a
    connection failure, and what [main] prints and re-raises is the error
    of the connector. *)
Theorem index_main_without_the_collection :
  let r := main st (Ok false) plan duration s init in
  calls r.1.2 = [] ∧ coll r.1.2 = s ∧
  r.1.1 ≠ Raise (Exn Exception "Collection 'SOICT' does not exist") ∧
  ∃ e, r.1.1 = Raise e ∧
       last (out r.1.2) = Some ("Error in main process: " +:+ str e).
Proof.
  intros r.
  destruct (index_main_run (Ok false)) as (Hend & _ & w' & Hbody & Hstate).
  fold r in Hend, Hstate.
  set (guard := Exn Exception "Collection 'SOICT' does not exist") in *.
  assert (is_Exception guard = true) as Hguard by reflexivity.
  assert (calls w' = [] ∧ coll w' = s) as [Hcalls Hcoll].
  { destruct Hbody as [[_ ->]|(_ & -> & _)]; [|split; reflexivity].
    rewrite main_body_missing. split; reflexivity. }
  clear Hbody.
  pose proof (with_connection_normal st (Variant false PerAttempt) "default" 3 5 (Some guard))
    as Hnormal.
  pose proof (with_connection_raised_class st (Variant false PerAttempt) "default" 3 5
                (Some guard)) as Hclass.
  assert (∀ e, Some guard = Some e → is_Exception e = true) as Hraises
    by (intros ? [= <-]; exact Hguard).
  pose proof (with_connection_cases st (Variant false PerAttempt) "default" 3 5 (Some guard)
                ltac:(lia) Hraises) as Hcases.
  cbv zeta in Hcases.
  destruct (with_connection st (Variant false PerAttempt) "default" 3 5 (Some guard) init).1
    as [|e]; [destruct (Hnormal eq_refl) as [[=] _]|].
  rewrite (Hclass e Hraises eq_refl) in Hstate.
  rewrite Hstate, Hend. cbn [coll calls out].
  split; [exact Hcalls|]. split; [exact Hcoll|]. split.
  - clear Hnormal Hclass Hraises Hguard Hstate Hend. subst guard.
    destruct Hcases as [H|[[line H]|[e' H]]]; [discriminate H| |];
      injection H as ->; intros Heq; injection Heq as Hexn;
      first [discriminate Hexn
            |unfold failed_to_connect in Hexn; injection Hexn as Hstr;
             simpl in Hstr; discriminate Hstr].
  - exists e. split; [reflexivity|]. apply last_snoc.
Qed.
End index_main_facts.

Lemma index_main_fails_after_the_replacement_witness :
  (Index.main accepting (Index.Ok true) Index.no_faults "0.01"
     (Index.Collection false None) init).1.1
  = Raise (Exn RuntimeError "generator didn't stop").
Proof.
  exact (proj1 (index_main_fails_after_the_replacement accepting Index.no_faults "0.01"
                  (Index.Collection false None) eq_refl eq_refl)).
Defined.

(** X12.  How [main] of index.py ends, and what it does on the connection,
    depends on the store of the connection and on the presence of the
    collection only: not on the state of the collection, nor on which
    calls of [replace_index] the store fails.  A failed replacement is
    printed, and does not change how the script ends. *)
Theorem index_main_end_ignores_the_replacement
    st has_collection plan plan' duration duration' s s' :
  (Index.main st has_collection plan duration s init).1.1
    = (Index.main st has_collection plan' duration' s' init).1.1 ∧
  (Index.main st has_collection plan duration s init).2
    = (Index.main st has_collection plan' duration' s' init).2.
Proof.
  destruct (index_main_run st plan duration s has_collection) as (-> & -> & _).
  destruct (index_main_run st plan' duration' s' has_collection) as (-> & -> & _).
  split; reflexivity.
Qed.

(** ** [main] of query.py *)

(** The body of a [with] statement of three attempts runs exactly when
    the store accepts one of them. *)
Lemma three_attempts_entered st v alias body :
  body_runs (log (with_connection st v alias 3 5 body init).2) = 1%nat
  ↔ ∃ k, (k < 3)%nat ∧ connect_result st k = None.
Proof.
  split.
  - intros Hruns.
    destruct (connect_result st 0) as [m0|] eqn:H0; [|exists 0%nat; split; [lia|exact H0]].
    destruct (connect_result st 1) as [m1|] eqn:H1; [|exists 1%nat; split; [lia|exact H1]].
    destruct (connect_result st 2) as [m2|] eqn:H2; [|exists 2%nat; split; [lia|exact H2]].
    exfalso.
    assert (∀ k, Z.of_nat k < 3 → connect_result st k ≠ None) as Hfail.
    { clear Hruns. intros [|[|[|]]] Hk Hno; [congruence|congruence|congruence|lia]. }
    destruct (with_connection_rejected st v alias 3 5 body ltac:(lia) Hfail) as [_ Hno].
    rewrite Hno in Hruns. discriminate Hruns.
  - intros (k & Hk & Hok).
    apply with_connection_runs_body_once.
    apply (with_connection_connects_some st v alias 3 5 body k); [left; lia|lia|exact Hok].
Qed.

Section query_main_facts.
Import Query.
Context {vector score : Type}.
Context (st : store) (search : list vector → Z → exn + list (list (@hit score))).
Context (np_load : exn + list vector) (read_csv : exn + list row).
Context (open_collection load write : option exn).

Local Abbreviation main := (main st search np_load read_csv open_collection load write).
Local Abbreviation main_body := (main_body search open_collection load write).
Local Abbreviation loading := (QWorld ["Loading data..."%string] (@None (list (@search_result score)))).

(** [main] ends as its [with] statement does. *)
Lemma query_main_run question_embedding corpus_df :
  np_load = inr question_embedding → read_csv = inr corpus_df →
  let body := main_body question_embedding corpus_df loading in
  let run := with_connection st (Variant false PerAttempt) "default" 3 5 body.1 init in
  (main init).1.1 = run.1 ∧ (main init).2 = run.2 ∧
  ∃ w',
    ((body_runs (log run.2) = 1%nat ∧ w' = body.2) ∨
     (body_runs (log run.2) = 0%nat ∧ w' = loading ∧ run.1 ≠ Normal)) ∧
    (main init).1.2 = match run.1 with
                      | Normal => w'
                      | Raise e =>
                          if is_Exception e then say ("Error: " +:+ str e) w' else w'
                      end.
Proof.
  intros Hnp Hcsv body run. unfold Query.main. rewrite Hnp, Hcsv.
  change (say "Loading data..." (QWorld [] None)) with loading.
  destruct (with_connection_do_spec st (Variant false PerAttempt) "default" 3 5
              (main_body question_embedding corpus_df) loading)
    as (Hout & Hworld & Hbody).
  fold body in Hout, Hworld, Hbody. fold run in Hout, Hworld.
  unfold mbind, M_bind, mret, M_ret.
  destruct (with_connection_do st (Variant false PerAttempt) "default" 3 5
              (main_body question_embedding corpus_df) loading init)
    as [[ended w'] world']. cbn [fst snd] in Hout, Hworld, Hbody. subst ended world'.
  unfold main_except. cbn [fst snd].
  destruct run.1 as [|e]; [|destruct (is_Exception e)]; cbn [fst snd];
    (split; [reflexivity|]); (split; [reflexivity|]); exists w';
    (split; [exact Hbody|reflexivity]).
Qed.

(** How the body of the [with] statement ends and what it saves. *)
Lemma query_main_body question_embedding corpus_df :
  let found := (perform_search_rpc search question_embedding corpus_df 50 100).1 in
  let body := main_body question_embedding corpus_df loading in
  (body.1 = None ↔
     open_collection = None ∧ load = None ∧ (∃ qid_cid, found = inr qid_cid) ∧
     write = None) ∧
  (∀ results, saved body.2 = Some results ↔ body.1 = None ∧ found = inr results) ∧
  (∀ qid_cid, body.1 = None → found = inr qid_cid →
     last (out body.2) = Some ("Total queries processed: " +:+ pretty (len qid_cid))).
Proof.
  intros found body. subst body. unfold Query.main_body. fold found.
  destruct open_collection as [e1|];
    [|destruct load as [e2|];
      [|destruct found as [e3|qid_cid]; [|destruct write as [e4|]]]];
    cbn [fst snd saved out Query.say].
  - split; [split; [intros [=]|intros ([=] & _)]|].
    split; [intros results; split; [intros [=]|intros ([=] & _)]|intros ? [=]].
  - split; [split; [intros [=]|intros (_ & [=] & _)]|].
    split; [intros results; split; [intros [=]|intros ([=] & _)]|intros ? [=]].
  - split; [split; [intros [=]|intros (_ & _ & [? [=]] & _)]|].
    split; [intros results; split; [intros [=]|intros ([=] & _)]|intros ? [=]].
  - split; [split; [intros [=]|intros (_ & _ & _ & [=])]|].
    split; [intros results; split; [intros [=]|intros ([=] & _)]|intros ? [=]].
  - split; [split; [intros _; split_and!; eauto|reflexivity]|].
    split; [intros results; split;
              [intros [= <-]; split; reflexivity|intros [_ [= <-]]; reflexivity]|].
    intros ? _ [= <-]. apply last_snoc.
Qed.

(** X13.  [main] of query.py ends normally in one case only: the data and
    the collection load, every call of [collection.search] is answered,
    the results are written, and the store rejects the first two
    connection attempts and accepts the third. *)
Theorem query_main_ends_normally_iff :
  (main init).1.1 = Normal
  ↔ ∃ question_embedding corpus_df qid_cid,
      np_load = inr question_embedding ∧ read_csv = inr corpus_df ∧
      open_collection = None ∧ load = None ∧
      (perform_search_rpc search question_embedding corpus_df 50 100).1 = inr qid_cid ∧
      write = None ∧
      connect_result st 0 ≠ None ∧ connect_result st 1 ≠ None ∧ connect_result st 2 = None.
Proof.
  destruct np_load as [e|question_embedding] eqn:Hnp.
  { unfold Query.main, main_except, mret, M_ret. cbn [fst snd].
    split; [destruct (is_Exception e); intros [=]|intros (? & ? & ? & [=] & _)]. }
  destruct read_csv as [e|corpus_df] eqn:Hcsv.
  { unfold Query.main, main_except, mret, M_ret. cbn [fst snd].
    split; [destruct (is_Exception e); intros [=]|intros (? & ? & ? & _ & [=] & _)]. }
  rewrite <- Hnp, <- Hcsv.
  destruct (query_main_run question_embedding corpus_df Hnp Hcsv) as (Hend & _).
  rewrite Hend, three_attempts_normal_iff. clear Hend.
  destruct (query_main_body question_embedding corpus_df) as (-> & _).
  split.
  - intros ((? & ? & [qid_cid ?] & ?) & ? & ? & ?).
    exists question_embedding, corpus_df, qid_cid. split_and!; assumption.
  - intros (qe & df & qid_cid & Hqe & Hdf & ? & ? & Hfound & ? & ? & ? & ?).
    rewrite Hnp in Hqe. rewrite Hcsv in Hdf. injection Hqe as <-. injection Hdf as <-.
    split_and!; eauto.
Qed.

(** X14.  Against a store that accepts connections (the first two calls of
    [connect] return), when the data and the collection load, every call
    of [collection.search] is answered and the output file can be written,
    [main] of query.py saves the results of [perform_search] (50 hits per
    query, batches of 100), prints their number, and then fails: the
    generator of the connector yields a second time and the [with]
    statement raises [RuntimeError], which [main] prints and re-raises. *)
Theorem query_main_saves_and_then_fails question_embedding corpus_df qid_cid :
  np_load = inr question_embedding → read_csv = inr corpus_df →
  open_collection = None → load = None →
  (perform_search_rpc search question_embedding corpus_df 50 100).1 = inr qid_cid →
  write = None →
  connect_result st 0 = None → connect_result st 1 = None →
  saved (main init).1.2 = Some qid_cid ∧
  ("Total queries processed: " +:+ pretty (len qid_cid)) ∈ out (main init).1.2 ∧
  (main init).1.1 = Raise (Exn RuntimeError "generator didn't stop") ∧
  last (out (main init).1.2) = Some "Error: generator didn't stop"%string.
Proof.
  intros Hnp Hcsv Hopen Hload Hsearch Hwrite H0 H1.
  destruct (query_main_run question_embedding corpus_df Hnp Hcsv)
    as (Hend & _ & w' & Hbody & Hstate).
  destruct (query_main_body question_embedding corpus_df) as (Hnone & Hsaved & Hlast).
  assert ((main_body question_embedding corpus_df loading).1 = None) as Hbody_end
    by (apply Hnone; split_and!; eauto).
  rewrite Hbody_end in Hend, Hstate, Hbody.
  destruct (three_attempts_store_up st "default" None H0 H1) as [Hrun Hruns];
    [intros ? [=]|].
  rewrite Hrun in Hend, Hstate. rewrite Hruns in Hbody.
  cbn [is_Exception class_of str] in Hstate.
  destruct Hbody as [[_ ->]|[Hno _]]; [|discriminate Hno].
  rewrite Hstate, Hend. unfold Query.say. cbn [saved out].
  split; [apply Hsaved; split; [exact Hbody_end|exact Hsearch]|].
  split; [|split; [reflexivity|apply last_snoc]].
  apply elem_of_app. left.
  specialize (Hlast qid_cid Hbody_end Hsearch). revert Hlast.
  generalize (out (main_body question_embedding corpus_df loading).2).
  intros lines Hlines. apply last_Some in Hlines as [lines' ->].
  apply elem_of_app. right. apply list_elem_of_here.
Qed.

(** X15.  What [main] of query.py saves: a result list is written exactly
    when the data and the collection load, the store accepts one of the
    three connection attempts, [perform_search] returns (every call of
    [collection.search] is answered) and the output file can be written;
    what is written is the list that [perform_search] returns for the
    loaded queries, 50 hits per query in batches of 100.  When a call of
    [collection.search] raises, nothing is written. *)
Theorem query_main_saves_iff results :
  saved (main init).1.2 = Some results
  ↔ ∃ question_embedding corpus_df,
      np_load = inr question_embedding ∧ read_csv = inr corpus_df ∧
      open_collection = None ∧ load = None ∧ write = None ∧
      (∃ k, (k < 3)%nat ∧ connect_result st k = None) ∧
      (perform_search_rpc search question_embedding corpus_df 50 100).1 = inr results.
Proof.
  destruct np_load as [e|question_embedding] eqn:Hnp.
  { unfold Query.main, main_except, mret, M_ret. cbn [fst snd].
    split; [destruct (is_Exception e); intros [=]|intros (? & ? & [=] & _)]. }
  destruct read_csv as [e|corpus_df] eqn:Hcsv.
  { unfold Query.main, main_except, mret, M_ret. cbn [fst snd].
    split; [destruct (is_Exception e); intros [=]|intros (? & ? & _ & [=] & _)]. }
  rewrite <- Hnp, <- Hcsv.
  destruct (query_main_run question_embedding corpus_df Hnp Hcsv)
    as (_ & _ & w' & Hbody & Hstate).
  destruct (query_main_body question_embedding corpus_df) as (Hnone & Hsaved & _).
  assert (saved (main init).1.2 = saved w') as ->.
  { rewrite Hstate.
    destruct (with_connection _ _ _ _ _ _ _).1 as [|e]; [|destruct (is_Exception e)];
      reflexivity. }
  rewrite three_attempts_entered in Hbody.
  split.
  - intros Hw'. destruct Hbody as [[Hentered ->]|(_ & -> & _)]; [|discriminate Hw'].
    apply Hsaved in Hw' as [Hend Hfound]. apply Hnone in Hend as (? & ? & _ & ?).
    exists question_embedding, corpus_df. split_and!; assumption.
  - intros (qe & df & Hqe & Hdf & ? & ? & ? & Hentered & Hresults).
    rewrite Hnp in Hqe. rewrite Hcsv in Hdf. injection Hqe as <-. injection Hdf as <-.
    destruct Hbody as [[_ ->]|(Hno & _)].
    + apply Hsaved. split; [apply Hnone; split_and!; eauto|exact Hresults].
    + exfalso. rewrite (proj2 (three_attempts_entered st _ _ _) Hentered) in Hno.
      discriminate Hno.
Qed.
End query_main_facts.

Lemma query_main_saves_and_then_fails_witness :
  (Query.main accepting (λ batch top_k, inr (no_hits batch top_k))
     (inr ["q"%string]) (inr [Query.Row 10 100]) None None None init).1.1
  = Raise (Exn RuntimeError "generator didn't stop").
Proof.
  refine (proj1 (proj2 (proj2
    (query_main_saves_and_then_fails accepting (λ batch top_k, inr (no_hits batch top_k))
       (inr ["q"%string]) (inr [Query.Row 10 100]) None None None
       ["q"%string] [Query.Row 10 100] _
       eq_refl eq_refl eq_refl eq_refl _ eq_refl eq_refl eq_refl)))).
  reflexivity.
Defined.
(** ** [load_data] of db_insertion.py *)

Section load_data_facts.
Import DbInsertion.
Context (open_ : string → string + list (list string)).
Context (int_ : string → string + Z).

Local Abbreviation third_as_int := (third_as_int int_).
Local Abbreviation comprehension := (comprehension int_).
Local Abbreviation load_data := (load_data open_ int_).

Lemma comprehension_inr rows ids :
  comprehension rows = inr ids ↔ Forall2 (λ row id, third_as_int row = inr id) rows ids.
Proof.
  revert ids. induction rows as [|row rows IH]; intros ids; simpl.
  - split; [intros [= <-]; constructor|intros Hnil; inversion Hnil; reflexivity].
  - destruct (third_as_int row) as [msg|id] eqn:Hrow.
    + split; [intros [=]|]. intros Hcons. inversion Hcons; subst. congruence.
    + destruct (comprehension rows) as [msg|ids'] eqn:Hrows.
      * split; [intros [=]|]. intros Hcons. inversion Hcons as [|? id' ? ids'' ? Hrest]; subst.
        apply IH in Hrest. discriminate Hrest.
      * split.
        -- intros [= <-]. constructor; [exact Hrow|]. apply IH. reflexivity.
        -- intros Hcons. inversion Hcons as [|? id' ? ids'' Hid Hrest]; subst.
           apply IH in Hrest. injection Hrest as <-. congruence.
Qed.

Lemma comprehension_inl rows msg :
  comprehension rows = inl msg
  ↔ ∃ before row after,
      rows = before ++ row :: after ∧ third_as_int row = inl msg ∧
      Forall (λ r, ∃ id, third_as_int r = inr id) before.
Proof.
  induction rows as [|row rows IH]; simpl.
  - split; [intros [=]|]. intros (before & r & after & Hnil & _).
    destruct before; discriminate Hnil.
  - destruct (third_as_int row) as [msg'|id] eqn:Hrow.
    + split.
      * intros [= ->]. exists [], row, rows. split_and!; [reflexivity|exact Hrow|constructor].
      * intros ([|r before] & r' & after & Hrows & Hfail & Hbefore);
          simpl in Hrows; injection Hrows as -> ->.
        -- congruence.
        -- apply Forall_cons in Hbefore as [[id Hid] _]. congruence.
    + destruct (comprehension rows) as [msg'|ids'] eqn:Hrows.
      * split.
        -- intros [= ->]. destruct (proj1 IH eq_refl) as (before & r & after & -> & Hfail & Hbefore).
           exists (row :: before), r, after. split_and!; [reflexivity|exact Hfail|].
           apply Forall_cons. split; [eauto|exact Hbefore].
        -- intros ([|r before] & r' & after & Hcons & Hfail & Hbefore);
             simpl in Hcons; injection Hcons as -> ->; [congruence|].
           apply Forall_cons in Hbefore as [_ Hbefore].
           f_equal. assert (inl msg' = inl msg :> string + list Z) as [= ->]; [|reflexivity].
           apply IH. eauto 6.
      * split; [intros [=]|].
        intros ([|r before] & r' & after & Hcons & Hfail & Hbefore);
          simpl in Hcons; injection Hcons as -> ->; [congruence|].
        apply Forall_cons in Hbefore as [_ Hbefore].
        assert (inr ids' = inl msg :> string + list Z) as [=].
        apply IH. eauto 6.
Qed.

Lemma third_as_int_inr row id :
  third_as_int row = inr id ↔ ∃ field, row !! 2%nat = Some field ∧ int_ field = inr id.
Proof.
  unfold DbInsertion.third_as_int. destruct (row !! 2%nat) as [field|].
  - split; [eauto|]. intros (? & [= <-] & ?). assumption.
  - split; [intros [=]|intros (? & [=] & _)].
Qed.

(** X16.  [load_data] returns a list of ids exactly when the file opens
    and has a first line, and every later row has a third field that
    [int] accepts: the ids are these numbers, one per row after the
    header, in the order of the rows.  The header and the other fields
    are not read; a file with a header only gives the empty list. *)
Theorem load_data_returns_iff file_path ids :
  load_data file_path = inr ids
  ↔ ∃ header rows,
      open_ file_path = inr (header :: rows) ∧
      Forall2 (λ row id, ∃ field, row !! 2%nat = Some field ∧ int_ field = inr id) rows ids.
Proof.
  unfold DbInsertion.load_data.
  destruct (open_ file_path) as [msg|[|header rows]].
  - split; [intros [=]|intros (? & ? & [=] & _)].
  - split; [intros [=]|intros (? & ? & [=] & _)].
  - destruct (comprehension rows) as [msg|ids'] eqn:Hrows.
    + split; [intros [=]|]. intros (? & ? & [= <- <-] & Hids). exfalso.
      assert (comprehension rows = inr ids) as Hok; [|congruence].
      apply comprehension_inr. eapply Forall2_impl; [exact Hids|].
      intros row id. apply third_as_int_inr.
    + apply comprehension_inr in Hrows. split.
      * intros [= <-]. exists header, rows. split; [reflexivity|].
        eapply Forall2_impl; [exact Hrows|]. intros row id. apply third_as_int_inr.
      * intros (? & ? & [= <- <-] & Hids). f_equal.
        assert (comprehension rows = inr ids) as Hok.
        { apply comprehension_inr. eapply Forall2_impl; [exact Hids|].
          intros row id. apply third_as_int_inr. }
        apply comprehension_inr in Hrows. congruence.
Qed.

(** X17.  Every failure of [load_data] is an [Exception] whose message is
    "Error loading data from", the path, and the message of the cause:
    that of [open]; nothing, for a file without a line (the
    [StopIteration] of [next]); or, for the first row after the header
    whose third field is missing or is not a number, "list index out of
    range" or the message of [int].  No partial list is returned. *)
Theorem load_data_raises_iff file_path e :
  load_data file_path = inl e
  ↔ ∃ cause,
      e = Exn Exception ("Error loading data from " +:+ file_path +:+ ": " +:+ cause) ∧
      (open_ file_path = inl cause ∨
       (open_ file_path = inr [] ∧ cause = ""%string) ∨
       ∃ header before row after,
         open_ file_path = inr (header :: before ++ row :: after) ∧
         third_as_int row = inl cause ∧
         Forall (λ r, ∃ id, third_as_int r = inr id) before).
Proof.
  unfold DbInsertion.load_data.
  destruct (open_ file_path) as [msg|[|header rows]].
  - split.
    + intros [= <-]. exists msg. split; [reflexivity|]. left. reflexivity.
    + intros (cause & -> & [[= ->]|[[[=] _]|(? & ? & ? & ? & [=] & _)]]). reflexivity.
  - split.
    + intros [= <-]. exists ""%string. split; [reflexivity|]. right. left. split; reflexivity.
    + intros (cause & -> & [[=]|[[_ ->]|(? & ? & ? & ? & [=] & _)]]). reflexivity.
  - destruct (comprehension rows) as [msg|ids'] eqn:Hrows.
    + split.
      * intros [= <-]. exists msg. split; [reflexivity|]. right. right.
        apply comprehension_inl in Hrows as (before & row & after & -> & Hrow & Hbefore).
        exists header, before, row, after. split_and!; [reflexivity|exact Hrow|exact Hbefore].
      * intros (cause & -> & [[=]|[[[=] _]|(? & before & row & after & [= <- ->] & Hrow & Hbefore)]]).
        assert (comprehension (before ++ row :: after) = inl cause) as Hfail
          by (apply comprehension_inl; eauto 6).
        rewrite Hrows in Hfail. injection Hfail as ->. reflexivity.
    + split; [intros [=]|].
      intros (cause & -> & [[=]|[[[=] _]|(? & before & row & after & [= <- ->] & Hrow & Hbefore)]]).
      assert (comprehension (before ++ row :: after) = inl cause) as Hfail
        by (apply comprehension_inl; eauto 6).
      rewrite Hrows in Hfail. discriminate Hfail.
Qed.
End load_data_facts.

(** ** Batches and the rows of the dataset *)

(** Consecutive slices of [step] items whose upper bounds are clipped to
    [n], a bound that is not below the length of the list. *)
Lemma slice_clip {A} (l : list A) (n step : Z) (k : nat) :
  0 < step → (length l ≤ Z.to_nat n)%nat → Z.of_nat k * step < n →
  slice l (Z.of_nat k * step) ((Z.of_nat k * step + step) `min` n)
  = take (Z.to_nat step) (drop (k * Z.to_nat step) l).
Proof.
  intros Hstep Hl Hk. unfold slice.
  replace (Z.to_nat (Z.of_nat k * step)) with (k * Z.to_nat step)%nat by nia.
  destruct (decide (Z.of_nat k * step + step ≤ n)).
  - f_equal. lia.
  - rewrite !take_ge; [reflexivity|rewrite length_drop; nia|rewrite length_drop; nia].
Qed.

Lemma join_slices {A} (l : list A) (n step : Z) :
  0 < step → (length l ≤ Z.to_nat n)%nat →
  mjoin ((λ k : nat, slice l (Z.of_nat k * step) ((Z.of_nat k * step + step) `min` n))
           <$> seq 0 (range_len 0 n step)) = l.
Proof.
  intros Hstep Hl.
  etransitivity; [|apply (join_pieces (Z.to_nat step) (range_len 0 n step) l)].
  - f_equal. apply list_fmap_ext. intros k ? Hk. apply lookup_seq in Hk as [-> Hk].
    simpl. apply range_len_lt in Hk; [|exact Hstep].
    apply slice_clip; assumption.
  - destruct (decide (length l ≤ range_len 0 n step * Z.to_nat step)%nat) as [|Hshort];
      [assumption|exfalso].
    assert (range_len 0 n step < range_len 0 n step)%nat; [|lia].
    apply range_len_lt; [exact Hstep|]. nia.
Qed.

Section batches_facts.
Import DbInsertion.
Context {vector : Type}.
Implicit Types (chunk_id : list Z) (corpus_embedding : list vector).

(** X18.  The batches keep every id with the vector of its own row: the
    pairs of a batch are the rows of its range, and the pairs of all
    batches are the rows of the dataset, in order (as far as both an id
    and a vector exist).  With no more vectors than ids no vector is
    lost, and with as many vectors as ids every batch has as many vectors
    as ids. *)
Theorem batches_keep_rows_together name chunk_id corpus_embedding batch_size batches :
  0 < batch_size →
  make_batches name chunk_id corpus_embedding batch_size = Some batches →
  Forall (λ b, zip (batch_ids b) (batch_embeddings b)
               = slice (zip chunk_id corpus_embedding) (start_idx b) (end_idx b)) batches ∧
  mjoin ((λ b, zip (batch_ids b) (batch_embeddings b)) <$> batches)
    = zip chunk_id corpus_embedding ∧
  ((length corpus_embedding ≤ length chunk_id)%nat →
   mjoin (batch_embeddings <$> batches) = corpus_embedding) ∧
  (length corpus_embedding = length chunk_id →
   Forall (λ b, length (batch_embeddings b) = length (batch_ids b)) batches).
Proof.
  intros Hsize. unfold make_batches, py_range. rewrite decide_False by lia.
  intros [= <-]. rewrite <- !list_fmap_compose.
  assert (∀ b : nat,
            zip (slice chunk_id (0 + Z.of_nat b * batch_size)
                   ((0 + Z.of_nat b * batch_size + batch_size) `min` len chunk_id))
                (slice corpus_embedding (0 + Z.of_nat b * batch_size)
                   ((0 + Z.of_nat b * batch_size + batch_size) `min` len chunk_id))
            = slice (zip chunk_id corpus_embedding) (Z.of_nat b * batch_size)
                ((Z.of_nat b * batch_size + batch_size) `min` len chunk_id)) as Hzip.
  { intros b. rewrite Z.add_0_l. unfold slice.
    by rewrite zip_with_drop, zip_with_take. }
  split_and!.
  - apply Forall_fmap, Forall_forall. intros k _. simpl. rewrite Hzip.
    by rewrite Z.add_0_l.
  - etransitivity; [|apply (join_slices (zip chunk_id corpus_embedding) (len chunk_id)
                              batch_size Hsize)].
    + f_equal. apply list_fmap_ext. intros _ k _. simpl. apply Hzip.
    + rewrite length_zip_with. unfold len. lia.
  - intros Hlen.
    etransitivity; [|apply (join_slices corpus_embedding (len chunk_id) batch_size Hsize)].
    + reflexivity.
    + unfold len. lia.
  - intros Hlen. apply Forall_fmap, Forall_forall. intros k _. simpl.
    unfold slice. rewrite !length_take, !length_drop. lia.
Qed.
End batches_facts.

Lemma batches_keep_rows_together_witness :
  mjoin ((λ b, zip (DbInsertion.batch_ids b) (DbInsertion.batch_embeddings b))
           <$> [nth_batch "SOICT" [7; 8; 9] ["a"; "b"; "c"]%string 2 0;
                nth_batch "SOICT" [7; 8; 9] ["a"; "b"; "c"]%string 2 1])
  = zip [7; 8; 9] ["a"; "b"; "c"]%string.
Proof.
  refine (proj1 (proj2 (batches_keep_rows_together "SOICT" [7; 8; 9] ["a"; "b"; "c"]%string
                          2 _ _ _))).
  - lia.
  - reflexivity.
Defined.

(** ** The calls of [perform_search] to the store *)

Lemma seqZ_sorted (n : nat) : ∀ a, StronglySorted Z.lt (seqZ a (Z.of_nat n)).
Proof.
  induction n as [|n IH]; intros a; [constructor|].
  rewrite seqZ_S. constructor; [apply IH|].
  apply Forall_forall. intros x Hx. apply elem_of_seqZ in Hx. lia.
Qed.

Lemma slice_min {A} (l : list A) (i j : Z) :
  0 ≤ i → slice l i j = slice l i (j `min` len l).
Proof.
  intros Hi. unfold slice, len. destruct (decide (j ≤ Z.of_nat (length l))).
  - by rewrite Z.min_l.
  - rewrite Z.min_r by lia. rewrite !take_ge; [reflexivity|rewrite length_drop; lia..].
Qed.

Section search_calls.
Import Query.
Context {vector score : Type}.
Context (search : list vector → Z → list (list (@hit score))).
Implicit Types (question_embedding : list vector) (corpus_df : list row).

(** The query indices of the first [m] batches, for a store that answers
    no more hit lists than it was given query vectors. *)
Lemma qids_of_batches_sorted question_embedding corpus_df top_k batch_size (m : nat) :
  0 < batch_size →
  (∀ batch, (length (search batch top_k) ≤ length batch)%nat) →
  (m ≤ range_len 0 (len question_embedding) batch_size)%nat →
  let qids :=
    mjoin ((λ k : nat,
              qid <$> imap (aggregate corpus_df (0 + Z.of_nat k * batch_size))
                        (search (slice question_embedding (0 + Z.of_nat k * batch_size)
                                   (0 + Z.of_nat k * batch_size + batch_size)) top_k))
             <$> seq 0 m) in
  StronglySorted Z.lt qids ∧
  Forall (λ q, 0 ≤ q < (Z.of_nat m * batch_size) `min` len question_embedding) qids ∧
  len qids ≤ (Z.of_nat m * batch_size) `min` len question_embedding.
Proof.
  intros Hsize Hsearch. induction m as [|m IH]; intros Hm qids; subst qids.
  - simpl. split_and!; [constructor|constructor|unfold len; simpl; lia].
  - destruct (IH ltac:(lia)) as (Hsorted & Hrange & Hlen). clear IH.
    rewrite seq_S, fmap_app, join_app. simpl. rewrite app_nil_r.
    assert (Z.of_nat m * batch_size < len question_embedding) as Hlt
      by (apply range_len_lt; [exact Hsize|lia]).
    rewrite qid_imap_aggregate, Z.add_0_l.
    set (answers := search _ top_k).
    assert (len answers ≤ batch_size `min` (len question_embedding - Z.of_nat m * batch_size))
      as Hanswers.
    { rewrite <- (length_slice question_embedding (Z.of_nat m * batch_size) batch_size
                    Hsize ltac:(lia)).
      unfold answers, len. specialize (Hsearch
        (slice question_embedding (Z.of_nat m * batch_size)
           (Z.of_nat m * batch_size + batch_size))). lia. }
    set (earlier := mjoin _) in *. clearbody earlier answers.
    split_and!.
    + apply StronglySorted_app_2; [|exact Hsorted|apply seqZ_sorted].
      intros x1 x2 Hx1 Hx2. apply elem_of_seqZ in Hx2.
      apply (proj1 (Forall_forall _ _) Hrange) in Hx1. lia.
    + apply Forall_app. split.
      * eapply Forall_impl; [exact Hrange|]. intros q Hq. simpl in Hq. lia.
      * apply Forall_forall. intros q Hq. apply elem_of_seqZ in Hq. lia.
    + unfold len in *. rewrite length_app, length_seqZ. lia.
Qed.

(** X20.  For a positive batch size and a store that answers at most one
    hit list per query vector of a batch, the query indices of the results
    of [perform_search] increase strictly and lie in [0, N), N the number
    of query vectors: no two results carry the same index, and there are
    at most N results. *)
Theorem query_indices_increase question_embedding corpus_df top_k batch_size results :
  0 < batch_size →
  (∀ batch, (length (search batch top_k) ≤ length batch)%nat) →
  perform_search search question_embedding corpus_df top_k batch_size = Some results →
  StronglySorted Z.lt (qid <$> results) ∧
  Forall (λ q, 0 ≤ q < len question_embedding) (qid <$> results) ∧
  (length results ≤ length question_embedding)%nat.
Proof.
  intros Hsize Hsearch. unfold perform_search, py_range. rewrite decide_False by lia.
  intros [= <-]. rewrite foldl_app_join. simpl. rewrite <- list_fmap_compose.
  rewrite fmap_join, <- list_fmap_compose.
  destruct (qids_of_batches_sorted question_embedding corpus_df top_k batch_size
              (range_len 0 (len question_embedding) batch_size) Hsize Hsearch ltac:(lia))
    as (Hsorted & Hrange & Hlen).
  split_and!.
  - exact Hsorted.
  - eapply Forall_impl; [exact Hrange|]. intros q Hq. simpl in Hq. lia.
  - rewrite <- (length_fmap qid), fmap_join, <- list_fmap_compose.
    unfold len in Hlen. apply Nat2Z.inj_le. etransitivity; [exact Hlen|]. lia.
Qed.
End search_calls.

Lemma query_indices_increase_witness :
  StronglySorted Z.lt
    (Query.qid <$> [Query.aggregate [Query.Row 10 100] 0 0 (@nil (@Query.hit Z));
                    Query.aggregate [Query.Row 10 100] 0 1 (@nil (@Query.hit Z));
                    Query.aggregate [Query.Row 10 100] 2 0 (@nil (@Query.hit Z))]).
Proof.
  refine (proj1 (query_indices_increase no_hits ["p"; "q"; "r"]%string [Query.Row 10 100]
                   50 2 _ _ _ _)).
  - lia.
  - intros batch. unfold no_hits. rewrite length_fmap. lia.
  - reflexivity.
Defined.


Section search_rpc_facts.
Import Query.
Context {vector score : Type}.
Context (search : list vector → Z → exn + list (list (@hit score))).
Implicit Types (question_embedding : list vector) (corpus_df : list row).

Local Abbreviation search_loop := (search_loop search).
Local Abbreviation perform_search_rpc := (perform_search_rpc search).

(** The loop of [perform_search], from any point on: the batches it
    submits are an initial segment of the batches that are left; it
    returns exactly when each of them is answered, and then they were
    all submitted; and when it raises, the last batch submitted is the
    one whose call raised. *)
Lemma search_loop_spec question_embedding corpus_df top_k batch_size starts :
  ∀ qid_cid calls,
  let batches := (λ i, (i, slice question_embedding i (i + batch_size))) <$> starts in
  let run := search_loop question_embedding corpus_df top_k batch_size starts qid_cid calls in
  (∃ more, run.2 = calls ++ more ∧ more `prefix_of` (snd <$> batches)) ∧
  (∀ results, run.1 = inr results ↔
     ∃ answers,
       Forall2 (λ c hits, search c.2 top_k = inr hits) batches answers ∧
       results = qid_cid ++ mjoin (zip_with (λ c hits, imap (aggregate corpus_df c.1) hits)
                                            batches answers)) ∧
  (∀ results, run.1 = inr results → run.2 = calls ++ (snd <$> batches)) ∧
  (∀ e, run.1 = inl e →
     ∃ batch, last run.2 = Some batch ∧ search batch top_k = inl e).
Proof.
  induction starts as [|i starts IH]; intros qid_cid calls batches run;
    subst batches run; simpl.
  - split_and!.
    + exists []. split; [by rewrite app_nil_r|reflexivity].
    + intros results. split.
      * intros [= <-]. exists []. split; [constructor|by rewrite app_nil_r].
      * intros (answers & Hanswers & ->). inversion Hanswers. simpl.
        by rewrite app_nil_r.
    + intros results _. by rewrite app_nil_r.
    + intros e [=].
  - destruct (search (slice question_embedding i (i + batch_size)) top_k)
      as [e|hits] eqn:Hcall; simpl.
    + split_and!.
      * exists [slice question_embedding i (i + batch_size)]. split; [reflexivity|].
        by apply prefix_cons, prefix_nil.
      * intros results. split; [intros [=]|].
        intros (answers & Hanswers & _). inversion Hanswers as [|? ? ? ? Hhead]; subst.
        simpl in Hhead. rewrite Hcall in Hhead. discriminate Hhead.
      * intros results [=].
      * intros e' [= <-]. eexists. split; [apply last_snoc|exact Hcall].
    + destruct (IH (qid_cid ++ imap (aggregate corpus_df i) hits)
                   (calls ++ [slice question_embedding i (i + batch_size)]))
        as ((more & Hmore & Hprefix) & Hresults & Hall & Hraise).
      split_and!.
      * exists (slice question_embedding i (i + batch_size) :: more).
        split; [by rewrite Hmore, <- (assoc_L (++))|by apply prefix_cons].
      * intros results. rewrite Hresults. split.
        -- intros (answers & Hanswers & ->). exists (hits :: answers).
           split; [by constructor|]. simpl. by rewrite <- (assoc_L (++)).
        -- intros (answers & Hanswers & ->).
           inversion Hanswers as [|? hits' ? answers' Hhead Htail]; subst.
           simpl in Hhead. rewrite Hcall in Hhead. injection Hhead as <-.
           exists answers'. split; [exact Htail|]. simpl. by rewrite <- (assoc_L (++)).
      * intros results Hrun. rewrite (Hall results Hrun). by rewrite <- (assoc_L (++)).
      * exact Hraise.
Qed.

(** X19.  For a positive batch size, [perform_search] submits the query
    vectors to [collection.search] in order and each at most once, in
    consecutive slices of the queries, none empty and none longer than
    the batch size, that join to the whole sequence.  It returns exactly
    when the store answers every one of these calls: then every batch was
    submitted, and the results are the answers to the calls, in the order
    of the calls.  When a call raises, [perform_search] raises that
    exception, and the batch of that call is the last one submitted: the
    later batches are never sent, and nothing is returned. *)
Theorem queries_are_submitted_in_order question_embedding corpus_df top_k batch_size :
  0 < batch_size →
  let batches := submitted question_embedding batch_size in
  let run := perform_search_rpc question_embedding corpus_df top_k batch_size in
  mjoin (snd <$> batches) = question_embedding ∧
  Forall (λ c, 0 < len c.2 ≤ batch_size) batches ∧
  run.2 `prefix_of` (snd <$> batches) ∧
  (∀ results, run.1 = inr results ↔
     ∃ answers,
       Forall2 (λ c hits, search c.2 top_k = inr hits) batches answers ∧
       results = mjoin (zip_with (λ c hits, imap (aggregate corpus_df c.1) hits)
                                 batches answers)) ∧
  (∀ results, run.1 = inr results → run.2 = snd <$> batches) ∧
  (∀ e, run.1 = inl e →
     ∃ batch, last run.2 = Some batch ∧ search batch top_k = inl e).
Proof.
  intros Hsize batches run.
  assert (mjoin (snd <$> batches) = question_embedding) as Hjoin.
  { unfold batches, submitted. rewrite <- list_fmap_compose.
    etransitivity; [|apply (join_slices question_embedding (len question_embedding)
                              batch_size Hsize); unfold len; lia].
    f_equal. apply list_fmap_ext. intros k ? Hk. apply lookup_seq in Hk as [-> Hk].
    simpl. apply slice_min. lia. }
  assert (Forall (λ c : Z * list vector, 0 < len c.2 ≤ batch_size) batches) as Hsizes.
  { unfold batches, submitted. apply Forall_fmap, Forall_forall. intros k Hk.
    apply elem_of_seq in Hk as [_ Hk]. simpl in Hk.
    apply range_len_lt in Hk; [|exact Hsize]. simpl.
    rewrite length_slice; [lia|exact Hsize|lia]. }
  split; [exact Hjoin|]. split; [exact Hsizes|].
  subst run. unfold Query.perform_search_rpc, py_range. rewrite decide_False by lia.
  assert ((λ i, (i, slice question_embedding i (i + batch_size)))
            <$> ((λ k : nat, 0 + Z.of_nat k * batch_size)
                   <$> seq 0 (range_len 0 (len question_embedding) batch_size))
          = batches) as Hbatches.
  { rewrite <- list_fmap_compose. reflexivity. }
  pose proof (search_loop_spec question_embedding corpus_df top_k batch_size
                ((λ k : nat, 0 + Z.of_nat k * batch_size)
                   <$> seq 0 (range_len 0 (len question_embedding) batch_size)) [] [])
    as Hspec.
  cbv zeta in Hspec. rewrite Hbatches in Hspec.
  destruct Hspec as ((more & Hmore & Hprefix) & Hresults & Hall & Hraise).
  split_and!.
  - rewrite Hmore. exact Hprefix.
  - exact Hresults.
  - exact Hall.
  - exact Hraise.
Qed.

(** Against a store that answers every call, [perform_search_rpc] is
    [perform_search]. *)
Lemma perform_search_rpc_answered (answer : list vector → Z → list (list (@hit score)))
    question_embedding corpus_df top_k batch_size results :
  (∀ batch, search batch top_k = inr (answer batch top_k)) →
  perform_search answer question_embedding corpus_df top_k batch_size = Some results →
  (perform_search_rpc question_embedding corpus_df top_k batch_size).1 = inr results.
Proof.
  intros Hsearch. unfold perform_search, Query.perform_search_rpc.
  destruct (py_range 0 (len question_embedding) batch_size) as [starts|]; [|intros [=]].
  intros [= <-]. generalize (@nil (@search_result score)) (@nil (list vector)).
  induction starts as [|i starts IH]; intros qid_cid calls; simpl; [reflexivity|].
  rewrite Hsearch. apply IH.
Qed.
End search_rpc_facts.

Lemma queries_are_submitted_in_order_witness :
  mjoin (snd <$> submitted ["p"; "q"; "r"]%string 2) = ["p"; "q"; "r"]%string.
Proof.
  refine (proj1 (queries_are_submitted_in_order
                   (λ batch top_k, inr (no_hits batch top_k)) ["p"; "q"; "r"]%string
                   [Query.Row 10 100] 50 2 _)).
  lia.
Defined.
(** ** [main] of db_insertion.py *)

(** The [with] statement of [main]: three attempts, five seconds, and the
    [break] after the [yield]. *)
Lemma db_three_attempts_normal_iff st sc alias body :
  (with_connection st (Variant true sc) alias 3 5 body init).1 = Normal
  ↔ body = None ∧ ∃ k, (k < 3)%nat ∧ connect_result st k = None.
Proof.
  split.
  - intros Hnormal.
    destruct (with_connection_normal _ _ _ _ _ _ Hnormal) as (-> & Hruns & _).
    split; [reflexivity|]. clear Hnormal.
    apply (three_attempts_entered st (Variant true sc) alias None). exact Hruns.
  - intros (-> & k & Hk & Hok).
    destruct (first_success (connect_result st) k Hok) as (k' & Hk' & Hok' & Hfail).
    apply (db_connection_success_path_aux k'); [left; lia|lia|exact Hfail|exact Hok'].
Qed.

Lemma db_three_attempts_store_up st sc alias e :
  connect_result st 0 = None → connect_result st 1 = None →
  is_Exception e = true →
  let run := with_connection st (Variant true sc) alias 3 5 (Some e) init in
  run.1 = Raise (Exn RuntimeError "generator didn't stop after throw()") ∧
  body_runs (log run.2) = 1%nat.
Proof.
  intros H0 H1 He run. subst run.
  unfold with_connection, range. simpl. unfold_M. simpl. rewrite H0. simpl.
  rewrite He. simpl. unfold_M. simpl. destruct sc; simpl; rewrite H1; simpl;
    split; reflexivity.
Qed.

Section gather_facts.
Import DbInsertion.

Lemma gather_inr answers results :
  gather answers = inr results ↔ answers = inr <$> results.
Proof.
  revert results. induction answers as [|[e|r] answers IH]; intros results; simpl.
  - split; [intros [= <-]; reflexivity|]. destruct results; [reflexivity|intros [=]].
  - split; [intros [=]|]. destruct results; intros [=].
  - destruct (gather answers) as [e|results'] eqn:Hrest.
    + split; [intros [=]|]. destruct results as [|r' results]; intros [= <- Hanswers].
      apply IH in Hanswers. discriminate Hanswers.
    + split.
      * intros [= <-]. simpl. f_equal. apply IH. reflexivity.
      * destruct results as [|r' results]; intros [= <- Hanswers].
        apply IH in Hanswers. injection Hanswers as <-. reflexivity.
Qed.

(** A worker that reports success reports no error. *)
Lemma insert_batch_true {vector : Type} st sc insert (b : @batch vector) error :
  insert_batch st sc insert b = Return true error → error = None.
Proof.
  unfold insert_batch.
  destruct (milvus_connection st sc _ 3 5 insert init).1 as [|e].
  - destruct insert; [intros [=]|intros [= <-]; reflexivity].
  - destruct (is_Exception e); intros [=].
Qed.

Lemma answer_success r :
  (∃ error, answer r = inr (true, error)) ↔ ∃ error, r = Return true error.
Proof.
  destruct r as [success error| |e]; simpl.
  - split; intros [error' [= -> <-]]; eauto.
  - split; intros [? [=]].
  - split; intros [? [=]].
Qed.
End gather_facts.

Lemma filter_length_all {A} (P : A → Prop) `{∀ x, Decision (P x)} (l : list A) :
  (length l ≤ length (filter P l))%nat ↔ Forall P l.
Proof.
  pose proof (filter_length_lt_iff P l) as Hlt. rewrite Forall_forall. split.
  - intros Hle x Hx. destruct (decide (P x)) as [|Hno]; [assumption|].
    assert (length (filter P l) < length l)%nat; [|lia]. apply Hlt. eauto.
  - intros Hall. destruct (decide (length l ≤ length (filter P l))%nat); [assumption|].
    destruct (proj1 Hlt ltac:(lia)) as (x & Hx & Hno). destruct (Hno (Hall x Hx)).
Qed.

Section db_main_facts.
Import DbInsertion.
Context {vector : Type}.
Context (st : store) (sc : finally_scope).
Context (np_load : exn + list vector).
Context (open_ : string → string + list (list string)) (int_ : string → string + Z).
Context (plan : call → option string) (has_collection has_index : bool).
Context (cpu_count : Z).
Context (workers : @batch vector → store * option exn).

Local Abbreviation main :=
  (main st sc np_load open_ int_ plan has_collection has_index cpu_count workers).
Local Abbreviation main_body :=
  (main_body sc plan has_collection has_index cpu_count workers).
Local Abbreviation answers :=
  (λ batches : list (@batch vector),
     gather ((λ b, answer (insert_batch (workers b).1 sc (workers b).2 b)) <$> batches)).

Local Ltac unfold_D :=
  unfold DbInsertion.main_body, pool_map, create_collection, rpc, say, say_all, raise,
    mbind, D_bind, mret, D_ret in *.

(** One call of the body: the branch in which the store fails it is
    closed by [tac], the other goes on. *)
Local Ltac call c tac :=
  destruct (plan c) eqn:?; simpl; [solve [tac]|].

Local Ltac run_body tac :=
  unfold_D; unfold setup_calls, index_calls;
  destruct has_collection, has_index; simpl;
  call HasCollection tac; try call DropCollection tac; call CreateCollection tac;
  (destruct (decide (4 `min` cpu_count < 1)); simpl; [solve [tac]|]);
  (match goal with
   | |- context [gather ?l] => destruct (gather l) as [?e|?results] eqn:?; simpl; [solve [tac]|]
   end);
  unfold check_results;
  (match goal with
   | |- context [decide (?a < ?b)] => destruct (decide (a < b)); simpl; [solve [tac]|]
   end);
  call HasIndex tac; try (call Release tac; call DropIndex tac);
  call CreateIndex tac; call Load tac.

(** The workers all succeed exactly when the pool gives results that
    pass the check of [main]. *)
Lemma workers_succeed_iff (batches : list (@batch vector)) :
  (∃ results, answers batches = inr results ∧ len batches ≤ success_count results)
  ↔ Forall (λ b, insert_batch (workers b).1 sc (workers b).2 b = Return true None) batches.
Proof.
  split.
  - intros (results & Hanswers & Hcount). apply gather_inr in Hanswers.
    assert (length results = length batches) as Hlen.
    { rewrite <- (length_fmap (@inr exn (bool * option string)) results), <- Hanswers,
        length_fmap. reflexivity. }
    assert (Forall (λ r : bool * option string, r.1 = true) results) as Hall.
    { apply (proj1 (filter_length_all (λ r : bool * option string, r.1 = true) results)).
      unfold success_count, len in Hcount. lia. }
    apply Forall_forall. intros b Hb.
    apply list_elem_of_lookup in Hb as [k Hk].
    assert ((inr <$> results : list (exn + bool * option string)) !! k
            = Some (answer (insert_batch (workers b).1 sc (workers b).2 b))) as Hr.
    { rewrite <- Hanswers, list_lookup_fmap, Hk. reflexivity. }
    rewrite list_lookup_fmap in Hr.
    destruct (results !! k) as [[success error]|] eqn:Hres; [|discriminate Hr].
    simpl in Hr. injection Hr as Hr.
    assert (success = true) as ->.
    { apply (proj1 (Forall_forall _ _) Hall (success, error)).
      apply list_elem_of_lookup. eauto. }
    destruct (proj1 (answer_success _) (ex_intro _ error (eq_sym Hr))) as [error' Hret].
    rewrite Hret. f_equal. apply (insert_batch_true _ _ _ _ _ Hret).
  - intros Hall. exists ((λ _, (true, None)) <$> batches). split.
    + apply gather_inr. rewrite <- list_fmap_compose.
      apply list_fmap_ext. intros k b Hk. simpl.
      rewrite (proj1 (Forall_forall _ _) Hall b); [reflexivity|].
      apply list_elem_of_lookup. eauto.
    + unfold success_count, len. apply Nat2Z.inj_le.
      rewrite <- (length_fmap (λ _ : @batch vector, (true, @None string)) batches) at 1.
      apply (proj2 (filter_length_all (λ r : bool * option string, r.1 = true) _)).
      apply Forall_fmap, Forall_forall. intros b _. reflexivity.
Qed.

Lemma db_main_body_ok chunk_id corpus_embedding batches w :
  make_batches "SOICT" chunk_id corpus_embedding 1000 = Some batches →
  let r := main_body chunk_id corpus_embedding w in
  (r.1 = inr tt ↔
     Forall (λ c, plan c = None) (setup_calls has_collection ++ index_calls has_index) ∧
     1 ≤ cpu_count ∧
     ∃ results, answers batches = inr results ∧ len batches ≤ success_count results) ∧
  (r.1 = inr tt →
     calls r.2 = calls w ++ setup_calls has_collection ++ index_calls has_index ∧
     last (out r.2) = Some "Collection loaded successfully!"%string).
Proof.
  intros Hmk r. subst r. unfold DbInsertion.main_body. rewrite Hmk.
  run_body ltac:(split; [split; [intros [=]|]|intros [=]];
                 intros (Hcalls & Hcpu & results' & Hanswers & Hcount);
                 exfalso;
                 first [lia
                       |congruence
                       |injection Hanswers as <-; lia
                       |repeat (apply Forall_cons in Hcalls as [? Hcalls]); congruence]).
  all: split; [split; [intros _|reflexivity]|intros _].
  all: try (split; [rewrite <- ?(assoc_L (++)); reflexivity|apply last_snoc]).
  all: split_and!; [repeat (apply Forall_cons; split; [assumption|]); apply Forall_nil_2
                   |lia|eexists; split; [reflexivity|lia]].
Qed.

Lemma db_main_body_failed chunk_id corpus_embedding batches results w :
  make_batches "SOICT" chunk_id corpus_embedding 1000 = Some batches →
  Forall (λ c, plan c = None) (setup_calls has_collection) →
  1 ≤ cpu_count →
  answers batches = inr results →
  success_count results < len batches →
  let r := main_body chunk_id corpus_embedding w in
  r.1 = inl (Exn Exception "Some batches failed to insert") ∧
  calls r.2 = calls w ++ setup_calls has_collection ∧
  "Failed batches:"%string ∈ out r.2.
Proof.
  intros Hmk Hsetup Hcpu Hanswers Hcount r. subst r.
  unfold DbInsertion.main_body. rewrite Hmk. unfold_D.
  unfold setup_calls in *.
  destruct has_collection; simpl in Hsetup |- *;
    repeat (apply Forall_cons in Hsetup as [?Hplan Hsetup]);
    repeat match goal with H : plan _ = None |- _ => rewrite H; clear H end; simpl;
    rewrite (decide_False (P := 4 `min` cpu_count < 1)) by lia; simpl;
    rewrite Hanswers; simpl; unfold check_results;
    rewrite (decide_True (P := success_count results < len batches)) by exact Hcount;
    simpl;
    (split; [reflexivity|]); (split; [rewrite <- ?(assoc_L (++)); reflexivity|]);
    rewrite !elem_of_app; right; apply list_elem_of_further, list_elem_of_here.
Qed.

(** [main] ends as its [with] statement does. *)
Lemma db_main_run corpus_embedding chunk_id :
  np_load = inr corpus_embedding →
  load_data open_ int_ "./data/chunked_corpus_lite.csv" = inr chunk_id →
  let w0 := MWorld [] ["Loading data..."%string] in
  let body := main_body chunk_id corpus_embedding w0 in
  let body_end := match body.1 with inr _ => None | inl e => Some e end in
  let run := with_connection st (Variant true sc) "default" 3 5 body_end init in
  (main init).1.1 = run.1 ∧ (main init).2 = run.2 ∧
  ∃ w',
    ((body_runs (log run.2) = 1%nat ∧ w' = body.2) ∨
     (body_runs (log run.2) = 0%nat ∧ w' = w0 ∧ run.1 ≠ Normal)) ∧
    (main init).1.2 = match run.1 with
                      | Normal => w'
                      | Raise e =>
                          if is_Exception e
                          then MWorld (calls w')
                                 (out w' ++ ["Error in main process: " +:+ str e])
                          else w'
                      end.
Proof.
  intros Hnp Hcsv w0 body body_end run. unfold DbInsertion.main. rewrite Hnp, Hcsv.
  fold w0.
  set (f := λ w : mworld, match main_body chunk_id corpus_embedding w with
                          | (inr _, w') => (None, w')
                          | (inl e, w') => (Some e, w')
                          end).
  assert ((f w0).1 = body_end ∧ (f w0).2 = body.2) as [Hend Hstate].
  { unfold f, body_end, body.
    destruct (main_body chunk_id corpus_embedding w0) as [[e|[]] w']; split; reflexivity. }
  destruct (with_connection_do_spec st (Variant true sc) "default" 3 5 f w0)
    as (Hout & Hworld & Hbody).
  rewrite Hend in Hout, Hworld. rewrite Hstate in Hbody.
  fold run in Hout, Hworld.
  unfold mbind, M_bind, mret, M_ret.
  destruct (with_connection_do st (Variant true sc) "default" 3 5 f w0 init)
    as [[ended w'] world']. cbn [fst snd] in Hout, Hworld, Hbody. subst ended world'.
  unfold main_except. cbn [fst snd].
  destruct run.1 as [|e]; [|destruct (is_Exception e)]; cbn [fst snd];
    (split; [reflexivity|]); (split; [reflexivity|]); exists w';
    (split; [exact Hbody|reflexivity]).
Qed.

(** X21.  [main] of db_insertion.py ends normally exactly when the
    embeddings and the ids load, the store accepts one of the three
    attempts of the main connection and fails none of the calls of a
    complete run, there is a processor for the pool, and every worker
    answers [(True, None)].  In such a run the calls to the store are, in
    this order: [has_collection]; [drop_collection], when the collection
    exists; the creation of the collection; then, after the insertion,
    [has_index]; [release] and [drop_index], when there is an index;
    [create_index] and [load].  So an existing collection is always
    dropped and created anew before the insertion. *)
Theorem db_main_ends_normally_iff :
  ((main init).1.1 = Normal
   ↔ ∃ corpus_embedding chunk_id batches,
       np_load = inr corpus_embedding ∧
       load_data open_ int_ "./data/chunked_corpus_lite.csv" = inr chunk_id ∧
       make_batches "SOICT" chunk_id corpus_embedding 1000 = Some batches ∧
       (∃ k, (k < 3)%nat ∧ connect_result st k = None) ∧
       Forall (λ c, plan c = None) (setup_calls has_collection ++ index_calls has_index) ∧
       1 ≤ cpu_count ∧
       Forall (λ b, insert_batch (workers b).1 sc (workers b).2 b = Return true None)
              batches) ∧
  ((main init).1.1 = Normal →
   calls (main init).1.2 = setup_calls has_collection ++ index_calls has_index ∧
   last (out (main init).1.2) = Some "Collection loaded successfully!"%string).
Proof.
  destruct np_load as [e|corpus_embedding] eqn:Hnp.
  { unfold DbInsertion.main, main_except, mret, M_ret. cbn [fst snd].
    split; [split|]; try (destruct (is_Exception e); intros [=]).
    intros (? & ? & ? & [=] & _). }
  destruct (load_data open_ int_ "./data/chunked_corpus_lite.csv") as [e|chunk_id] eqn:Hcsv.
  { unfold DbInsertion.main, main_except, mret, M_ret. rewrite Hcsv. cbn [fst snd].
    split; [split|]; try (destruct (is_Exception e); intros [=]).
    intros (? & ? & ? & _ & [=] & _). }
  rewrite <- Hnp.
  destruct (db_main_run corpus_embedding chunk_id Hnp Hcsv)
    as (Hend & _ & w' & Hbody & Hstate).
  cbv zeta in Hend, Hbody, Hstate.
  assert (∃ batches, make_batches "SOICT" chunk_id corpus_embedding 1000 = Some batches)
    as [batches Hmk].
  { unfold make_batches, py_range. rewrite decide_False by lia. eauto. }
  destruct (db_main_body_ok chunk_id corpus_embedding batches
              (MWorld [] ["Loading data..."%string]) Hmk) as [Hok Hcalls].
  cbv zeta in Hok, Hcalls.
  set (body := main_body chunk_id corpus_embedding (MWorld [] ["Loading data..."%string]))
    in *.
  rewrite workers_succeed_iff in Hok.
  rewrite Hend, db_three_attempts_normal_iff.
  assert (match body.1 with inr _ => None | inl e => Some e end = None ↔ body.1 = inr tt)
    as Hnone.
  { destruct body.1 as [e|[]]; split; (reflexivity || intros [=]). }
  split.
  - rewrite Hnone, Hok. split.
    + intros ((Hplan & Hcpu & Hworkers) & Hentered).
      exists corpus_embedding, chunk_id, batches. split_and!; (assumption || reflexivity).
    + intros (ce & ids & bs & Hce & Hids & Hbs & Hentered & Hplan & Hcpu & Hworkers).
      rewrite Hnp in Hce. injection Hce as <-. injection Hids as <-.
      rewrite Hmk in Hbs. injection Hbs as <-.
      split_and!; assumption.
  - intros [Hbody_end Hentered]. apply Hnone in Hbody_end.
    rewrite Hstate.
    assert ((with_connection st (Variant true sc) "default" 3 5
               match body.1 with inr _ => None | inl e => Some e end init).1 = Normal)
      as -> by (apply db_three_attempts_normal_iff; split; [apply Hnone|]; assumption).
    destruct Hbody as [[_ ->]|(_ & _ & Hno)].
    + apply Hcalls. exact Hbody_end.
    + exfalso. apply Hno. apply db_three_attempts_normal_iff.
      split; [apply Hnone|]; assumption.
Qed.

(** The pool gives a result for every batch when the insertions raise
    nothing but [Exception]s. *)
Lemma pool_answers (batches : list (@batch vector)) :
  (∀ b e, b ∈ batches → (workers b).2 = Some e → is_Exception e = true) →
  ∃ results, answers batches = inr results ∧ length results = length batches.
Proof.
  induction batches as [|b batches IH]; intros Hclass.
  - exists []. split; reflexivity.
  - destruct IH as (results & Hrest & Hlen).
    { intros b' e Hb'. apply Hclass. apply list_elem_of_further. exact Hb'. }
    cbv beta in Hrest |- *. rewrite fmap_cons.
    destruct (insert_batch_returns (workers b).1 sc (workers b).2 b) as [Hret|[cause Hret]].
    { intros e. apply Hclass. apply list_elem_of_here. }
    + rewrite Hret. cbn [gather answer]. rewrite Hrest.
      eexists. split; [reflexivity|]. simpl. by rewrite Hlen.
    + rewrite Hret. cbn [gather answer]. rewrite Hrest.
      eexists. split; [reflexivity|]. simpl. by rewrite Hlen.
Qed.

(** X22.  When a batch fails, [main] of db_insertion.py builds no index,
    and the error it ends with is not the one it raised.  Against a store
    that accepts the main connection (the first two calls of [connect]
    return) and the calls before the insertion: if some worker does not
    answer [(True, None)], [main] prints the failed batches and raises;
    the connector takes the exception for a connection failure, waits,
    connects again and yields a second time, so that the [with] statement
    raises [RuntimeError], which [main] prints and re-raises.  The calls
    to the store end with the creation of the collection: [has_index],
    [create_index] and [load] are not made. *)
Theorem db_main_with_a_failed_batch corpus_embedding chunk_id batches :
  np_load = inr corpus_embedding →
  load_data open_ int_ "./data/chunked_corpus_lite.csv" = inr chunk_id →
  make_batches "SOICT" chunk_id corpus_embedding 1000 = Some batches →
  connect_result st 0 = None → connect_result st 1 = None →
  Forall (λ c, plan c = None) (setup_calls has_collection) →
  1 ≤ cpu_count →
  (∀ b e, b ∈ batches → (workers b).2 = Some e → is_Exception e = true) →
  (∃ b, b ∈ batches ∧ insert_batch (workers b).1 sc (workers b).2 b ≠ Return true None) →
  (main init).1.1 = Raise (Exn RuntimeError "generator didn't stop after throw()") ∧
  calls (main init).1.2 = setup_calls has_collection ∧
  "Failed batches:"%string ∈ out (main init).1.2 ∧
  last (out (main init).1.2)
    = Some "Error in main process: generator didn't stop after throw()"%string.
Proof.
  intros Hnp Hcsv Hmk H0 H1 Hsetup Hcpu Hclass (b & Hb & Hfailed).
  destruct (pool_answers batches Hclass) as (results & Hanswers & Hlen).
  assert (success_count results < len batches) as Hcount.
  { destruct (decide (success_count results < len batches)) as [|Hall]; [assumption|].
    exfalso. apply Hfailed.
    assert (Forall (λ b, insert_batch (workers b).1 sc (workers b).2 b = Return true None)
                   batches) as Hok.
    { apply workers_succeed_iff. exists results. split; [exact Hanswers|lia]. }
    apply (proj1 (Forall_forall _ _) Hok b Hb). }
  destruct (db_main_body_failed chunk_id corpus_embedding batches results
              (MWorld [] ["Loading data..."%string]) Hmk Hsetup Hcpu Hanswers Hcount)
    as (Hraise & Hcalls & Hline).
  destruct (db_main_run corpus_embedding chunk_id Hnp Hcsv)
    as (Hend & _ & w' & Hbody & Hstate).
  cbv zeta in Hend, Hbody, Hstate.
  set (body := main_body chunk_id corpus_embedding (MWorld [] ["Loading data..."%string]))
    in *.
  rewrite Hraise in Hend, Hbody, Hstate.
  destruct (db_three_attempts_store_up st sc "default"
              (Exn Exception "Some batches failed to insert") H0 H1 eq_refl)
    as [Hrun Hruns].
  rewrite Hrun in Hend, Hstate. rewrite Hruns in Hbody.
  cbn [is_Exception class_of str] in Hstate.
  destruct Hbody as [[_ ->]|[Hno _]]; [|discriminate Hno].
  rewrite Hstate, Hend. cbn [calls out].
  split; [reflexivity|]. split; [exact Hcalls|]. split.
  - apply elem_of_app. left. exact Hline.
  - apply last_snoc.
Qed.
End db_main_facts.

Lemma db_main_with_a_failed_batch_witness :
  DbInsertion.calls
    (DbInsertion.main accepting PerAttempt (inr ["a"%string])
       (λ _, inr [["h"]; ["x"; "y"; "7"]]%string) (λ _, inr 7) (λ _, None)
       false false 4 (λ _, (rejecting, None)) init).1.2
  = [DbInsertion.HasCollection; DbInsertion.CreateCollection].
Proof.
  refine (proj1 (proj2 (db_main_with_a_failed_batch accepting PerAttempt (inr ["a"%string])
            (λ _, inr [["h"]; ["x"; "y"; "7"]]%string) (λ _, inr 7) (λ _, None)
            false false 4 (λ _, (rejecting, None))
            ["a"%string] [7] [DbInsertion.Batch "SOICT" 0 1 [7] ["a"%string]]
            _ _ _ _ _ _ _ _ _))).
  - reflexivity.
  - reflexivity.
  - reflexivity.
  - reflexivity.
  - reflexivity.
  - repeat constructor.
  - lia.
  - intros b e _ [=].
  - eexists. split; [apply list_elem_of_here|]. vm_compute. discriminate.
Defined.
